(** * L-IPAMD: the IP address datastore and the pool manager

    A shallow embedding of package [datastore] (under [ipamd/datastore]),
    of the pool manager and the start-up of package [ipamd] and of the
    kubelet client of package [k8sapi], with the properties of the
    specification stated over it, followed by further properties of the
    same code.

    Conventions of the embedding.
    - Go's [int] is a 64-bit two's complement integer: values are carried
      in [Z] and every [+], [-], [*], [++], [--] of the source goes through
      [GoInt.wrap].  [len] of a map or slice is the length of the list that
      models it; a datastore in memory holds fewer than [2^63] records
      ([in_memory]).
    - [time.Time] is the number of nanoseconds since Go's zero [Time];
      [time.Now()] is an argument of the operation that reads the clock
      (the readings of one call are taken as one instant), and [Time.Sub]
      saturates as in package time.
    - [map[string]*ENIIPPool] and [map[string]*AddressInfo] are ranged over
      by the source, in an order Go leaves unspecified: they are association
      lists, ranged over in list order, and every statement is made for all
      lists, hence for all orders.  [map[PodKey]PodIPInfo] is only looked
      up, inserted into and deleted from: it is a [gmap].
    - a function returning [(string, int, error)] returns a [result]
      together with the datastore after the call; the datastore returned is
      the one given when the source leaves it untouched.
    - names are those of the source; the field [DeviceNumber] of
      [PodIPInfo] is [PodDeviceNumber], a module having one field of a
      name. *)

From Stdlib Require Import ZArith Lia List Bool String Permutation.
From stdpp Require Import base strings gmap list fin_maps fin_sets.

Open Scope string_scope.
Open Scope list_scope.
Open Scope Z_scope.

(** ** Go's [int] *)

Module GoInt.

Definition min_int : Z := - 2 ^ 63.
Definition max_int : Z := 2 ^ 63 - 1.

Definition wrap (z : Z) : Z := (z + 2 ^ 63) mod 2 ^ 64 - 2 ^ 63.

Definition add (a b : Z) : Z := wrap (a + b).
Definition sub (a b : Z) : Z := wrap (a - b).
Definition mul (a b : Z) : Z := wrap (a * b).

(** The values an [int] variable can hold. *)
Definition ok (z : Z) : Prop := min_int <= z <= max_int.

(** [len] of a map or of a slice. *)
Definition len {A : Type} (l : list A) : Z := Z.of_nat (length l).

End GoInt.

(** ** package time, as far as the datastore uses it *)

Module time.

Definition Time : Type := Z.
Definition Duration : Type := Z.

Definition minDuration : Duration := GoInt.min_int.
Definition maxDuration : Duration := GoInt.max_int.

Definition Second : Duration := 1000000000.
Definition Minute : Duration := 60 * Second.

(** The zero value of [time.Time]. *)
Definition zero : Time := 0.

(** [t.Sub(u)]: the difference, or the nearest representable duration. *)
Definition Sub (t u : Time) : Duration :=
  if t - u <? minDuration then minDuration
  else if maxDuration <? t - u then maxDuration
  else t - u.

End time.

(** ** package k8sapi: the pod description handed to the datastore *)

Module k8sapi.

Record K8SPodInfo : Type := mkK8SPodInfo {
  Name : string;
  Namespace : string;
  Container : string;
  IP : string
}.

(** *** The kubelet client

    [Pod] carries the fields of the kubelet's answer that the client reads:
    [pod.Metadata.Name], [pod.Metadata.Namespace] and [pod.Status.PodIP].
    A [Response] is what [ioutil.ReadAll(resp.Body)] gives, the body or the
    error; [Get] is the [Getter] interface; [json.Unmarshal] into a
    [podList] is the argument [Unmarshal], which gives the [Items] or the
    error. *)
Record Pod : Type := mkPod {
  Metadata_Name : string;
  Metadata_Namespace : string;
  Status_PodIP : string
}.

Definition Response : Type := (string + string)%type.

Record Getter : Type := mkGetter {
  Get : string -> Response + string
}.

Definition kubeletURL : string := "http://localhost:10255/pods".
Definition kubeletURLPrefix : string := "http://".
Definition kubeletURLSurfix : string := ":10255/pods".

(** The loop over [podlist.Items]. *)
Fixpoint podsInfo (items : list Pod) : list K8SPodInfo :=
  match items with
  | [] => []
  | pod :: rest =>
      if negb (String.eqb (Status_PodIP pod) "")
      then {| Name := Metadata_Name pod; Namespace := Metadata_Namespace pod;
              Container := ""; IP := Status_PodIP pod |} :: podsInfo rest
      else podsInfo rest
  end.

Definition k8sGetLocalPodIPs (Unmarshal : string -> list Pod + string) (http : Getter)
    (localIP : string) : list K8SPodInfo + string :=
  match
    match Get http kubeletURL with
    | inl resp => inl resp
    | inr _ => Get http (kubeletURLPrefix ++ localIP ++ kubeletURLSurfix)%string
    end
  with
  | inr err => inr ("query kubelet: failed to query kubelet: " ++ err)%string
  | inl resp =>
      match resp with
      | inr err => inr ("query kublet: failed to read response body: " ++ err)%string
      | inl body =>
          match Unmarshal body with
          | inr err => inr ("query kubelet: failed to unmarshal pod list: " ++ err)%string
          | inl items => inl (podsInfo items)
          end
      end
  end.

End k8sapi.

(** ** package datastore *)

Module datastore.

Import GoInt.

Definition minLifeTime : time.Duration := 1 * time.Minute.
Definition addressCoolingPeriod : time.Duration := 1 * time.Minute.

(** The errors the datastore returns.  [DuplicatedENIError] and
    [DuplicateIPError] are message constants of the source, [ErrUnknownPod]
    and [ErrUnknownPodIP] its two error variables; the remaining four are
    built in place with [errors.New] and are named here after their
    message. *)
Inductive error : Type :=
  | DuplicatedENIError
  | ErrUnknownENI
  | DuplicateIPError
  | ErrInvalidPodMultipleIP
  | ErrNoAvailableIP
  | ErrNoDeletableENI
  | ErrUnknownPod
  | ErrUnknownPodIP.

(** [err.Error()] *)
Definition Error (e : error) : string :=
  match e with
  | DuplicatedENIError => "data store: duplicate ENI"
  | ErrUnknownENI => "add ENI's IP to datastore: unknown ENI"
  | DuplicateIPError => "datastore: duplicated IP"
  | ErrInvalidPodMultipleIP => "datastore; invalid pod with multiple IP addresses"
  | ErrNoAvailableIP => "datastore: no available IP addresses"
  | ErrNoDeletableENI => "free ENI: no ENI can be deleted at this time"
  | ErrUnknownPod => "datastore: unknown pod"
  | ErrUnknownPodIP => "datastore: pod using unknown IP address"
  end.

Inductive result (A : Type) : Type :=
  | Ok (a : A)
  | Err (e : error).
Arguments Ok {A} a.
Arguments Err {A} e.

Record AddressInfo : Type := mkAddressInfo {
  Assigned : bool;
  address : string;
  unAssignedTime : time.Time
}.

Record ENIIPPool : Type := mkENIIPPool {
  createTime : time.Time;
  lastUnAssignedTime : time.Time;
  IsPrimary : bool;
  id : string;
  DeviceNumber : Z;
  AssignedIPv4Addresses : Z;
  IPv4Addresses : list (string * AddressInfo)
}.

Record PodKey : Type := mkPodKey {
  name : string;
  namespace : string;
  container : string
}.

#[global] Instance PodKey_eq_dec : EqDecision PodKey.
Proof. solve_decision. Defined.

#[global] Instance PodKey_countable : Countable PodKey.
Proof.
  refine (inj_countable'
            (fun k => (name k, namespace k, container k))
            (fun t => mkPodKey t.1.1 t.1.2 t.2) _).
  intros [? ? ?]. reflexivity.
Defined.

Definition NewPodKey (k8sPod : k8sapi.K8SPodInfo) : PodKey :=
  {| name := k8sapi.Name k8sPod;
     namespace := k8sapi.Namespace k8sPod;
     container := k8sapi.Container k8sPod |}.

Record PodIPInfo : Type := mkPodIPInfo {
  IP : string;
  PodDeviceNumber : Z
}.

Record DataStore : Type := mkDataStore {
  total : Z;
  assigned : Z;
  eniIPPools : list (string * ENIIPPool);
  podsIP : gmap PodKey PodIPInfo
}.

Definition NewDataStore : DataStore :=
  {| total := 0; assigned := 0; eniIPPools := []; podsIP := ∅ |}.

(** *** Maps ranged over by the source, as association lists *)

Section AssocList.
Context {V : Type}.

(** [m[k]] *)
Fixpoint get (k : string) (m : list (string * V)) : option V :=
  match m with
  | [] => None
  | (k', v) :: rest => if String.eqb k k' then Some v else get k rest
  end.

(** [m[k] = v] *)
Fixpoint put (k : string) (v : V) (m : list (string * V)) : list (string * V) :=
  match m with
  | [] => [(k, v)]
  | (k', v') :: rest =>
      if String.eqb k k' then (k', v) :: rest else (k', v') :: put k v rest
  end.

(** [delete(m, k)] *)
Fixpoint remove (k : string) (m : list (string * V)) : list (string * V) :=
  match m with
  | [] => []
  | (k', v') :: rest =>
      if String.eqb k k' then remove k rest else (k', v') :: remove k rest
  end.

Definition keys (m : list (string * V)) : list string := m.*1.
End AssocList.

(** *** Field updates *)

Definition set_Assigned (b : bool) (a : AddressInfo) : AddressInfo :=
  {| Assigned := b; address := address a; unAssignedTime := unAssignedTime a |}.

Definition set_unAssignedTime (t : time.Time) (a : AddressInfo) : AddressInfo :=
  {| Assigned := Assigned a; address := address a; unAssignedTime := t |}.

Definition set_IPv4Addresses (l : list (string * AddressInfo)) (e : ENIIPPool) : ENIIPPool :=
  {| createTime := createTime e; lastUnAssignedTime := lastUnAssignedTime e;
     IsPrimary := IsPrimary e; id := id e; DeviceNumber := DeviceNumber e;
     AssignedIPv4Addresses := AssignedIPv4Addresses e; IPv4Addresses := l |}.

Definition set_AssignedIPv4Addresses (n : Z) (e : ENIIPPool) : ENIIPPool :=
  {| createTime := createTime e; lastUnAssignedTime := lastUnAssignedTime e;
     IsPrimary := IsPrimary e; id := id e; DeviceNumber := DeviceNumber e;
     AssignedIPv4Addresses := n; IPv4Addresses := IPv4Addresses e |}.

Definition set_lastUnAssignedTime (t : time.Time) (e : ENIIPPool) : ENIIPPool :=
  {| createTime := createTime e; lastUnAssignedTime := t;
     IsPrimary := IsPrimary e; id := id e; DeviceNumber := DeviceNumber e;
     AssignedIPv4Addresses := AssignedIPv4Addresses e; IPv4Addresses := IPv4Addresses e |}.

Definition set_total (n : Z) (ds : DataStore) : DataStore :=
  {| total := n; assigned := assigned ds; eniIPPools := eniIPPools ds; podsIP := podsIP ds |}.

Definition set_assigned (n : Z) (ds : DataStore) : DataStore :=
  {| total := total ds; assigned := n; eniIPPools := eniIPPools ds; podsIP := podsIP ds |}.

Definition set_eniIPPools (l : list (string * ENIIPPool)) (ds : DataStore) : DataStore :=
  {| total := total ds; assigned := assigned ds; eniIPPools := l; podsIP := podsIP ds |}.

Definition set_podsIP (m : gmap PodKey PodIPInfo) (ds : DataStore) : DataStore :=
  {| total := total ds; assigned := assigned ds; eniIPPools := eniIPPools ds; podsIP := m |}.

(** *** AddENI *)

Definition AddENI (now : time.Time) (eniID : string) (deviceNumber : Z) (isPrimary : bool)
    (ds : DataStore) : option error * DataStore :=
  match get eniID (eniIPPools ds) with
  | Some _ => (Some DuplicatedENIError, ds)
  | None =>
      (None,
       set_eniIPPools
         (put eniID
            {| createTime := now; lastUnAssignedTime := time.zero;
               IsPrimary := isPrimary; id := eniID; DeviceNumber := deviceNumber;
               AssignedIPv4Addresses := 0; IPv4Addresses := [] |}
            (eniIPPools ds))
         ds)
  end.

(** *** AddENIIPv4Address *)

Definition AddENIIPv4Address (eniID ipv4 : string) (ds : DataStore)
    : option error * DataStore :=
  match get eniID (eniIPPools ds) with
  | None => (Some ErrUnknownENI, ds)
  | Some curENI =>
      match get ipv4 (IPv4Addresses curENI) with
      | Some _ => (Some DuplicateIPError, ds)
      | None =>
          (None,
           set_eniIPPools
             (put eniID
                (set_IPv4Addresses
                   (put ipv4
                      {| Assigned := false; address := ipv4; unAssignedTime := time.zero |}
                      (IPv4Addresses curENI))
                   curENI)
                (eniIPPools ds))
             (set_total (add (total ds) 1) ds))
      end
  end.

(** *** AssignPodIPv4Address *)

(** What one pass over the addresses of an ENI finds: whether the address
    was taken out of the pool by this call ([fresh]), the [address] field
    of the record, and the addresses of the ENI afterwards. *)
Record claim : Type := mkClaim {
  fresh : bool;
  claimed : string;
  after : list (string * AddressInfo)
}.

(** The inner loop of [assignPodIPv4AddressUnsafe], over one ENI. *)
Fixpoint claimAddress (ip : string) (addrs : list (string * AddressInfo)) : option claim :=
  match addrs with
  | [] => None
  | (k, addr) :: rest =>
      if String.eqb ip (address addr) then
        Some {| fresh := negb (Assigned addr);
                claimed := address addr;
                after := (k, if Assigned addr then addr else set_Assigned true addr) :: rest |}
      else if negb (Assigned addr) && String.eqb ip "" then
        Some {| fresh := true;
                claimed := address addr;
                after := (k, set_Assigned true addr) :: rest |}
      else
        match claimAddress ip rest with
        | Some c =>
            Some {| fresh := fresh c; claimed := claimed c; after := (k, addr) :: after c |}
        | None => None
        end
  end.

(** What the pass over the ENIs finds: the claim, the device number of the
    ENI it was made on, and the ENIs afterwards. *)
Record assignment : Type := mkAssignment {
  was_fresh : bool;
  ip_of : string;
  device_of : Z;
  pools_after : list (string * ENIIPPool)
}.

(** The outer loop of [assignPodIPv4AddressUnsafe]. *)
Fixpoint assignOnENIs (ip : string) (pools : list (string * ENIIPPool)) : option assignment :=
  match pools with
  | [] => None
  | (k, eni) :: rest =>
      let skip :=
        match assignOnENIs ip rest with
        | Some a =>
            Some {| was_fresh := was_fresh a; ip_of := ip_of a; device_of := device_of a;
                    pools_after := (k, eni) :: pools_after a |}
        | None => None
        end in
      if String.eqb ip "" && (len (IPv4Addresses eni) =? AssignedIPv4Addresses eni) then skip
      else
        match claimAddress ip (IPv4Addresses eni) with
        | Some c =>
            let eni1 :=
              if fresh c
              then set_AssignedIPv4Addresses (add (AssignedIPv4Addresses eni) 1) eni
              else eni in
            Some {| was_fresh := fresh c; ip_of := claimed c; device_of := DeviceNumber eni;
                    pools_after := (k, set_IPv4Addresses (after c) eni1) :: rest |}
        | None => skip
        end
  end.

Definition assignPodIPv4AddressUnsafe (k8sPod : k8sapi.K8SPodInfo) (ds : DataStore)
    : result (string * Z) * DataStore :=
  let podKey := NewPodKey k8sPod in
  match assignOnENIs (k8sapi.IP k8sPod) (eniIPPools ds) with
  | Some a =>
      (Ok (ip_of a, device_of a),
       {| total := total ds;
          assigned := if was_fresh a then add (assigned ds) 1 else assigned ds;
          eniIPPools := pools_after a;
          podsIP := <[podKey := {| IP := ip_of a; PodDeviceNumber := device_of a |}]> (podsIP ds) |})
  | None => (Err ErrNoAvailableIP, ds)
  end.

Definition AssignPodIPv4Address (k8sPod : k8sapi.K8SPodInfo) (ds : DataStore)
    : result (string * Z) * DataStore :=
  let podKey := NewPodKey k8sPod in
  match podsIP ds !! podKey with
  | Some ipAddr =>
      if String.eqb (IP ipAddr) (k8sapi.IP k8sPod) && negb (String.eqb (k8sapi.IP k8sPod) "")
      then (Ok (IP ipAddr, PodDeviceNumber ipAddr), ds)
      else (Err ErrInvalidPodMultipleIP, ds)
  | None => assignPodIPv4AddressUnsafe k8sPod ds
  end.

(** *** GetStats, GetENIs *)

Definition GetStats (ds : DataStore) : Z * Z := (total ds, assigned ds).

Definition GetENIs (ds : DataStore) : Z := len (eniIPPools ds).

(** *** getDeletableENI, FreeENI *)

Fixpoint getDeletableENI (now : time.Time) (pools : list (string * ENIIPPool))
    : option ENIIPPool :=
  match pools with
  | [] => None
  | (_, eni) :: rest =>
      if IsPrimary eni then getDeletableENI now rest
      else if time.Sub now (createTime eni) <? minLifeTime then getDeletableENI now rest
      else if time.Sub now (lastUnAssignedTime eni) <? addressCoolingPeriod
           then getDeletableENI now rest
      else if negb (AssignedIPv4Addresses eni =? 0) then getDeletableENI now rest
      else Some eni
  end.

(** The outcome of [FreeENI]: it returns, or it dereferences the nil
    pointer that [ds.eniIPPools[deletableENI.id]] yields when no ENI is
    stored under the [id] field of the one selected. *)
Inductive outcome (A : Type) : Type :=
  | Returns (r : A)
  | Panics.
Arguments Returns {A} r.
Arguments Panics {A}.

Definition FreeENI (now : time.Time) (ds : DataStore)
    : outcome (result string * DataStore) :=
  match getDeletableENI now (eniIPPools ds) with
  | None => Returns (Err ErrNoDeletableENI, ds)
  | Some deletableENI =>
      match get (id deletableENI) (eniIPPools ds) with
      | None => Panics
      | Some stored =>
          Returns
            (Ok (id deletableENI),
             {| total := sub (total ds) (len (IPv4Addresses stored));
                assigned := sub (assigned ds) (AssignedIPv4Addresses deletableENI);
                eniIPPools := remove (id deletableENI) (eniIPPools ds);
                podsIP := podsIP ds |})
      end
  end.

(** *** UnAssignPodIPv4Address *)

(** What the pass over the ENIs releases: the [address] field of the
    record, the device number of its ENI, and the ENIs afterwards. *)
Record release : Type := mkRelease {
  released : string;
  released_device : Z;
  pools_released : list (string * ENIIPPool)
}.

(** The loop of [UnAssignPodIPv4Address]. *)
Fixpoint unassignOnENIs (now : time.Time) (ip : string) (pools : list (string * ENIIPPool))
    : option release :=
  match pools with
  | [] => None
  | (k, eni) :: rest =>
      let next :=
        match unassignOnENIs now ip rest with
        | Some r =>
            Some {| released := released r; released_device := released_device r;
                    pools_released := (k, eni) :: pools_released r |}
        | None => None
        end in
      match get ip (IPv4Addresses eni) with
      | Some addr =>
          if Assigned addr then
            let addr1 := set_unAssignedTime now (set_Assigned false addr) in
            let eni1 :=
              set_lastUnAssignedTime now
                (set_AssignedIPv4Addresses (sub (AssignedIPv4Addresses eni) 1)
                   (set_IPv4Addresses (put ip addr1 (IPv4Addresses eni)) eni)) in
            Some {| released := address addr; released_device := DeviceNumber eni;
                    pools_released := (k, eni1) :: rest |}
          else next
      | None => next
      end
  end.

Definition UnAssignPodIPv4Address (now : time.Time) (k8sPod : k8sapi.K8SPodInfo)
    (ds : DataStore) : result (string * Z) * DataStore :=
  let podKey := NewPodKey k8sPod in
  match podsIP ds !! podKey with
  | None => (Err ErrUnknownPod, ds)
  | Some ipAddr =>
      match unassignOnENIs now (IP ipAddr) (eniIPPools ds) with
      | Some r =>
          (Ok (released r, released_device r),
           {| total := total ds;
              assigned := sub (assigned ds) 1;
              eniIPPools := pools_released r;
              podsIP := delete podKey (podsIP ds) |})
      | None => (Err ErrUnknownPodIP, ds)
      end
  end.

(** *** GetPodInfos *)

(** The key under which a binding is reported to the introspection
    endpoint: [fmt.Sprintf("%s_%s_%s", podKey.name, podKey.namespace,
    podKey.container)]. *)
Definition podInfoKey (podKey : PodKey) : string :=
  (name podKey ++ "_" ++ namespace podKey ++ "_" ++ container podKey)%string.

(** The loop of [GetPodInfos], [range] visiting the bindings in the order
    [l], on the map [podInfos] built so far. *)
Fixpoint reportPods (l : list (PodKey * PodIPInfo)) (podInfos : gmap string PodIPInfo)
    : gmap string PodIPInfo :=
  match l with
  | [] => podInfos
  | (podKey, podInfo) :: rest => reportPods rest (<[podInfoKey podKey := podInfo]> podInfos)
  end.

(** [GetPodInfos], for one order of the bindings; the other orders are the
    permutations of [map_to_list (podsIP ds)]. *)
Definition GetPodInfos (ds : DataStore) : gmap string PodIPInfo :=
  reportPods (map_to_list (podsIP ds)) ∅.

End datastore.

(** ** package awsutils and the EC2 types, as far as [ipamd.go] uses them

    The package is outside this development: the two records below carry
    the fields the pool manager reads, and [APIs] gives, for one tick of the
    manager, the answer of every call the manager can make ([err != nil]
    is [inr] of the message, or [Some] of it for a call with no result). *)

Module awsutils.

Record ENIMetadata : Type := mkENIMetadata {
  ENIID : string;
  MAC : string;
  DeviceNumber : Z;
  SubnetIPv4CIDR : string
}.

(** [ec2.NetworkInterfacePrivateIpAddress]: both fields are pointers, read
    through [aws.BoolValue] and [aws.StringValue]. *)
Record NetworkInterfacePrivateIpAddress : Type := mkPrivateIpAddress {
  Primary : option bool;
  PrivateIpAddress : option string
}.

Definition BoolValue (b : option bool) : bool :=
  match b with Some v => v | None => false end.

Definition StringValue (s : option string) : string :=
  match s with Some v => v | None => "" end.

Record APIs : Type := mkAPIs {
  AllocENI : string + string;
  AllocAllIPAddress : string -> option string;
  (** the answer to the n-th call of the tick *)
  GetAttachedENIs : nat -> list ENIMetadata + string;
  DescribeENI : string -> list NetworkInterfacePrivateIpAddress + string;
  GetPrimaryENI : string;
  (** [networkClient.SetupENINetwork], the one call on the host network *)
  SetupENINetwork : string -> string -> Z -> string -> option string
}.

End awsutils.

(** ** package ipamd: the pool manager *)

Module ipamd.

Import GoInt.

Definition maxRetryCheckENI : nat := 5.

Record IPAMD : Type := mkIPAMD {
  dataStore : datastore.DataStore;
  currentMaxAddrsPerENI : Z;
  maxAddrsPerENI : Z;
  maxENI : Z
}.

Definition set_dataStore (ds : datastore.DataStore) (c : IPAMD) : IPAMD :=
  {| dataStore := ds; currentMaxAddrsPerENI := currentMaxAddrsPerENI c;
     maxAddrsPerENI := maxAddrsPerENI c; maxENI := maxENI c |}.

Definition set_currentMaxAddrsPerENI (n : Z) (c : IPAMD) : IPAMD :=
  {| dataStore := dataStore c; currentMaxAddrsPerENI := n;
     maxAddrsPerENI := maxAddrsPerENI c; maxENI := maxENI c |}.

Definition set_maxAddrsPerENI (n : Z) (c : IPAMD) : IPAMD :=
  {| dataStore := dataStore c; currentMaxAddrsPerENI := currentMaxAddrsPerENI c;
     maxAddrsPerENI := n; maxENI := maxENI c |}.

Definition set_maxENI (n : Z) (c : IPAMD) : IPAMD :=
  {| dataStore := dataStore c; currentMaxAddrsPerENI := currentMaxAddrsPerENI c;
     maxAddrsPerENI := maxAddrsPerENI c; maxENI := n |}.

(** What a tick does that can be seen from outside the manager: the two
    procedures it enters, and the calls it makes on its collaborators. *)
Inductive event : Type :=
  | Enter_increaseIPPool
  | Enter_decreaseIPPool
  | Call_AllocENI
  | Call_AllocAllIPAddress (eni : string)
  | Call_GetAttachedENIs
  | Call_DescribeENI (eni : string)
  | Call_SetupENINetwork (eni : string)
  | Call_FreeENI (eni : string).

Definition is_cloud_call (e : event) : bool :=
  match e with
  | Enter_increaseIPPool | Enter_decreaseIPPool => false
  | _ => true
  end.

(** A method of [*IPAMD]: it reads and writes the manager, leaves a trace,
    and returns unless it panics. *)
Definition M (A : Type) : Type := IPAMD -> list event * datastore.outcome (A * IPAMD).

Definition ret {A : Type} (a : A) : M A :=
  fun c => ([], datastore.Returns (a, c)).

Definition bind {A B : Type} (m : M A) (f : A -> M B) : M B :=
  fun c =>
    match m c with
    | (t, datastore.Returns (a, c1)) =>
        let '(t', r) := f a c1 in ((t ++ t')%list, r)
    | (t, datastore.Panics) => (t, datastore.Panics)
    end.

Definition self : M IPAMD := fun c => ([], datastore.Returns (c, c)).

Definition modify (f : IPAMD -> IPAMD) : M unit :=
  fun c => ([], datastore.Returns (tt, f c)).

Definition emit (e : event) : M unit :=
  fun c => ([e], datastore.Returns (tt, c)).

Definition panic {A : Type} : M A := fun _ => ([], datastore.Panics).

Notation "x <- m ;; k" := (bind m (fun x => k))
  (at level 100, m at next level, right associativity).
Notation "m ;;; k" := (bind m (fun _ => k))
  (at level 100, right associativity).

(** [strings.Contains] *)
Fixpoint Contains (s substr : string) : bool :=
  if String.prefix substr s then true
  else match s with
       | EmptyString => false
       | String _ s' => Contains s' substr
       end.

Definition isAttachmentLimitExceededError (err : string) : bool :=
  Contains err "AttachmentLimitExceeded".

(** The loop of [waitENIAttached], from attempt [retry] with [fuel]
    attempts left. *)
Fixpoint waitENIAttached_loop (aws : awsutils.APIs) (eni : string) (retry fuel : nat)
    : M (awsutils.ENIMetadata + string) :=
  match fuel with
  | O => ret (inr "add eni: not able to retrieve eni from metata service")
  | S fuel' =>
      emit Call_GetAttachedENIs ;;;
      match awsutils.GetAttachedENIs aws retry with
      | inr _ => waitENIAttached_loop aws eni (S retry) fuel'
      | inl enis =>
          match List.find (fun r => String.eqb eni (awsutils.ENIID r)) enis with
          | Some returnedENI => ret (inl returnedENI)
          | None => waitENIAttached_loop aws eni (S retry) fuel'
          end
      end
  end.

Definition waitENIAttached (aws : awsutils.APIs) (eni : string)
    : M (awsutils.ENIMetadata + string) :=
  waitENIAttached_loop aws eni 0 maxRetryCheckENI.

(** [getENIaddresses]: all addresses of the ENI and its primary one.  When
    no address is primary the source returns [errors.Wrapf(err, ...)] with
    [err] nil, which is nil: the caller sees no addresses, an empty primary
    address and no error. *)
Definition getENIaddresses (aws : awsutils.APIs) (eni : string)
    : M ((list awsutils.NetworkInterfacePrivateIpAddress * string) + string) :=
  emit (Call_DescribeENI eni) ;;;
  match awsutils.DescribeENI aws eni with
  | inr err => ret (inr ("fail to find eni addresses for eni " ++ eni ++ ": " ++ err)%string)
  | inl ec2Addrs =>
      match List.find (fun a => awsutils.BoolValue (awsutils.Primary a)) ec2Addrs with
      | Some ec2Addr =>
          ret (inl (ec2Addrs, awsutils.StringValue (awsutils.PrivateIpAddress ec2Addr)))
      | None => ret (inl ([], ""))
      end
  end.

Fixpoint addENIaddressesToDataStore
    (ec2Addrs : list awsutils.NetworkInterfacePrivateIpAddress) (eni : string) : M unit :=
  match ec2Addrs with
  | [] => ret tt
  | ec2Addr :: rest =>
      if awsutils.BoolValue (awsutils.Primary ec2Addr)
      then addENIaddressesToDataStore rest eni
      else
        c <- self ;;
        let '(_, ds) :=
          datastore.AddENIIPv4Address eni
            (awsutils.StringValue (awsutils.PrivateIpAddress ec2Addr)) (dataStore c) in
        modify (set_dataStore ds) ;;;
        addENIaddressesToDataStore rest eni
  end.

(** [setupENI]: add the ENI to the datastore, record the capacity seen,
    wire the ENI into the host unless it is the primary one, add its
    secondary addresses to the datastore.  It returns the error, if any. *)
Definition setupENI (now : time.Time) (aws : awsutils.APIs) (eni : string)
    (eniMetadata : awsutils.ENIMetadata) : M (option string) :=
  c <- self ;;
  let '(err, ds) :=
    datastore.AddENI now eni (awsutils.DeviceNumber eniMetadata)
      (String.eqb eni (awsutils.GetPrimaryENI aws)) (dataStore c) in
  modify (set_dataStore ds) ;;;
  match
    match err with
    | Some e =>
        if negb (String.eqb (datastore.Error e) (datastore.Error datastore.DuplicatedENIError))
        then Some e
        else None
    | None => None
    end
  with
  | Some e =>
      ret (Some ("failed to add eni " ++ eni ++ " to data store: " ++ datastore.Error e)%string)
  | None =>
      r <- getENIaddresses aws eni ;;
      match r with
      | inr err => ret (Some ("failed to retrieve eni " ++ eni ++ " ip addresses: " ++ err)%string)
      | inl (ec2Addrs, eniPrimaryIP) =>
          modify (set_currentMaxAddrsPerENI (len ec2Addrs)) ;;;
          c1 <- self ;;
          (if maxAddrsPerENI c1 <? currentMaxAddrsPerENI c1
           then modify (set_maxAddrsPerENI (currentMaxAddrsPerENI c1))
           else ret tt) ;;;
          wired <-
            (if negb (String.eqb eni (awsutils.GetPrimaryENI aws))
             then
               emit (Call_SetupENINetwork eni) ;;;
               ret (awsutils.SetupENINetwork aws eniPrimaryIP (awsutils.MAC eniMetadata)
                      (awsutils.DeviceNumber eniMetadata) (awsutils.SubnetIPv4CIDR eniMetadata))
             else ret None) ;;
          match wired with
          | Some err => ret (Some ("failed to setup eni " ++ eni ++ " network: " ++ err)%string)
          | None => addENIaddressesToDataStore ec2Addrs eni ;;; ret None
          end
      end
  end.

Definition increaseIPPool (now : time.Time) (aws : awsutils.APIs) : M unit :=
  emit Enter_increaseIPPool ;;;
  c <- self ;;
  if (0 <? maxENI c) && (maxENI c =? datastore.GetENIs (dataStore c)) then ret tt
  else
    emit Call_AllocENI ;;;
    match awsutils.AllocENI aws with
    | inr err =>
        if isAttachmentLimitExceededError err
        then modify (set_maxENI (datastore.GetENIs (dataStore c)))
        else ret tt
    | inl eni =>
        emit (Call_AllocAllIPAddress eni) ;;;
        attached <- waitENIAttached aws eni ;;
        match attached with
        | inr _ => ret tt
        | inl eniMetadata => setupENI now aws eni eniMetadata ;;; ret tt
        end
    end.

Definition decreaseIPPool (now : time.Time) : M unit :=
  emit Enter_decreaseIPPool ;;;
  c <- self ;;
  match datastore.FreeENI now (dataStore c) with
  | datastore.Panics => panic
  | datastore.Returns (datastore.Err _, ds) => modify (set_dataStore ds)
  | datastore.Returns (datastore.Ok eni, ds) =>
      modify (set_dataStore ds) ;;; emit (Call_FreeENI eni)
  end.

Definition updateIPPoolIfRequired (now : time.Time) (aws : awsutils.APIs) : M unit :=
  c <- self ;;
  let '(total, used) := datastore.GetStats (dataStore c) in
  if sub total used <=? currentMaxAddrsPerENI c then increaseIPPool now aws
  else if mul 2 (currentMaxAddrsPerENI c) <? sub total used then decreaseIPPool now
  else ret tt.

(** *** init

    What [init] reads besides the calls of [awsutils.APIs]: the two strings
    [awsClient.GetVPCIPv4CIDR()] and [awsClient.GetLocalIPv4()] of the
    instance metadata, [net.ParseCIDR] (the network, or the error),
    [networkClient.SetupHostNetwork] (given the network and the local
    address, of which [net.ParseIP] is a function) and
    [k8sClient.K8SGetLocalPodIPs]. *)
Record Host : Type := mkHost {
  GetVPCIPv4CIDR : string;
  GetLocalIPv4 : string;
  ParseCIDR : string -> string + string;
  SetupHostNetwork : string -> string -> option string;
  K8SGetLocalPodIPs : string -> list k8sapi.K8SPodInfo + string
}.

Definition initNetwork (host : Host) : option string :=
  match ParseCIDR host (GetVPCIPv4CIDR host) with
  | inr err => Some ("ipamd init: failed to retrieve VPC CIDR: " ++ err)%string
  | inl vpcCIDR =>
      match SetupHostNetwork host vpcCIDR (GetLocalIPv4 host) with
      | Some err => Some ("ipamd init: failed to setup host network: " ++ err)%string
      | None => None
      end
  end.

(** The first loop of [init], from the [i]-th attached ENI on; [clock i]
    is the reading of the clock when the [i]-th ENI is added. *)
Fixpoint init_enis (clock : nat -> time.Time) (aws : awsutils.APIs) (i : nat)
    (enis : list awsutils.ENIMetadata) : M (option string) :=
  match enis with
  | [] => ret None
  | eni :: rest =>
      emit (Call_AllocAllIPAddress (awsutils.ENIID eni)) ;;;
      err <- setupENI (clock i) aws (awsutils.ENIID eni) eni ;;
      match err with
      | Some e =>
          ret (Some ("Failed to setup eni " ++ awsutils.ENIID eni ++ ": " ++ e)%string)
      | None => init_enis clock aws (S i) rest
      end
  end.

(** The second loop of [init]: the error of an assignment is logged and
    the loop goes on. *)
Fixpoint init_usedIPs (usedIPs : list k8sapi.K8SPodInfo) : M unit :=
  match usedIPs with
  | [] => ret tt
  | ip :: rest =>
      c <- self ;;
      let '(_, ds) := datastore.AssignPodIPv4Address ip (dataStore c) in
      modify (set_dataStore ds) ;;;
      init_usedIPs rest
  end.

Definition init (clock : nat -> time.Time) (aws : awsutils.APIs) (host : Host)
    : M (option string) :=
  match initNetwork host with
  | Some err => ret (Some err)
  | None =>
      emit Call_GetAttachedENIs ;;;
      match awsutils.GetAttachedENIs aws 0 with
      | inr _ => ret (Some "ipamd init: failed to retrieve attached ENIs info")
      | inl enis =>
          modify (set_dataStore datastore.NewDataStore) ;;;
          err <- init_enis clock aws 0 enis ;;
          match err with
          | Some e => ret (Some e)
          | None =>
              match K8SGetLocalPodIPs host (GetLocalIPv4 host) with
              | inr _ => ret None
              | inl usedIPs => init_usedIPs usedIPs ;;; ret None
              end
          end
      end
  end.

End ipamd.

(** * Vocabulary of the specification *)

Import GoInt datastore.

(** ** States the package can build

    A Go map holds each key once; [AddENI] stores an ENI under its own [id]
    and [AddENIIPv4Address] an address under its own literal; an [int]
    field holds a 64-bit value. *)

Definition addrs_wf (l : list (string * AddressInfo)) : Prop :=
  NoDup (keys l) ∧ Forall (fun ka => address ka.2 = ka.1) l.

Definition eni_wf (ke : string * ENIIPPool) : Prop :=
  id ke.2 = ke.1 ∧ addrs_wf (IPv4Addresses ke.2) ∧ ok (AssignedIPv4Addresses ke.2).

Definition wf (ds : DataStore) : Prop :=
  NoDup (keys (eniIPPools ds)) ∧ Forall eni_wf (eniIPPools ds) ∧
  ok (total ds) ∧ ok (assigned ds).

#[global] Instance ok_dec z : Decision (ok z).
Proof. unfold ok. apply _. Defined.

#[global] Instance addrs_wf_dec l : Decision (addrs_wf l).
Proof. unfold addrs_wf. apply _. Defined.

#[global] Instance eni_wf_dec ke : Decision (eni_wf ke).
Proof. unfold eni_wf. apply _. Defined.

#[global] Instance wf_dec ds : Decision (wf ds).
Proof. unfold wf. apply _. Defined.

(** ** The quantities the counters stand for *)

(** The number of addresses of an ENI whose [Assigned] flag is set. *)
Fixpoint count_assigned (l : list (string * AddressInfo)) : Z :=
  match l with
  | [] => 0
  | (_, a) :: rest => (if Assigned a then 1 else 0) + count_assigned rest
  end.

(** The sum over all ENIs of the number of Address records. *)
Fixpoint sum_addresses (pools : list (string * ENIIPPool)) : Z :=
  match pools with
  | [] => 0
  | (_, e) :: rest => len (IPv4Addresses e) + sum_addresses rest
  end.

(** The sum over all ENIs of assigned-on-this-ENI. *)
Fixpoint sum_assigned (pools : list (string * ENIIPPool)) : Z :=
  match pools with
  | [] => 0
  | (_, e) :: rest => AssignedIPv4Addresses e + sum_assigned rest
  end.

(** The Address records of a datastore in memory are fewer than [2^63]. *)
Definition in_memory (ds : DataStore) : Prop :=
  sum_addresses (eniIPPools ds) <= max_int.

(** ** Sequences of operations *)

Inductive op : Type :=
  | OpAddENI (now : time.Time) (eniID : string) (deviceNumber : Z) (isPrimary : bool)
  | OpAddENIIPv4Address (eniID ipv4 : string)
  | OpAssign (k8sPod : k8sapi.K8SPodInfo)
  | OpUnAssign (now : time.Time) (k8sPod : k8sapi.K8SPodInfo)
  | OpFreeENI (now : time.Time).

(** The datastore after a call, whether the call failed or not; [None] when
    the call panics. *)
Definition exec (o : op) (ds : DataStore) : option DataStore :=
  match o with
  | OpAddENI now eniID deviceNumber isPrimary =>
      Some (AddENI now eniID deviceNumber isPrimary ds).2
  | OpAddENIIPv4Address eniID ipv4 => Some (AddENIIPv4Address eniID ipv4 ds).2
  | OpAssign k8sPod => Some (AssignPodIPv4Address k8sPod ds).2
  | OpUnAssign now k8sPod => Some (UnAssignPodIPv4Address now k8sPod ds).2
  | OpFreeENI now =>
      match FreeENI now ds with
      | Returns (_, ds') => Some ds'
      | Panics => None
      end
  end.

(** Go fixes no order in which [range] visits a map, and none from one
    loop to the next: between two calls the ENIs, and the addresses of any
    ENI, may come in any other order. *)
Inductive reorder : DataStore -> DataStore -> Prop :=
  | reorder_enis ds l :
      Permutation (eniIPPools ds) l -> reorder ds (set_eniIPPools l ds)
  | reorder_addresses ds pre k e post l :
      eniIPPools ds = pre ++ (k, e) :: post ->
      Permutation (IPv4Addresses e) l ->
      reorder ds (set_eniIPPools (pre ++ (k, set_IPv4Addresses l e) :: post) ds).

(** The states reached from [NewDataStore] by calls that [allowed] admits,
    every state on the way being in memory. *)
Inductive reachable (allowed : op -> DataStore -> Prop) : DataStore -> Prop :=
  | reach_new : reachable allowed NewDataStore
  | reach_call ds o ds' :
      reachable allowed ds -> allowed o ds -> exec o ds = Some ds' -> in_memory ds' ->
      reachable allowed ds'
  | reach_reorder ds ds' :
      reachable allowed ds -> reorder ds ds' -> reachable allowed ds'.

(** Calls with arbitrary arguments. *)
Definition any_call (o : op) (ds : DataStore) : Prop := True.

(** Calls of a caller that keeps to what the datastore leaves to it: an
    address registered on an ENI is a non-empty literal that no other ENI
    holds, and no pod without a binding asks for an address that is already
    assigned. *)
Definition disciplined (o : op) (ds : DataStore) : Prop :=
  match o with
  | OpAddENIIPv4Address eniID ipv4 =>
      ipv4 ≠ "" ∧
      ∀ k e, (k, e) ∈ eniIPPools ds -> k ≠ eniID -> get ipv4 (IPv4Addresses e) = None
  | OpAssign k8sPod =>
      podsIP ds !! NewPodKey k8sPod = None -> k8sapi.IP k8sPod ≠ "" ->
      ∀ k e a, (k, e) ∈ eniIPPools ds ->
               get (k8sapi.IP k8sPod) (IPv4Addresses e) = Some a -> Assigned a = false
  | _ => True
  end.

(** Every pod binding's IP is an Address of exactly one ENI, and that
    Address is assigned. *)
Definition bindings_sound (ds : DataStore) : Prop :=
  ∀ key info, podsIP ds !! key = Some info ->
    ∃ k e a,
      get k (eniIPPools ds) = Some e ∧
      get (IP info) (IPv4Addresses e) = Some a ∧
      Assigned a = true ∧
      ∀ k' e', get k' (eniIPPools ds) = Some e' ->
               is_Some (get (IP info) (IPv4Addresses e')) -> k' = k.

(** A run of assign calls, all of which succeed. *)
Fixpoint assignAll (pods : list k8sapi.K8SPodInfo) (ds : DataStore) : option DataStore :=
  match pods with
  | [] => Some ds
  | k8sPod :: rest =>
      match AssignPodIPv4Address k8sPod ds with
      | (Ok _, ds') => assignAll rest ds'
      | (Err _, _) => None
      end
  end.

(** A run of release calls, each at its own time, all of which succeed. *)
Fixpoint unassignAll (calls : list (time.Time * k8sapi.K8SPodInfo)) (ds : DataStore)
    : option DataStore :=
  match calls with
  | [] => Some ds
  | (now, k8sPod) :: rest =>
      match UnAssignPodIPv4Address now k8sPod ds with
      | (Ok _, ds') => unassignAll rest ds'
      | (Err _, _) => None
      end
  end.

(** Consecutive ticks of the pool manager, each with its clock reading and
    the answers of the cloud during it. *)
Fixpoint ticks (l : list (time.Time * awsutils.APIs)) : ipamd.M unit :=
  match l with
  | [] => ipamd.ret tt
  | (now, aws) :: rest =>
      ipamd.bind (ipamd.updateIPPoolIfRequired now aws) (fun _ => ticks rest)
  end.

(** ** The loops of the datastore, step by step *)

(** What keeps the inner loop of assign going past an address. *)
Definition passed_over (ip : string) (ka : string * AddressInfo) : Prop :=
  ip ≠ address ka.2 ∧ (Assigned ka.2 = true ∨ ip ≠ "").

(** The ENI as assign leaves it after the claim [c]. *)
Definition claimed_on (c : claim) (e : ENIIPPool) : ENIIPPool :=
  set_IPv4Addresses (after c)
    (if fresh c
     then set_AssignedIPv4Addresses (add (AssignedIPv4Addresses e) 1) e
     else e).

(** The ENI as release leaves it, [a] being the address released. *)
Definition released_on (now : time.Time) (ip : string) (a : AddressInfo) (e : ENIIPPool)
    : ENIIPPool :=
  set_lastUnAssignedTime now
    (set_AssignedIPv4Addresses (sub (AssignedIPv4Addresses e) 1)
       (set_IPv4Addresses
          (put ip (set_unAssignedTime now (set_Assigned false a)) (IPv4Addresses e)) e)).

(** An ENI on which release does not find the address assigned. *)
Definition not_assigned_on (ip : string) (ke : string * ENIIPPool) : Prop :=
  ∀ a, get ip (IPv4Addresses ke.2) = Some a -> Assigned a = false.

(** The four tests an ENI passes to be deletable. *)
Definition deletable (now : time.Time) (e : ENIIPPool) : Prop :=
  IsPrimary e = false ∧
  minLifeTime <= now - createTime e ∧
  addressCoolingPeriod <= now - lastUnAssignedTime e ∧
  AssignedIPv4Addresses e = 0.

(** ** What the datastore keeps true *)

(** assigned-on-this-ENI is the number of assigned addresses of the ENI. *)
Definition counted (ke : string * ENIIPPool) : Prop :=
  AssignedIPv4Addresses ke.2 = count_assigned (IPv4Addresses ke.2).

(** The counters say what the records say. *)
Definition consistent (ds : DataStore) : Prop :=
  wf ds ∧ in_memory ds ∧
  total ds = sum_addresses (eniIPPools ds) ∧
  assigned ds = sum_assigned (eniIPPools ds) ∧
  Forall counted (eniIPPools ds).

(** Every binding points at an assigned Address of some ENI. *)
Definition bindings_point (ds : DataStore) : Prop :=
  ∀ key info, podsIP ds !! key = Some info ->
    ∃ k e a, (k, e) ∈ eniIPPools ds ∧ (IP info, a) ∈ IPv4Addresses e ∧ Assigned a = true.

(** No two ENIs hold the same address. *)
Definition addresses_unique (pools : list (string * ENIIPPool)) : Prop :=
  ∀ k1 e1 k2 e2 ip,
    (k1, e1) ∈ pools -> (k2, e2) ∈ pools ->
    ip ∈ keys (IPv4Addresses e1) -> ip ∈ keys (IPv4Addresses e2) -> k1 = k2.

(** No two pod keys are bound to the same IP. *)
Definition bindings_injective (ds : DataStore) : Prop :=
  ∀ key1 key2 info1 info2,
    podsIP ds !! key1 = Some info1 -> podsIP ds !! key2 = Some info2 ->
    IP info1 = IP info2 -> key1 = key2.

(** The empty string is no address. *)
Definition no_empty_address (pools : list (string * ENIIPPool)) : Prop :=
  ∀ k e, (k, e) ∈ pools -> "" ∉ keys (IPv4Addresses e).

Definition sound (ds : DataStore) : Prop :=
  consistent ds ∧ bindings_point ds ∧ addresses_unique (eniIPPools ds) ∧
  bindings_injective ds ∧ no_empty_address (eniIPPools ds).

(** The number of pod keys of [K] that are bound. *)
Definition bound_among (K : gset PodKey) (ds : DataStore) : Z :=
  Z.of_nat (size (dom (podsIP ds) ∩ K)).

(** The ENI record [AddENI] creates. *)
Definition new_eni (now : time.Time) (eniID : string) (deviceNumber : Z) (isPrimary : bool)
    : ENIIPPool :=
  {| createTime := now; lastUnAssignedTime := time.zero;
     IsPrimary := isPrimary; id := eniID; DeviceNumber := deviceNumber;
     AssignedIPv4Addresses := 0; IPv4Addresses := [] |}.

(** The Address record [AddENIIPv4Address] creates. *)
Definition new_address (ipv4 : string) : AddressInfo :=
  {| Assigned := false; address := ipv4; unAssignedTime := time.zero |}.

(** ** The states of the scenarios

    One primary ENI ["eni-a"] on device 1 with the address ["10.0.0.5"],
    and the pod [p] of namespace [d] in container [c]. *)

Module scenario.

Definition pod_p : k8sapi.K8SPodInfo :=
  {| k8sapi.Name := "p"; k8sapi.Namespace := "d"; k8sapi.Container := "c"; k8sapi.IP := "" |}.

(** The same pod, asking for the address it holds. *)
Definition pod_p_same : k8sapi.K8SPodInfo :=
  {| k8sapi.Name := "p"; k8sapi.Namespace := "d"; k8sapi.Container := "c";
     k8sapi.IP := "10.0.0.5" |}.

(** The same pod, asking for another address. *)
Definition pod_p_other : k8sapi.K8SPodInfo :=
  {| k8sapi.Name := "p"; k8sapi.Namespace := "d"; k8sapi.Container := "c";
     k8sapi.IP := "10.0.0.7" |}.

(** Another pod, asking for the address of [p]. *)
Definition pod_q : k8sapi.K8SPodInfo :=
  {| k8sapi.Name := "q"; k8sapi.Namespace := "d"; k8sapi.Container := "c";
     k8sapi.IP := "10.0.0.5" |}.

(** Another pod, asking for any address. *)
Definition pod_q' : k8sapi.K8SPodInfo :=
  {| k8sapi.Name := "q"; k8sapi.Namespace := "d"; k8sapi.Container := "c";
     k8sapi.IP := "" |}.


Definition with_eni : DataStore := (AddENI 0 "eni-a" 1 true NewDataStore).2.

Definition registered : DataStore := (AddENIIPv4Address "eni-a" "10.0.0.5" with_eni).2.

Definition assigned_p : DataStore := (AssignPodIPv4Address pod_p registered).2.

Definition assigned_p_q : DataStore := (AssignPodIPv4Address pod_q assigned_p).2.

Definition released_p : DataStore := (UnAssignPodIPv4Address 5 pod_p assigned_p_q).2.

(** A secondary ENI registered at time 0, and nothing else. *)
Definition secondary : DataStore := (AddENI 0 "eni-b" 2 false NewDataStore).2.

(** Two ENIs of capacity 14 with all their addresses registered and none
    assigned: 28 addresses, all free. *)
Definition fourteen : list string :=
  ["1"; "2"; "3"; "4"; "5"; "6"; "7"; "8"; "9"; "10"; "11"; "12"; "13"; "14"].

Definition register_all (eniID prefix : string) (ds : DataStore) : DataStore :=
  fold_left (fun ds0 n => (AddENIIPv4Address eniID (prefix ++ n)%string ds0).2) fourteen ds.

Definition two_free_enis : DataStore :=
  register_all "eni-b" "10.0.1."
    (AddENI 0 "eni-b" 2 false
       (register_all "eni-a" "10.0.0." (AddENI 0 "eni-a" 1 true NewDataStore).2)).2.

(** The manager over these 28 free addresses, with a capacity of 14 per
    ENI and no limit discovered. *)
Definition manager_28_free : ipamd.IPAMD :=
  {| ipamd.dataStore := two_free_enis;
     ipamd.currentMaxAddrsPerENI := 14;
     ipamd.maxAddrsPerENI := 14;
     ipamd.maxENI := 0 |}.

(** The manager over one ENI with one free address. *)
Definition manager_1_free : ipamd.IPAMD :=
  {| ipamd.dataStore := registered;
     ipamd.currentMaxAddrsPerENI := 14;
     ipamd.maxAddrsPerENI := 14;
     ipamd.maxENI := 0 |}.

(** The same manager once the limit of one ENI has been discovered. *)
Definition manager_at_limit : ipamd.IPAMD :=
  {| ipamd.dataStore := registered;
     ipamd.currentMaxAddrsPerENI := 14;
     ipamd.maxAddrsPerENI := 14;
     ipamd.maxENI := 1 |}.

(** A cloud that refuses one more ENI. *)
Definition cloud_at_limit : awsutils.APIs :=
  {| awsutils.AllocENI :=
       inr "AttachmentLimitExceeded: Interface count 2 exceeds the limit for t2.micro";
     awsutils.AllocAllIPAddress := fun _ => None;
     awsutils.GetAttachedENIs := fun _ => inl [];
     awsutils.DescribeENI := fun _ => inl [];
     awsutils.GetPrimaryENI := "eni-a";
     awsutils.SetupENINetwork := fun _ _ _ _ => None |}.

End scenario.

(** ** Traces of the pool manager *)

(** A method that enters neither procedure of the manager: all it leaves
    in the trace are calls on the collaborators. *)
Definition cloud_only {A : Type} (m : ipamd.M A) : Prop :=
  ∀ c, Forall (fun e => ipamd.is_cloud_call e = true) (m c).1.

(** The free addresses of the pool and the capacity they are compared
    with, as [updateIPPoolIfRequired] reads them. *)
Definition free_addresses (c : ipamd.IPAMD) : Z :=
  (GetStats (ipamd.dataStore c)).1 - (GetStats (ipamd.dataStore c)).2.

(** [maxENI] has been discovered and the datastore holds that many ENIs. *)
Definition at_max_ENI (c : ipamd.IPAMD) : Prop :=
  0 < ipamd.maxENI c ∧ ipamd.maxENI c = GetENIs (ipamd.dataStore c).

(** The [n]-th answer of [GetAttachedENIs] does not show the ENI: the call
    failed, or no ENI of the answer has that id. *)
Definition not_shown (aws : awsutils.APIs) (eni : string) (n : nat) : Prop :=
  match awsutils.GetAttachedENIs aws n with
  | inr _ => True
  | inl enis => ∀ m, m ∈ enis -> awsutils.ENIID m ≠ eni
  end.

(** ** What the pool manager keeps true *)

(** The counters say what the records say, [total] up to the wrap-around
    of an [int]: this is [consistent] without the bound [in_memory]. *)
Definition consistent_mod (ds : DataStore) : Prop :=
  wf ds ∧
  total ds = wrap (sum_addresses (eniIPPools ds)) ∧
  assigned ds = sum_assigned (eniIPPools ds) ∧
  Forall counted (eniIPPools ds).

(** What belongs to the pods is the same in [ds'] as in [ds]: the
    bindings, the counter of assigned addresses, and every assigned Address
    record on its ENI. *)
Definition pods_untouched (ds ds' : DataStore) : Prop :=
  podsIP ds' = podsIP ds ∧ assigned ds' = assigned ds ∧
  ∀ k e ip a,
    get k (eniIPPools ds) = Some e -> get ip (IPv4Addresses e) = Some a ->
    Assigned a = true ->
    ∃ e', get k (eniIPPools ds') = Some e' ∧ get ip (IPv4Addresses e') = Some a.

(** A method of the manager that returns, keeps the counters right and
    leaves what belongs to the pods. *)
Definition manages {A : Type} (m : ipamd.M A) : Prop :=
  ∀ c, consistent_mod (ipamd.dataStore c) ->
    ∃ t a c',
      m c = (t, Returns (a, c')) ∧
      consistent_mod (ipamd.dataStore c') ∧
      pods_untouched (ipamd.dataStore c) (ipamd.dataStore c').

(** ** Clouds of the scenarios of the pool manager *)

Module clouds.

Definition eni_b : awsutils.ENIMetadata :=
  {| awsutils.ENIID := "eni-b"; awsutils.MAC := "02:00:00:00:00:0b";
     awsutils.DeviceNumber := 2; awsutils.SubnetIPv4CIDR := "10.0.1.0/24" |}.

(** A cloud that grants the ENI eni-b, shows it at the second reading of
    the metadata, and describes it with one primary and two secondary
    addresses. *)
Definition granting : awsutils.APIs :=
  {| awsutils.AllocENI := inl "eni-b";
     awsutils.AllocAllIPAddress := fun _ => None;
     awsutils.GetAttachedENIs :=
       fun n => match n with O => inr "metadata: timeout" | _ => inl [eni_b] end;
     awsutils.DescribeENI :=
       fun _ => inl [awsutils.mkPrivateIpAddress (Some true) (Some "10.0.1.1");
                     awsutils.mkPrivateIpAddress (Some false) (Some "10.0.1.2");
                     awsutils.mkPrivateIpAddress None (Some "10.0.1.3")];
     awsutils.GetPrimaryENI := "eni-a";
     awsutils.SetupENINetwork := fun _ _ _ _ => None |}.

(** The same cloud, failing to describe the ENI. *)
Definition not_describing : awsutils.APIs :=
  {| awsutils.AllocENI := inl "eni-b";
     awsutils.AllocAllIPAddress := fun _ => None;
     awsutils.GetAttachedENIs := fun _ => inl [eni_b];
     awsutils.DescribeENI := fun _ => inr "RequestLimitExceeded";
     awsutils.GetPrimaryENI := "eni-a";
     awsutils.SetupENINetwork := fun _ _ _ _ => None |}.

(** The same cloud, describing the ENI without a primary address. *)
Definition without_primary : awsutils.APIs :=
  {| awsutils.AllocENI := inl "eni-b";
     awsutils.AllocAllIPAddress := fun _ => None;
     awsutils.GetAttachedENIs := fun _ => inl [eni_b];
     awsutils.DescribeENI :=
       fun _ => inl [awsutils.mkPrivateIpAddress (Some false) (Some "10.0.1.2");
                     awsutils.mkPrivateIpAddress None (Some "10.0.1.3")];
     awsutils.GetPrimaryENI := "eni-a";
     awsutils.SetupENINetwork := fun _ _ _ _ => None |}.

End clouds.

(** ** Pods of the scenarios of the introspection endpoint *)

Module pods.

(** Two pods that differ in name and namespace and yield the same key. *)
Definition pod_ab_c : k8sapi.K8SPodInfo :=
  {| k8sapi.Name := "a_b"; k8sapi.Namespace := "c"; k8sapi.Container := "";
     k8sapi.IP := "" |}.

Definition pod_a_bc : k8sapi.K8SPodInfo :=
  {| k8sapi.Name := "a"; k8sapi.Namespace := "b_c"; k8sapi.Container := "";
     k8sapi.IP := "" |}.

(** One ENI with two addresses, one assigned to each of the two pods. *)
Definition both_bound : DataStore :=
  (AssignPodIPv4Address pod_a_bc
     (AssignPodIPv4Address pod_ab_c
        (AddENIIPv4Address "eni-a" "10.0.0.6" scenario.registered).2).2).2.

End pods.

(** ** A start-up scenario *)

Module startup.

(** A cloud on which the ENI eni-b is attached, with one primary and two
    secondary addresses. *)
Definition cloud : awsutils.APIs :=
  {| awsutils.AllocENI := inl "eni-c";
     awsutils.AllocAllIPAddress := fun _ => None;
     awsutils.GetAttachedENIs := fun _ => inl [clouds.eni_b];
     awsutils.DescribeENI :=
       fun _ => inl [awsutils.mkPrivateIpAddress (Some true) (Some "10.0.1.1");
                     awsutils.mkPrivateIpAddress (Some false) (Some "10.0.1.2");
                     awsutils.mkPrivateIpAddress None (Some "10.0.1.3")];
     awsutils.GetPrimaryENI := "eni-a";
     awsutils.SetupENINetwork := fun _ _ _ _ => None |}.

(** A pod running on an address of the ENI, and one on an address the
    cloud does not know. *)
Definition pod_known : k8sapi.K8SPodInfo :=
  {| k8sapi.Name := "web"; k8sapi.Namespace := "default"; k8sapi.Container := "";
     k8sapi.IP := "10.0.1.2" |}.

Definition pod_stray : k8sapi.K8SPodInfo :=
  {| k8sapi.Name := "db"; k8sapi.Namespace := "default"; k8sapi.Container := "";
     k8sapi.IP := "10.9.9.9" |}.

Definition host : ipamd.Host :=
  {| ipamd.GetVPCIPv4CIDR := "10.0.0.0/16";
     ipamd.GetLocalIPv4 := "10.0.0.4";
     ipamd.ParseCIDR := fun s => inl s;
     ipamd.SetupHostNetwork := fun _ _ => None;
     ipamd.K8SGetLocalPodIPs := fun _ => inl [pod_stray; pod_known] |}.

(** The manager before [init]: every counter is zero. *)
Definition fresh : ipamd.IPAMD :=
  {| ipamd.dataStore := NewDataStore;
     ipamd.currentMaxAddrsPerENI := 0;
     ipamd.maxAddrsPerENI := 0;
     ipamd.maxENI := 0 |}.

End startup.

(** ** The same start-up, the kubelet being asked through the client *)

Module kubelet.

(** A kubelet that answers on localhost with two pods, one of which has no
    address yet. *)
Definition http : k8sapi.Getter :=
  {| k8sapi.Get :=
       fun url => if String.eqb url k8sapi.kubeletURL then inl (inl "items")
                  else inr "connection refused" |}.

Definition Unmarshal (body : string) : list k8sapi.Pod + string :=
  if String.eqb body "items"
  then inl [k8sapi.mkPod "web" "default" "10.0.1.2"; k8sapi.mkPod "pending" "default" ""]
  else inr "unexpected end of JSON input".

Definition host : ipamd.Host :=
  {| ipamd.GetVPCIPv4CIDR := "10.0.0.0/16";
     ipamd.GetLocalIPv4 := "10.0.0.4";
     ipamd.ParseCIDR := fun s => inl s;
     ipamd.SetupHostNetwork := fun _ _ => None;
     ipamd.K8SGetLocalPodIPs := k8sapi.k8sGetLocalPodIPs Unmarshal http |}.

End kubelet.

(** * Properties *)

(** ** Arithmetic of [int] and of durations *)

Lemma wrap_ok z : ok (wrap z).
Proof.
  unfold ok, wrap, min_int, max_int.
  pose proof (Z.mod_pos_bound (z + 2 ^ 63) (2 ^ 64) ltac:(lia)). lia.
Qed.

Lemma wrap_id z : ok z -> wrap z = z.
Proof.
  unfold ok, wrap, min_int, max_int. intros Hz.
  rewrite Z.mod_small; lia.
Qed.

Lemma add_exact a b : ok (a + b) -> add a b = a + b.
Proof. apply wrap_id. Qed.

Lemma sub_exact a b : ok (a - b) -> sub a b = a - b.
Proof. apply wrap_id. Qed.

Lemma mul_exact a b : ok (a * b) -> mul a b = a * b.
Proof. apply wrap_id. Qed.

Lemma sub_0_r a : ok a -> sub a 0 = a.
Proof. intros Ha. rewrite sub_exact; rewrite Z.sub_0_r; trivial. Qed.

Lemma len_nonneg {A} (l : list A) : 0 <= len l.
Proof. unfold len. lia. Qed.

Lemma len_app {A} (l1 l2 : list A) : len (l1 ++ l2) = len l1 + len l2.
Proof. unfold len. rewrite length_app. lia. Qed.

Lemma len_cons {A} (x : A) (l : list A) : len (x :: l) = 1 + len l.
Proof. unfold len. simpl length. lia. Qed.

(** Comparing a saturated difference with a duration in range is comparing
    the difference itself. *)
Lemma Sub_ltb now t d :
  time.minDuration < d <= time.maxDuration ->
  (time.Sub now t <? d) = (now - t <? d).
Proof.
  intros Hd. unfold time.Sub.
  destruct (Z.ltb_spec (now - t) time.minDuration);
    [ | destruct (Z.ltb_spec time.maxDuration (now - t)) ]; trivial.
  - transitivity true; [ | symmetry ]; apply Z.ltb_lt; lia.
  - transitivity false; [ | symmetry ]; apply Z.ltb_ge; lia.
Qed.

Lemma minLifeTime_in_range : time.minDuration < minLifeTime <= time.maxDuration.
Proof. vm_compute. split; [ reflexivity | discriminate ]. Qed.

Lemma addressCoolingPeriod_in_range :
  time.minDuration < addressCoolingPeriod <= time.maxDuration.
Proof. vm_compute. split; [ reflexivity | discriminate ]. Qed.

(** ** Association lists *)

Section AssocListFacts.
Context {V : Type}.
Implicit Types (m pre post : list (string * V)) (k : string) (v : V).

Lemma keys_cons k v m : keys ((k, v) :: m) = k :: keys m.
Proof. reflexivity. Qed.

Lemma keys_app pre post : keys (pre ++ post) = keys pre ++ keys post.
Proof. unfold keys. apply fmap_app. Qed.

Lemma elem_of_keys k v m : (k, v) ∈ m -> k ∈ keys m.
Proof. intros H. unfold keys. apply list_elem_of_fmap. exists (k, v). auto. Qed.

Lemma get_elem_of k v m : get k m = Some v -> (k, v) ∈ m.
Proof.
  induction m as [ | [k' v'] m IH]; simpl; [ discriminate | ].
  destruct (String.eqb_spec k k') as [-> | Hne].
  - intros [= ->]. apply elem_of_cons. now left.
  - intros H. apply elem_of_cons. right. auto.
Qed.

Lemma get_None k m : get k m = None <-> k ∉ keys m.
Proof.
  induction m as [ | [k' v'] m IH]; simpl.
  - split; [ intros _ H; now apply elem_of_nil in H | reflexivity ].
  - rewrite not_elem_of_cons.
    destruct (String.eqb_spec k k') as [-> | Hne].
    + split; [ discriminate | tauto ].
    + rewrite IH. tauto.
Qed.

Lemma get_is_Some k m : is_Some (get k m) <-> k ∈ keys m.
Proof.
  destruct (get k m) eqn:E.
  - split; [ intros _ | eauto ].
    apply get_elem_of in E. eapply elem_of_keys; eauto.
  - apply get_None in E. split; [ intros [? [=]] | tauto ].
Qed.

Lemma get_NoDup k v m : NoDup (keys m) -> (k, v) ∈ m -> get k m = Some v.
Proof.
  induction m as [ | [k' v'] m IH]; simpl.
  - intros _ H. now apply elem_of_nil in H.
  - rewrite NoDup_cons, elem_of_cons. intros [Hk' Hnd] [E | HIn].
    + inversion E; subst. now rewrite String.eqb_refl.
    + destruct (String.eqb_spec k k') as [-> | Hne]; [ | auto ].
      exfalso. apply Hk'. eapply elem_of_keys; eauto.
Qed.

Lemma get_app k pre post :
  get k (pre ++ post) = match get k pre with Some v => Some v | None => get k post end.
Proof.
  induction pre as [ | [k' v'] pre IH]; simpl; [ reflexivity | ].
  destruct (String.eqb k k'); auto.
Qed.

Lemma get_mid k v pre post : get k pre = None -> get k (pre ++ (k, v) :: post) = Some v.
Proof. intros H. rewrite get_app, H. simpl. now rewrite String.eqb_refl. Qed.

Lemma get_split k v m :
  get k m = Some v -> ∃ pre post, m = pre ++ (k, v) :: post ∧ get k pre = None.
Proof.
  induction m as [ | [k' v'] m IH]; simpl; [ discriminate | ].
  destruct (String.eqb_spec k k') as [-> | Hne].
  - intros [= ->]. exists [], m. split; reflexivity.
  - intros H. destruct (IH H) as (pre & post & -> & Hpre).
    exists ((k', v') :: pre), post. split; [ reflexivity | ].
    simpl. destruct (String.eqb_spec k k'); [ congruence | assumption ].
Qed.

Lemma put_fresh k v m : get k m = None -> put k v m = m ++ [(k, v)].
Proof.
  induction m as [ | [k' v'] m IH]; simpl; [ reflexivity | ].
  destruct (String.eqb k k'); [ discriminate | ].
  intros H. now rewrite IH.
Qed.

Lemma put_split k v v' pre post :
  get k pre = None -> put k v' (pre ++ (k, v) :: post) = pre ++ (k, v') :: post.
Proof.
  induction pre as [ | [k0 v0] pre IH]; simpl.
  - now rewrite String.eqb_refl.
  - destruct (String.eqb k k0); [ discriminate | ].
    intros H. now rewrite IH.
Qed.

Lemma remove_absent k m : k ∉ keys m -> remove k m = m.
Proof.
  induction m as [ | [k' v'] m IH]; simpl; [ reflexivity | ].
  rewrite not_elem_of_cons. intros [Hne Hk].
  destruct (String.eqb_spec k k'); [ congruence | ].
  now rewrite IH.
Qed.

Lemma remove_app k pre post : remove k (pre ++ post) = remove k pre ++ remove k post.
Proof.
  induction pre as [ | [k' v'] pre IH]; simpl; [ reflexivity | ].
  destruct (String.eqb k k'); simpl; now rewrite IH.
Qed.

Lemma get_remove k m : get k (remove k m) = None.
Proof.
  induction m as [ | [k' v'] m IH]; simpl; [ reflexivity | ].
  destruct (String.eqb_spec k k') as [-> | Hne]; [ assumption | ].
  simpl. destruct (String.eqb_spec k k'); [ congruence | assumption ].
Qed.

Lemma elem_of_remove k k' v m : (k', v) ∈ remove k m -> (k', v) ∈ m ∧ k' ≠ k.
Proof.
  induction m as [ | [k0 v0] m IH]; simpl.
  - intros H. now apply elem_of_nil in H.
  - rewrite elem_of_cons. destruct (String.eqb_spec k k0) as [-> | Hne].
    + intros H. destruct (IH H). tauto.
    + rewrite elem_of_cons. intros [E | H].
      * inversion E; subst. split; [ now left | congruence ].
      * destruct (IH H). tauto.
Qed.

Lemma NoDup_keys_mid k v pre post :
  NoDup (keys (pre ++ (k, v) :: post)) ->
  (k ∉ keys pre) ∧ (k ∉ keys post) ∧ NoDup (keys (pre ++ post)).
Proof.
  rewrite !keys_app, keys_cons, !NoDup_app, NoDup_cons.
  intros (Hpre & Hdisj & Hk & Hpost). repeat split; trivial.
  - intros Hin. apply (Hdisj _ Hin). apply elem_of_cons. now left.
  - intros x Hx Hx'. apply (Hdisj _ Hx). apply elem_of_cons. now right.
Qed.

Lemma remove_mid k v pre post :
  NoDup (keys (pre ++ (k, v) :: post)) -> remove k (pre ++ (k, v) :: post) = pre ++ post.
Proof.
  intros H. apply NoDup_keys_mid in H. destruct H as (H1 & H2 & _).
  rewrite remove_app. simpl. rewrite String.eqb_refl.
  now rewrite !remove_absent.
Qed.

Lemma keys_replace k v v' pre post :
  keys (pre ++ (k, v') :: post) = keys (pre ++ (k, v) :: post).
Proof. now rewrite !keys_app. Qed.
End AssocListFacts.

(** ** The loops of the datastore *)

Lemma set_Assigned_same a : set_Assigned (Assigned a) a = a.
Proof. now destruct a. Qed.

Lemma set_IPv4Addresses_same e : set_IPv4Addresses (IPv4Addresses e) e = e.
Proof. now destruct e. Qed.

Lemma set_podsIP_same ds : set_podsIP (podsIP ds) ds = ds.
Proof. now destruct ds. Qed.

Lemma claimAddress_Some ip addrs c :
  claimAddress ip addrs = Some c ->
  ∃ pre k a post,
    addrs = pre ++ (k, a) :: post ∧
    after c = pre ++ (k, set_Assigned true a) :: post ∧
    claimed c = address a ∧
    fresh c = negb (Assigned a) ∧
    (ip = address a ∨ (Assigned a = false ∧ ip = "")) ∧
    Forall (passed_over ip) pre.
Proof.
  revert c. induction addrs as [ | [k a] rest IH]; simpl; intros c; [ discriminate | ].
  destruct (String.eqb_spec ip (address a)) as [Hip | Hip].
  - intros [= <-]. exists [], k, a, rest. simpl. repeat split; auto.
    destruct (Assigned a) eqn:E; [ | reflexivity ].
    now rewrite <- E, set_Assigned_same.
  - destruct (Assigned a) eqn:E; simpl.
    + destruct (claimAddress ip rest) as [c' | ]; [ | discriminate ].
      intros [= <-]. destruct (IH c' eq_refl) as (pre & k' & a' & post & -> & Hafter & ? & ? & ? & Hpre).
      exists ((k, a) :: pre), k', a', post. simpl. rewrite Hafter.
      repeat split; auto. constructor; [ | assumption ]. split; simpl; auto.
    + destruct (String.eqb_spec ip "") as [Hempty | Hempty].
      * intros [= <-]. exists [], k, a, rest. simpl. rewrite E. repeat split; auto.
      * destruct (claimAddress ip rest) as [c' | ]; [ | discriminate ].
        intros [= <-]. destruct (IH c' eq_refl) as (pre & k' & a' & post & -> & Hafter & ? & ? & ? & Hpre).
        exists ((k, a) :: pre), k', a', post. simpl. rewrite Hafter.
        repeat split; auto. constructor; [ | assumption ]. split; simpl; auto.
Qed.

Lemma claimAddress_None ip addrs :
  claimAddress ip addrs = None <-> Forall (passed_over ip) addrs.
Proof.
  induction addrs as [ | [k a] rest IH]; simpl.
  - split; [ constructor | reflexivity ].
  - rewrite Forall_cons. unfold passed_over at 1. simpl.
    destruct (String.eqb_spec ip (address a)) as [Hip | Hip].
    + split; [ discriminate | tauto ].
    + destruct (Assigned a) eqn:E; simpl.
      * destruct (claimAddress ip rest) as [c' | ].
        -- split; [ discriminate | ]. intros [_ H]. apply IH in H. discriminate.
        -- split; [ | reflexivity ]. intros _. split; [ auto | now apply IH ].
      * destruct (String.eqb_spec ip "") as [Hempty | Hempty].
        -- split; [ discriminate | ]. intros [[_ [? | ?]] _]; congruence.
        -- destruct (claimAddress ip rest) as [c' | ].
           ++ split; [ discriminate | ]. intros [_ H]. apply IH in H. discriminate.
           ++ split; [ | reflexivity ]. intros _. split; [ auto | now apply IH ].
Qed.

Lemma assignOnENIs_Some ip pools r :
  assignOnENIs ip pools = Some r ->
  ∃ pre k e post c,
    pools = pre ++ (k, e) :: post ∧
    claimAddress ip (IPv4Addresses e) = Some c ∧
    was_fresh r = fresh c ∧ ip_of r = claimed c ∧ device_of r = DeviceNumber e ∧
    pools_after r = pre ++ (k, claimed_on c e) :: post.
Proof.
  revert r. induction pools as [ | [k e] rest IH]; simpl; intros r; [ discriminate | ].
  assert (Hskip :
    match assignOnENIs ip rest with
    | Some a =>
        Some {| was_fresh := was_fresh a; ip_of := ip_of a; device_of := device_of a;
                pools_after := (k, e) :: pools_after a |}
    | None => None
    end = Some r ->
    ∃ pre k0 e0 post c,
      (k, e) :: rest = pre ++ (k0, e0) :: post ∧
      claimAddress ip (IPv4Addresses e0) = Some c ∧
      was_fresh r = fresh c ∧ ip_of r = claimed c ∧ device_of r = DeviceNumber e0 ∧
      pools_after r = pre ++ (k0, claimed_on c e0) :: post).
  { destruct (assignOnENIs ip rest) as [a | ]; [ | discriminate ].
    intros [= <-].
    destruct (IH a eq_refl) as (pre & k0 & e0 & post & c & -> & Hc & ? & ? & ? & Hafter).
    exists ((k, e) :: pre), k0, e0, post, c. simpl. rewrite Hafter. auto 10. }
  destruct (String.eqb ip "" && (len (IPv4Addresses e) =? AssignedIPv4Addresses e));
    [ exact Hskip | ].
  destruct (claimAddress ip (IPv4Addresses e)) as [c | ] eqn:Hc; [ | exact Hskip ].
  intros [= <-]. exists [], k, e, rest, c. simpl. auto 10.
Qed.

Lemma assignOnENIs_None ip pools :
  assignOnENIs ip pools = None ->
  Forall (fun ke =>
            (ip = "" ∧ len (IPv4Addresses ke.2) = AssignedIPv4Addresses ke.2) ∨
            Forall (passed_over ip) (IPv4Addresses ke.2)) pools.
Proof.
  induction pools as [ | [k e] rest IH]; simpl; [ constructor | ].
  destruct (assignOnENIs ip rest) as [a | ] eqn:Hrest.
  - destruct (String.eqb ip "" && (len (IPv4Addresses e) =? AssignedIPv4Addresses e));
      [ discriminate | ].
    destruct (claimAddress ip (IPv4Addresses e)); discriminate.
  - intros H. constructor; [ | auto ]. simpl.
    destruct (String.eqb_spec ip "") as [Hip | Hip]; simpl in H.
    + destruct (Z.eqb_spec (len (IPv4Addresses e)) (AssignedIPv4Addresses e)); [ auto | ].
      destruct (claimAddress ip (IPv4Addresses e)) eqn:Hc; [ discriminate | ].
      right. now apply claimAddress_None.
    + destruct (claimAddress ip (IPv4Addresses e)) eqn:Hc; [ discriminate | ].
      right. now apply claimAddress_None.
Qed.

Lemma unassignOnENIs_Some now ip pools r :
  unassignOnENIs now ip pools = Some r ->
  ∃ pre k e post a,
    pools = pre ++ (k, e) :: post ∧
    get ip (IPv4Addresses e) = Some a ∧ Assigned a = true ∧
    released r = address a ∧ released_device r = DeviceNumber e ∧
    pools_released r = pre ++ (k, released_on now ip a e) :: post ∧
    Forall (not_assigned_on ip) pre.
Proof.
  revert r. induction pools as [ | [k e] rest IH]; simpl; intros r; [ discriminate | ].
  assert (Hnext :
    not_assigned_on ip (k, e) ->
    match unassignOnENIs now ip rest with
    | Some r0 =>
        Some {| released := released r0; released_device := released_device r0;
                pools_released := (k, e) :: pools_released r0 |}
    | None => None
    end = Some r ->
    ∃ pre k0 e0 post a,
      (k, e) :: rest = pre ++ (k0, e0) :: post ∧
      get ip (IPv4Addresses e0) = Some a ∧ Assigned a = true ∧
      released r = address a ∧ released_device r = DeviceNumber e0 ∧
      pools_released r = pre ++ (k0, released_on now ip a e0) :: post ∧
      Forall (not_assigned_on ip) pre).
  { intros Hke. destruct (unassignOnENIs now ip rest) as [r0 | ]; [ | discriminate ].
    intros [= <-].
    destruct (IH r0 eq_refl) as (pre & k0 & e0 & post & a & -> & Ha & ? & ? & ? & Hrel & Hpre).
    exists ((k, e) :: pre), k0, e0, post, a. simpl. rewrite Hrel.
    repeat split; auto. }
  destruct (get ip (IPv4Addresses e)) as [a | ] eqn:Ha.
  - destruct (Assigned a) eqn:E.
    + intros [= <-]. exists [], k, e, rest, a. simpl. repeat split; auto.
    + apply Hnext. intros a' Ha'. simpl in Ha'. congruence.
  - apply Hnext. intros a' Ha'. simpl in Ha'. congruence.
Qed.

Lemma unassignOnENIs_None now ip pools :
  unassignOnENIs now ip pools = None <-> Forall (not_assigned_on ip) pools.
Proof.
  induction pools as [ | [k e] rest IH]; simpl.
  - split; [ constructor | reflexivity ].
  - rewrite Forall_cons. unfold not_assigned_on at 1. simpl.
    destruct (get ip (IPv4Addresses e)) as [a | ] eqn:Ha.
    + destruct (Assigned a) eqn:E.
      * split; [ discriminate | ]. intros [H _]. specialize (H a eq_refl). congruence.
      * destruct (unassignOnENIs now ip rest).
        -- split; [ discriminate | ]. intros [_ H]. apply IH in H. discriminate.
        -- split; [ | reflexivity ]. intros _. split; [ | now apply IH ].
           intros a' [= <-]. assumption.
    + destruct (unassignOnENIs now ip rest).
      * split; [ discriminate | ]. intros [_ H]. apply IH in H. discriminate.
      * split; [ | reflexivity ]. intros _. split; [ | now apply IH ]. discriminate.
Qed.

Lemma getDeletableENI_Some now pools e :
  getDeletableENI now pools = Some e ->
  ∃ pre k post, pools = pre ++ (k, e) :: post ∧ deletable now e.
Proof.
  induction pools as [ | [k e0] rest IH]; simpl; [ discriminate | ].
  assert (Hnext : getDeletableENI now rest = Some e ->
                  ∃ pre k0 post, (k, e0) :: rest = pre ++ (k0, e) :: post ∧ deletable now e).
  { intros H. destruct (IH H) as (pre & k0 & post & -> & Hd).
    exists ((k, e0) :: pre), k0, post. auto. }
  destruct (IsPrimary e0) eqn:Hp; [ exact Hnext | ].
  rewrite (Sub_ltb _ _ _ minLifeTime_in_range).
  destruct (Z.ltb_spec (now - createTime e0) minLifeTime); [ exact Hnext | ].
  rewrite (Sub_ltb _ _ _ addressCoolingPeriod_in_range).
  destruct (Z.ltb_spec (now - lastUnAssignedTime e0) addressCoolingPeriod); [ exact Hnext | ].
  destruct (Z.eqb_spec (AssignedIPv4Addresses e0) 0); simpl; [ | exact Hnext ].
  intros [= <-]. exists [], k, rest. split; [ reflexivity | ]. repeat split; auto.
Qed.

Lemma getDeletableENI_None now pools :
  getDeletableENI now pools = None <-> Forall (fun ke => ¬ deletable now ke.2) pools.
Proof.
  induction pools as [ | [k e0] rest IH]; simpl.
  - split; [ constructor | reflexivity ].
  - rewrite Forall_cons. unfold deletable at 1. simpl.
    destruct (IsPrimary e0) eqn:Hp.
    { rewrite IH. split; [ | tauto ]. intros H. split; [ | assumption ].
      intros (? & _). discriminate. }
    rewrite (Sub_ltb _ _ _ minLifeTime_in_range).
    destruct (Z.ltb_spec (now - createTime e0) minLifeTime).
    { rewrite IH. split; [ | tauto ]. intros H'. split; [ | assumption ]. lia. }
    rewrite (Sub_ltb _ _ _ addressCoolingPeriod_in_range).
    destruct (Z.ltb_spec (now - lastUnAssignedTime e0) addressCoolingPeriod).
    { rewrite IH. split; [ | tauto ]. intros H'. split; [ | assumption ]. lia. }
    destruct (Z.eqb_spec (AssignedIPv4Addresses e0) 0); simpl.
    + split; [ discriminate | ]. intros [H' _]. exfalso. apply H'. auto.
    + rewrite IH. split; [ | tauto ]. intros H'. split; [ | assumption ]. tauto.
Qed.

(** ** Assign for a pod that is already bound *)

(** C6. When the pod key is bound to an IP, assign with a non-empty
    requested IP that differs from it fails with the multiple-IP error
    (the spec's InconsistentPodIP) and returns the datastore as it was:
    binding, counters, ENIs and addresses. *)
Theorem assign_other_ip_rejected ds k8sPod ipAddr :
  podsIP ds !! NewPodKey k8sPod = Some ipAddr ->
  k8sapi.IP k8sPod ≠ "" ->
  k8sapi.IP k8sPod ≠ IP ipAddr ->
  AssignPodIPv4Address k8sPod ds = (Err ErrInvalidPodMultipleIP, ds).
Proof.
  intros Hbound Hne Hother. unfold AssignPodIPv4Address. rewrite Hbound.
  destruct (String.eqb_spec (IP ipAddr) (k8sapi.IP k8sPod)); [ congruence | reflexivity ].
Qed.

Lemma assign_other_ip_rejected_witness :
  podsIP scenario.assigned_p !! NewPodKey scenario.pod_p_other
    = Some {| IP := "10.0.0.5"; PodDeviceNumber := 1 |} ∧
  AssignPodIPv4Address scenario.pod_p_other scenario.assigned_p
    = (Err ErrInvalidPodMultipleIP, scenario.assigned_p).
Proof.
  split; [ vm_compute; reflexivity | ].
  apply (assign_other_ip_rejected scenario.assigned_p scenario.pod_p_other
           {| IP := "10.0.0.5"; PodDeviceNumber := 1 |}).
  - vm_compute. reflexivity.
  - vm_compute. discriminate.
  - vm_compute. discriminate.
Defined.

(** C2, as the spec has it, fails: the pod [p] is bound to 10.0.0.5 by a
    first assign with an empty requested IP, and the same call again is
    rejected. *)
Lemma assign_again_empty_ip_rejected :
  AssignPodIPv4Address scenario.pod_p scenario.registered
    = (Ok ("10.0.0.5", 1), scenario.assigned_p) ∧
  podsIP scenario.assigned_p !! NewPodKey scenario.pod_p
    = Some {| IP := "10.0.0.5"; PodDeviceNumber := 1 |} ∧
  k8sapi.IP scenario.pod_p = "" ∧
  AssignPodIPv4Address scenario.pod_p scenario.assigned_p
    = (Err ErrInvalidPodMultipleIP, scenario.assigned_p).
Proof. repeat split; vm_compute; reflexivity. Qed.

(** C2, amended.  When the pod key is bound to an IP, assign with that IP
    as a non-empty requested IP returns the binding and the datastore as it
    was, and assign with an empty requested IP fails with the multiple-IP
    error, the datastore being as it was.  A successful assign with a
    non-empty requested IP, made again, returns the same IP and device
    number and changes nothing. *)
Theorem assign_again :
  (∀ ds k8sPod ipAddr,
     podsIP ds !! NewPodKey k8sPod = Some ipAddr ->
     (k8sapi.IP k8sPod = IP ipAddr -> k8sapi.IP k8sPod ≠ "" ->
      AssignPodIPv4Address k8sPod ds = (Ok (IP ipAddr, PodDeviceNumber ipAddr), ds)) ∧
     (k8sapi.IP k8sPod = "" ->
      AssignPodIPv4Address k8sPod ds = (Err ErrInvalidPodMultipleIP, ds))) ∧
  (∀ ds k8sPod r ds1,
     k8sapi.IP k8sPod ≠ "" ->
     AssignPodIPv4Address k8sPod ds = (Ok r, ds1) ->
     AssignPodIPv4Address k8sPod ds1 = (Ok r, ds1)).
Proof.
  split.
  - intros ds k8sPod ipAddr Hbound. unfold AssignPodIPv4Address. rewrite Hbound. split.
    + intros Heq Hne. rewrite Heq, String.eqb_refl. rewrite <- Heq.
      destruct (String.eqb_spec (k8sapi.IP k8sPod) ""); [ congruence | reflexivity ].
    + intros ->. rewrite String.eqb_refl, andb_false_r. reflexivity.
  - intros ds k8sPod r ds1 Hne. unfold AssignPodIPv4Address at 1.
    destruct (podsIP ds !! NewPodKey k8sPod) as [ipAddr | ] eqn:Hbound.
    + destruct (String.eqb_spec (IP ipAddr) (k8sapi.IP k8sPod)) as [Heq | ]; [ | discriminate ].
      destruct (String.eqb_spec (k8sapi.IP k8sPod) ""); [ congruence | ].
      simpl. intros [= <- <-]. unfold AssignPodIPv4Address. rewrite Hbound, Heq.
      rewrite String.eqb_refl.
      destruct (String.eqb_spec (k8sapi.IP k8sPod) ""); [ congruence | reflexivity ].
    + unfold assignPodIPv4AddressUnsafe.
      destruct (assignOnENIs (k8sapi.IP k8sPod) (eniIPPools ds)) as [a | ] eqn:Ha;
        [ | discriminate ].
      intros [= <- <-]. unfold AssignPodIPv4Address. simpl podsIP.
      rewrite lookup_insert_eq. simpl.
      apply assignOnENIs_Some in Ha.
      destruct Ha as (pre & k & e & post & c & _ & Hc & _ & Hip & _).
      apply claimAddress_Some in Hc.
      destruct Hc as (pre' & k' & a' & post' & _ & _ & Hcl & _ & [Hfound | [_ Hempty]] & _);
        [ | congruence ].
      rewrite Hip, Hcl, <- Hfound, String.eqb_refl.
      destruct (String.eqb_spec (k8sapi.IP k8sPod) ""); [ congruence | reflexivity ].
Qed.

Lemma assign_again_witness :
  AssignPodIPv4Address scenario.pod_p_same scenario.assigned_p
    = (Ok ("10.0.0.5", 1), scenario.assigned_p) ∧
  AssignPodIPv4Address scenario.pod_q scenario.assigned_p_q
    = (Ok ("10.0.0.5", 1), scenario.assigned_p_q).
Proof.
  destruct assign_again as [Hbound Htwice]. split.
  - apply (Hbound scenario.assigned_p scenario.pod_p_same
             {| IP := "10.0.0.5"; PodDeviceNumber := 1 |}).
    + vm_compute. reflexivity.
    + vm_compute. reflexivity.
    + vm_compute. discriminate.
  - apply (Htwice scenario.assigned_p scenario.pod_q).
    + vm_compute. discriminate.
    + vm_compute. reflexivity.
Defined.

(** ** Assign of an address that is already assigned *)



(** ** FreeENI *)

Lemma wf_entry ds k e :
  wf ds -> (k, e) ∈ eniIPPools ds -> eni_wf (k, e) ∧ get k (eniIPPools ds) = Some e.
Proof.
  intros (Hnd & Hall & _) Hin. split.
  - rewrite Forall_forall in Hall. now apply Hall.
  - now apply get_NoDup.
Qed.

(** A successful [FreeENI], on a state the package can build. *)
Lemma FreeENI_Ok now ds eni ds' :
  wf ds -> FreeENI now ds = Returns (Ok eni, ds') ->
  ∃ pre e post,
    eniIPPools ds = pre ++ (eni, e) :: post ∧ id e = eni ∧ deletable now e ∧
    get eni (eniIPPools ds) = Some e ∧
    ds' = {| total := sub (total ds) (len (IPv4Addresses e));
             assigned := sub (assigned ds) (AssignedIPv4Addresses e);
             eniIPPools := pre ++ post;
             podsIP := podsIP ds |}.
Proof.
  intros Hwf. unfold FreeENI.
  destruct (getDeletableENI now (eniIPPools ds)) as [e | ] eqn:Hsel; [ | discriminate ].
  apply getDeletableENI_Some in Hsel. destruct Hsel as (pre & k & post & Hpools & Hdel).
  assert (Hin : (k, e) ∈ eniIPPools ds).
  { rewrite Hpools. apply elem_of_app. right. apply elem_of_cons. now left. }
  destruct (wf_entry _ _ _ Hwf Hin) as [(Hid & _) Hget]. simpl in Hid.
  rewrite Hid, Hget. intros [= <- <-].
  exists pre, e, post.
  split; [ exact Hpools | ]. split; [ exact Hid | ]. split; [ exact Hdel | ].
  split; [ exact Hget | ].
  f_equal. rewrite Hpools. apply remove_mid. rewrite <- Hpools. apply Hwf.
Qed.

(** C3. [FreeENI] never returns the id of an ENI that is primary, or has an
    address assigned, or was created less than [minLifeTime] (60 s) ago, or
    saw an address unassigned less than [addressCoolingPeriod] (60 s) ago;
    and on a datastore whose ENIs are all primary, whatever their addresses
    and their timestamps, it fails with the no-deletable-ENI error and
    leaves the datastore as it was. *)
Theorem FreeENI_keeps_guarded_ENIs now ds :
  minLifeTime = 60 * time.Second ∧ addressCoolingPeriod = 60 * time.Second ∧
  (∀ eni ds',
     wf ds -> FreeENI now ds = Returns (Ok eni, ds') ->
     ∀ k e, (k, e) ∈ eniIPPools ds -> id e = eni ->
       ¬ (IsPrimary e = true ∨ 0 < AssignedIPv4Addresses e ∨
          now - createTime e < minLifeTime ∨
          now - lastUnAssignedTime e < addressCoolingPeriod)) ∧
  (Forall (fun ke => IsPrimary ke.2 = true) (eniIPPools ds) ->
   FreeENI now ds = Returns (Err ErrNoDeletableENI, ds)).
Proof.
  split; [ reflexivity | ]. split; [ reflexivity | ]. split.
  - intros eni ds' Hwf Hcall k e Hin Hid.
    destruct (FreeENI_Ok _ _ _ _ Hwf Hcall) as (pre & e0 & post & _ & _ & Hdel & Hget & _).
    destruct (wf_entry _ _ _ Hwf Hin) as [(Hid' & _) Hget']. simpl in Hid'.
    assert (e = e0) as -> by congruence.
    destruct Hdel as (Hp & Hlife & Hcool & Hzero).
    intros [? | [? | [? | ?]]]; [ congruence | lia | lia | lia ].
  - intros Hall. unfold FreeENI.
    assert (Hnone : getDeletableENI now (eniIPPools ds) = None).
    { apply getDeletableENI_None. eapply Forall_impl; [ exact Hall | ].
      intros [k e] Hp (Hp' & _). simpl in *. congruence. }
    now rewrite Hnone.
Qed.

Lemma FreeENI_keeps_guarded_ENIs_witness :
  wf scenario.secondary ∧
  FreeENI (65 * time.Second) scenario.secondary = Returns (Ok "eni-b", NewDataStore) ∧
  (∀ k e, (k, e) ∈ eniIPPools scenario.secondary -> id e = "eni-b" ->
     ¬ (IsPrimary e = true ∨ 0 < AssignedIPv4Addresses e ∨
        65 * time.Second - createTime e < minLifeTime ∨
        65 * time.Second - lastUnAssignedTime e < addressCoolingPeriod)) ∧
  FreeENI (65 * time.Second) scenario.with_eni
    = Returns (Err ErrNoDeletableENI, scenario.with_eni).
Proof.
  destruct (FreeENI_keeps_guarded_ENIs (65 * time.Second) scenario.secondary)
    as (_ & _ & Hguard & _).
  destruct (FreeENI_keeps_guarded_ENIs (65 * time.Second) scenario.with_eni)
    as (_ & _ & _ & Hprimary).
  assert (Hwf : wf scenario.secondary) by (apply (bool_decide_unpack _); vm_compute; exact I).
  assert (Hcall : FreeENI (65 * time.Second) scenario.secondary
                  = Returns (Ok "eni-b", NewDataStore)) by (vm_compute; reflexivity).
  split; [ exact Hwf | ]. split; [ exact Hcall | ]. split.
  - exact (Hguard "eni-b" NewDataStore Hwf Hcall).
  - apply Hprimary. vm_compute. repeat constructor.
Defined.



(** ** Release *)



(** ** The pool manager *)

Section Traces.
Import ipamd.

Lemma cloud_only_ret {A} (a : A) : cloud_only (ret a).
Proof. intros c. constructor. Qed.

Lemma cloud_only_self : cloud_only self.
Proof. intros c. constructor. Qed.

Lemma cloud_only_modify f : cloud_only (modify f).
Proof. intros c. constructor. Qed.

Lemma cloud_only_panic {A} : cloud_only (@panic A).
Proof. intros c. constructor. Qed.

Lemma cloud_only_emit e : is_cloud_call e = true -> cloud_only (emit e).
Proof. intros He c. simpl. repeat constructor. exact He. Qed.

Lemma cloud_only_bind {A B} (m : M A) (f : A -> M B) :
  cloud_only m -> (∀ a, cloud_only (f a)) -> cloud_only (bind m f).
Proof.
  intros Hm Hf c. unfold bind. specialize (Hm c).
  destruct (m c) as [t [[a c1] | ]]; simpl in *; [ | exact Hm ].
  specialize (Hf a c1). destruct (f a c1) as [t' r]. simpl in *.
  apply Forall_app. auto.
Qed.

Create HintDb cloud.
Hint Resolve cloud_only_ret cloud_only_self cloud_only_modify cloud_only_panic : cloud.

Ltac cloud_step :=
  first
    [ apply cloud_only_bind; [ | intros ? ]
    | apply cloud_only_emit; reflexivity
    | solve [ auto with cloud ]
    | match goal with
      | |- cloud_only (match ?x with _ => _ end) => destruct x
      end ].

Lemma cloud_only_waitENIAttached_loop aws eni retry fuel :
  cloud_only (waitENIAttached_loop aws eni retry fuel).
Proof.
  revert retry. induction fuel as [ | fuel IH]; intros retry; simpl; repeat cloud_step.
Qed.
Hint Resolve cloud_only_waitENIAttached_loop : cloud.

Lemma cloud_only_getENIaddresses aws eni : cloud_only (getENIaddresses aws eni).
Proof. unfold getENIaddresses. repeat cloud_step. Qed.
Hint Resolve cloud_only_getENIaddresses : cloud.

Lemma cloud_only_addENIaddressesToDataStore ec2Addrs eni :
  cloud_only (addENIaddressesToDataStore ec2Addrs eni).
Proof.
  induction ec2Addrs as [ | ec2Addr rest IH]; simpl; repeat cloud_step.
Qed.
Hint Resolve cloud_only_addENIaddressesToDataStore : cloud.

Lemma cloud_only_setupENI now aws eni eniMetadata :
  cloud_only (setupENI now aws eni eniMetadata).
Proof. unfold setupENI. repeat cloud_step. Qed.
Hint Resolve cloud_only_setupENI : cloud.

(** A procedure that announces itself and then only calls out. *)
Lemma entered_once (e : event) (m : M unit) c :
  cloud_only m ->
  ∃ t, (bind (emit e) (fun _ => m) c).1 = e :: t ∧
       Forall (fun e' => is_cloud_call e' = true) t.
Proof.
  intros Hm. specialize (Hm c). unfold bind, emit.
  destruct (m c) as [t r]. simpl in *. eauto.
Qed.

(** [increaseIPPool] enters once, and only itself. *)
Lemma increaseIPPool_trace now aws c :
  ∃ t, (increaseIPPool now aws c).1 = Enter_increaseIPPool :: t ∧
       Forall (fun e => is_cloud_call e = true) t.
Proof.
  apply entered_once. unfold waitENIAttached. repeat cloud_step.
Qed.

(** [decreaseIPPool] enters once, and only itself. *)
Lemma decreaseIPPool_trace now c :
  ∃ t, (decreaseIPPool now c).1 = Enter_decreaseIPPool :: t ∧
       Forall (fun e => is_cloud_call e = true) t.
Proof.
  apply entered_once. repeat cloud_step.
Qed.
End Traces.

Lemma updateIPPoolIfRequired_cases now aws c :
  ipamd.updateIPPoolIfRequired now aws c =
    if sub (total (ipamd.dataStore c)) (assigned (ipamd.dataStore c))
       <=? ipamd.currentMaxAddrsPerENI c
    then ipamd.increaseIPPool now aws c
    else if mul 2 (ipamd.currentMaxAddrsPerENI c)
            <? sub (total (ipamd.dataStore c)) (assigned (ipamd.dataStore c))
    then ipamd.decreaseIPPool now c
    else ([], Returns (tt, c)).
Proof.
  unfold ipamd.updateIPPoolIfRequired, ipamd.bind, ipamd.self. simpl.
  destruct (_ <=? _).
  - now destruct (ipamd.increaseIPPool now aws c).
  - destruct (_ <? _); [ now destruct (ipamd.decreaseIPPool now c) | reflexivity ].
Qed.

Lemma not_entered (e : ipamd.event) (t : list ipamd.event) :
  ipamd.is_cloud_call e = false ->
  Forall (fun e' => ipamd.is_cloud_call e' = true) t -> e ∉ t.
Proof.
  intros He Ht Hin. rewrite Forall_forall in Ht. specialize (Ht _ Hin). congruence.
Qed.

(** C4, as the spec has it, fails on its second example: with a capacity
    of 14 per ENI and 28 addresses none of which is used, total - used is
    28, which does not exceed 2 * 14, and the tick enters neither
    procedure. *)
Lemma tick_28_free_is_idle :
  ipamd.currentMaxAddrsPerENI scenario.manager_28_free = 14 ∧
  GetStats (ipamd.dataStore scenario.manager_28_free) = (28, 0) ∧
  ipamd.updateIPPoolIfRequired 100 scenario.cloud_at_limit scenario.manager_28_free
    = ([], Returns (tt, scenario.manager_28_free)) ∧
  ipamd.Enter_decreaseIPPool
    ∉ (ipamd.updateIPPoolIfRequired 100 scenario.cloud_at_limit scenario.manager_28_free).1.
Proof.
  assert (Hrun : ipamd.updateIPPoolIfRequired 100 scenario.cloud_at_limit
                   scenario.manager_28_free
                 = ([], Returns (tt, scenario.manager_28_free)))
    by (vm_compute; reflexivity).
  repeat split; try (vm_compute; reflexivity).
  rewrite Hrun. simpl. apply not_elem_of_nil.
Qed.

(** C4, amended.  On a tick, with (total, used) read from [GetStats]: the
    grow procedure is entered exactly when total - used is at most
    [currentMaxAddrsPerENI], the shrink procedure exactly when total - used
    exceeds twice [currentMaxAddrsPerENI], and otherwise nothing happens;
    the capacity being the length of a slice, hence not negative, and
    total - used and the doubled capacity being values of an [int].  With a
    capacity of 14: 14 addresses all used, grow; 28 addresses and 10 used,
    neither; 28 addresses none used, neither; 29 addresses none used,
    shrink. *)
Theorem tick_thresholds :
  (∀ now aws c,
     ok (free_addresses c) ->
     0 <= ipamd.currentMaxAddrsPerENI c -> ok (2 * ipamd.currentMaxAddrsPerENI c) ->
     (ipamd.Enter_increaseIPPool ∈ (ipamd.updateIPPoolIfRequired now aws c).1
      <-> free_addresses c <= ipamd.currentMaxAddrsPerENI c) ∧
     (ipamd.Enter_decreaseIPPool ∈ (ipamd.updateIPPoolIfRequired now aws c).1
      <-> free_addresses c > 2 * ipamd.currentMaxAddrsPerENI c) ∧
     (¬ free_addresses c <= ipamd.currentMaxAddrsPerENI c ->
      ¬ free_addresses c > 2 * ipamd.currentMaxAddrsPerENI c ->
      ipamd.updateIPPoolIfRequired now aws c = ([], Returns (tt, c)))) ∧
  (∀ now aws c,
     ipamd.currentMaxAddrsPerENI c = 14 -> GetStats (ipamd.dataStore c) = (14, 14) ->
     ipamd.Enter_increaseIPPool ∈ (ipamd.updateIPPoolIfRequired now aws c).1 ∧
     ipamd.Enter_decreaseIPPool ∉ (ipamd.updateIPPoolIfRequired now aws c).1) ∧
  (∀ now aws c,
     ipamd.currentMaxAddrsPerENI c = 14 -> GetStats (ipamd.dataStore c) = (28, 10) ->
     ipamd.updateIPPoolIfRequired now aws c = ([], Returns (tt, c))) ∧
  (∀ now aws c,
     ipamd.currentMaxAddrsPerENI c = 14 -> GetStats (ipamd.dataStore c) = (28, 0) ->
     ipamd.updateIPPoolIfRequired now aws c = ([], Returns (tt, c))) ∧
  (∀ now aws c,
     ipamd.currentMaxAddrsPerENI c = 14 -> GetStats (ipamd.dataStore c) = (29, 0) ->
     ipamd.Enter_decreaseIPPool ∈ (ipamd.updateIPPoolIfRequired now aws c).1 ∧
     ipamd.Enter_increaseIPPool ∉ (ipamd.updateIPPoolIfRequired now aws c).1).
Proof.
  assert (Hgen : ∀ now aws c,
     ok (free_addresses c) ->
     0 <= ipamd.currentMaxAddrsPerENI c -> ok (2 * ipamd.currentMaxAddrsPerENI c) ->
     (ipamd.Enter_increaseIPPool ∈ (ipamd.updateIPPoolIfRequired now aws c).1
      <-> free_addresses c <= ipamd.currentMaxAddrsPerENI c) ∧
     (ipamd.Enter_decreaseIPPool ∈ (ipamd.updateIPPoolIfRequired now aws c).1
      <-> free_addresses c > 2 * ipamd.currentMaxAddrsPerENI c) ∧
     (¬ free_addresses c <= ipamd.currentMaxAddrsPerENI c ->
      ¬ free_addresses c > 2 * ipamd.currentMaxAddrsPerENI c ->
      ipamd.updateIPPoolIfRequired now aws c = ([], Returns (tt, c)))).
  { intros now aws c Hfree Hpos Hcap. rewrite updateIPPoolIfRequired_cases.
    unfold free_addresses, GetStats in *. simpl in *.
    rewrite (sub_exact _ _ Hfree), (mul_exact _ _ Hcap).
    destruct (Z.leb_spec (total (ipamd.dataStore c) - assigned (ipamd.dataStore c))
                (ipamd.currentMaxAddrsPerENI c)) as [Hle | Hgt].
    - destruct (increaseIPPool_trace now aws c) as (t & -> & Ht).
      split; [ | split ].
      + split; [ auto | ]. intros _. apply elem_of_cons. now left.
      + split; [ | lia ]. rewrite elem_of_cons. intros [? | Hin]; [ discriminate | ].
        exfalso. revert Hin. now apply not_entered.
      + intros ?. lia.
    - destruct (Z.ltb_spec (2 * ipamd.currentMaxAddrsPerENI c)
                  (total (ipamd.dataStore c) - assigned (ipamd.dataStore c))) as [Hlt | Hge].
      + destruct (decreaseIPPool_trace now c) as (t & -> & Ht).
        split; [ | split ].
        * split; [ | lia ]. rewrite elem_of_cons. intros [? | Hin]; [ discriminate | ].
          exfalso. revert Hin. now apply not_entered.
        * split; [ lia | ]. intros _. apply elem_of_cons. now left.
        * intros _ ?. lia.
      + simpl. split; [ | split ].
        * split; [ intros Hin; now apply elem_of_nil in Hin | lia ].
        * split; [ intros Hin; now apply elem_of_nil in Hin | lia ].
        * reflexivity. }
  split; [ exact Hgen | ].
  split; [ | split; [ | split ] ]; intros now aws c Hcap Hstats;
    (destruct (Hgen now aws c) as (Hgrow & Hshrink & Hidle);
     [ unfold free_addresses; rewrite Hstats; vm_compute; split; discriminate
     | rewrite Hcap; lia
     | rewrite Hcap; vm_compute; split; discriminate
     | unfold free_addresses in *; rewrite Hstats, Hcap in *; simpl in * ]).
  - split; [ apply Hgrow; lia | ]. rewrite Hshrink. lia.
  - apply Hidle; lia.
  - apply Hidle; lia.
  - split; [ apply Hshrink; lia | ]. rewrite Hgrow. lia.
Qed.

Lemma tick_thresholds_witness :
  ok (free_addresses scenario.manager_1_free) ∧
  0 <= ipamd.currentMaxAddrsPerENI scenario.manager_1_free ∧
  ok (2 * ipamd.currentMaxAddrsPerENI scenario.manager_1_free) ∧
  free_addresses scenario.manager_1_free
    <= ipamd.currentMaxAddrsPerENI scenario.manager_1_free ∧
  ipamd.Enter_increaseIPPool
    ∈ (ipamd.updateIPPoolIfRequired 100 scenario.cloud_at_limit scenario.manager_1_free).1.
Proof.
  assert (Hfree : ok (free_addresses scenario.manager_1_free))
    by (vm_compute; split; discriminate).
  assert (Hpos : 0 <= ipamd.currentMaxAddrsPerENI scenario.manager_1_free)
    by (vm_compute; discriminate).
  assert (Hcap : ok (2 * ipamd.currentMaxAddrsPerENI scenario.manager_1_free))
    by (vm_compute; split; discriminate).
  assert (Hle : free_addresses scenario.manager_1_free
                <= ipamd.currentMaxAddrsPerENI scenario.manager_1_free)
    by (vm_compute; discriminate).
  destruct tick_thresholds as (Hgen & _).
  destruct (Hgen 100 scenario.cloud_at_limit scenario.manager_1_free Hfree Hpos Hcap)
    as (Hgrow & _).
  repeat split; try assumption; try apply Hfree; try apply Hcap.
  apply Hgrow. exact Hle.
Defined.

Lemma at_max_ENI_test c :
  ((0 <? ipamd.maxENI c) && (ipamd.maxENI c =? GetENIs (ipamd.dataStore c)) = true)
  <-> at_max_ENI c.
Proof.
  unfold at_max_ENI. rewrite andb_true_iff, Z.ltb_lt, Z.eqb_eq. reflexivity.
Qed.

Lemma increaseIPPool_at_max now aws c :
  at_max_ENI c ->
  ipamd.increaseIPPool now aws c = ([ipamd.Enter_increaseIPPool], Returns (tt, c)).
Proof.
  intros Hmax. apply at_max_ENI_test in Hmax.
  unfold ipamd.increaseIPPool, ipamd.bind, ipamd.emit, ipamd.self. simpl.
  now rewrite Hmax.
Qed.

(** C8. When a grow attempt reaches the cloud and the allocation of an ENI
    fails with an error containing "AttachmentLimitExceeded", the manager
    sets [maxENI] to the number of ENIs in the datastore and does nothing
    more in that tick; whenever [maxENI] is positive and equal to the number
    of ENIs in the datastore, the grow procedure returns before any call on
    the cloud; and so do the grow attempts of any number of consecutive
    ticks that find the pool at or below capacity. *)
Theorem attachment_limit_pins_maxENI :
  (∀ now aws c err,
     ¬ at_max_ENI c ->
     awsutils.AllocENI aws = inr err ->
     ipamd.Contains err "AttachmentLimitExceeded" = true ->
     ipamd.increaseIPPool now aws c =
       ([ipamd.Enter_increaseIPPool; ipamd.Call_AllocENI],
        Returns (tt, ipamd.set_maxENI (GetENIs (ipamd.dataStore c)) c)) ∧
     (0 < GetENIs (ipamd.dataStore c) ->
      at_max_ENI (ipamd.set_maxENI (GetENIs (ipamd.dataStore c)) c))) ∧
  (∀ now aws c,
     at_max_ENI c ->
     ipamd.increaseIPPool now aws c = ([ipamd.Enter_increaseIPPool], Returns (tt, c)) ∧
     Forall (fun e => ipamd.is_cloud_call e = false) (ipamd.increaseIPPool now aws c).1) ∧
  (∀ l c,
     at_max_ENI c ->
     ok (free_addresses c) ->
     free_addresses c <= ipamd.currentMaxAddrsPerENI c ->
     ticks l c = (repeat ipamd.Enter_increaseIPPool (length l), Returns (tt, c))).
Proof.
  split; [ | split ].
  - intros now aws c err Hnot Halloc Hlimit. split.
    + assert (Htest : (0 <? ipamd.maxENI c)
                      && (ipamd.maxENI c =? GetENIs (ipamd.dataStore c)) = false).
      { apply not_true_is_false. intros H. apply Hnot. now apply at_max_ENI_test. }
      unfold ipamd.increaseIPPool, ipamd.bind, ipamd.emit, ipamd.self. simpl.
      rewrite Htest, Halloc. unfold ipamd.isAttachmentLimitExceededError.
      rewrite Hlimit. reflexivity.
    + intros Hpos. split; [ exact Hpos | reflexivity ].
  - intros now aws c Hmax. rewrite (increaseIPPool_at_max _ _ _ Hmax).
    split; [ reflexivity | ]. repeat constructor.
  - intros l c Hmax Hok Hfree. induction l as [ | [now aws] l IH]; [ reflexivity | ].
    simpl. unfold ipamd.bind. rewrite updateIPPoolIfRequired_cases.
    unfold free_addresses, GetStats in *. simpl in *.
    rewrite (sub_exact _ _ Hok).
    destruct (Z.leb_spec (total (ipamd.dataStore c) - assigned (ipamd.dataStore c))
                (ipamd.currentMaxAddrsPerENI c)); [ | lia ].
    rewrite (increaseIPPool_at_max _ _ _ Hmax), IH. reflexivity.
Qed.

Lemma attachment_limit_pins_maxENI_witness :
  ¬ at_max_ENI scenario.manager_1_free ∧
  ipamd.increaseIPPool 100 scenario.cloud_at_limit scenario.manager_1_free =
    ([ipamd.Enter_increaseIPPool; ipamd.Call_AllocENI],
     Returns (tt, scenario.manager_at_limit)) ∧
  at_max_ENI scenario.manager_at_limit ∧
  ipamd.increaseIPPool 105 scenario.cloud_at_limit scenario.manager_at_limit
    = ([ipamd.Enter_increaseIPPool], Returns (tt, scenario.manager_at_limit)) ∧
  ticks [(105, scenario.cloud_at_limit); (110, scenario.cloud_at_limit)]
    scenario.manager_at_limit
    = ([ipamd.Enter_increaseIPPool; ipamd.Enter_increaseIPPool],
       Returns (tt, scenario.manager_at_limit)).
Proof.
  destruct attachment_limit_pins_maxENI as (Hpin & Hskip & Hticks).
  assert (Hnot : ¬ at_max_ENI scenario.manager_1_free).
  { intros [Hpos _]. vm_compute in Hpos. discriminate. }
  assert (Hmax : at_max_ENI scenario.manager_at_limit).
  { split; vm_compute; reflexivity. }
  split; [ exact Hnot | ]. split.
  - apply (Hpin 100 scenario.cloud_at_limit scenario.manager_1_free
             "AttachmentLimitExceeded: Interface count 2 exceeds the limit for t2.micro").
    + exact Hnot.
    + reflexivity.
    + vm_compute. reflexivity.
  - split; [ exact Hmax | ]. split.
    + apply Hskip. exact Hmax.
    + apply (Hticks [(105, scenario.cloud_at_limit); (110, scenario.cloud_at_limit)]).
      * exact Hmax.
      * vm_compute. split; discriminate.
      * vm_compute. discriminate.
Defined.

(** ** The calls of the datastore, case by case *)

Lemma AddENI_cases now eniID deviceNumber isPrimary ds :
  AddENI now eniID deviceNumber isPrimary ds = (Some DuplicatedENIError, ds) ∨
  (get eniID (eniIPPools ds) = None ∧
   AddENI now eniID deviceNumber isPrimary ds =
     (None,
      set_eniIPPools
        (eniIPPools ds ++ [(eniID, new_eni now eniID deviceNumber isPrimary)]) ds)).
Proof.
  unfold AddENI. destruct (get eniID (eniIPPools ds)) eqn:Hget; [ now left | right ].
  split; [ reflexivity | ]. now rewrite put_fresh.
Qed.

Lemma AddENIIPv4Address_cases eniID ipv4 ds :
  (∃ err, AddENIIPv4Address eniID ipv4 ds = (Some err, ds)) ∨
  (∃ pre cur post,
     eniIPPools ds = pre ++ (eniID, cur) :: post ∧
     get eniID pre = None ∧
     get ipv4 (IPv4Addresses cur) = None ∧
     AddENIIPv4Address eniID ipv4 ds =
       (None,
        {| total := add (total ds) 1;
           assigned := assigned ds;
           eniIPPools :=
             pre ++
             (eniID,
              set_IPv4Addresses (IPv4Addresses cur ++ [(ipv4, new_address ipv4)]) cur)
             :: post;
           podsIP := podsIP ds |})).
Proof.
  unfold AddENIIPv4Address.
  destruct (get eniID (eniIPPools ds)) as [cur | ] eqn:Hget; [ | left; eauto ].
  destruct (get ipv4 (IPv4Addresses cur)) eqn:Hip; [ left; eauto | right ].
  destruct (get_split _ _ _ Hget) as (pre & post & Hpools & Hpre).
  exists pre, cur, post. repeat split; auto.
  rewrite Hpools, put_split, put_fresh by assumption. reflexivity.
Qed.

(** A successful pass of [assignPodIPv4AddressUnsafe]: the ENI and the
    address it stopped at, and the datastore it leaves. *)
Lemma assign_success k8sPod ds r ds' :
  assignPodIPv4AddressUnsafe k8sPod ds = (Ok r, ds') ->
  ∃ pre k e post pre' k' a post',
    eniIPPools ds = pre ++ (k, e) :: post ∧
    IPv4Addresses e = pre' ++ (k', a) :: post' ∧
    (k8sapi.IP k8sPod = address a ∨ (Assigned a = false ∧ k8sapi.IP k8sPod = "")) ∧
    r = (address a, DeviceNumber e) ∧
    ds' = {| total := total ds;
             assigned := if Assigned a then assigned ds else add (assigned ds) 1;
             eniIPPools :=
               pre ++
               (k, set_IPv4Addresses (pre' ++ (k', set_Assigned true a) :: post')
                     (if Assigned a then e
                      else set_AssignedIPv4Addresses (add (AssignedIPv4Addresses e) 1) e))
               :: post;
             podsIP :=
               <[NewPodKey k8sPod :=
                   {| IP := address a; PodDeviceNumber := DeviceNumber e |}]> (podsIP ds) |}.
Proof.
  unfold assignPodIPv4AddressUnsafe.
  destruct (assignOnENIs (k8sapi.IP k8sPod) (eniIPPools ds)) as [x | ] eqn:Hx;
    [ | discriminate ].
  intros [= <- <-]. apply assignOnENIs_Some in Hx.
  destruct Hx as (pre & k & e & post & c & Hpools & Hc & Hfresh & Hip & Hdev & Hafter).
  apply claimAddress_Some in Hc.
  destruct Hc as (pre' & k' & a & post' & Haddrs & Hafter' & Hcl & Hfr & Hwhy & _).
  exists pre, k, e, post, pre', k', a, post'.
  split; [ exact Hpools | ]. split; [ exact Haddrs | ]. split; [ exact Hwhy | ].
  split; [ now rewrite Hip, Hcl, Hdev | ].
  rewrite Hfresh, Hfr, Hafter, Hip, Hcl, Hdev. unfold claimed_on. rewrite Hfr, Hafter'.
  now destruct (Assigned a).
Qed.

Lemma AssignPodIPv4Address_cases k8sPod ds :
  (∃ res, AssignPodIPv4Address k8sPod ds = (res, ds) ∧
          (is_Some (podsIP ds !! NewPodKey k8sPod) ∨ ∃ err, res = Err err)) ∨
  (∃ r ds', podsIP ds !! NewPodKey k8sPod = None ∧
            AssignPodIPv4Address k8sPod ds = (Ok r, ds') ∧
            assignPodIPv4AddressUnsafe k8sPod ds = (Ok r, ds')).
Proof.
  unfold AssignPodIPv4Address.
  destruct (podsIP ds !! NewPodKey k8sPod) as [ipAddr | ] eqn:Hbound.
  - left. destruct (_ && _); eauto.
  - destruct (assignPodIPv4AddressUnsafe k8sPod ds) as [[r | err] ds'] eqn:Hcall.
    + right. eauto.
    + left. unfold assignPodIPv4AddressUnsafe in Hcall.
      destruct (assignOnENIs _ _); [ discriminate | ]. injection Hcall as <- <-. eauto.
Qed.

Lemma UnAssignPodIPv4Address_cases now k8sPod ds :
  (∃ err, UnAssignPodIPv4Address now k8sPod ds = (Err err, ds)) ∨
  (∃ ipAddr pre k e post pre' a post',
     podsIP ds !! NewPodKey k8sPod = Some ipAddr ∧
     eniIPPools ds = pre ++ (k, e) :: post ∧
     IPv4Addresses e = pre' ++ (IP ipAddr, a) :: post' ∧
     get (IP ipAddr) pre' = None ∧
     Assigned a = true ∧
     UnAssignPodIPv4Address now k8sPod ds =
       (Ok (address a, DeviceNumber e),
        {| total := total ds;
           assigned := sub (assigned ds) 1;
           eniIPPools :=
             pre ++
             (k, set_lastUnAssignedTime now
                   (set_AssignedIPv4Addresses (sub (AssignedIPv4Addresses e) 1)
                      (set_IPv4Addresses
                         (pre' ++
                          (IP ipAddr, set_unAssignedTime now (set_Assigned false a)) :: post')
                         e)))
             :: post;
           podsIP := delete (NewPodKey k8sPod) (podsIP ds) |})).
Proof.
  unfold UnAssignPodIPv4Address.
  destruct (podsIP ds !! NewPodKey k8sPod) as [ipAddr | ] eqn:Hbound; [ | left; eauto ].
  destruct (unassignOnENIs now (IP ipAddr) (eniIPPools ds)) as [r | ] eqn:Hr; [ | left; eauto ].
  right. apply unassignOnENIs_Some in Hr.
  destruct Hr as (pre & k & e & post & a & Hpools & Hget & Ha & Hrel & Hdev & Hafter & _).
  destruct (get_split _ _ _ Hget) as (pre' & post' & Haddrs & Hpre').
  exists ipAddr, pre, k, e, post, pre', a, post'. repeat split; auto.
  rewrite Hrel, Hdev, Hafter. unfold released_on.
  rewrite Haddrs at 1. rewrite put_split by assumption. reflexivity.
Qed.

Lemma FreeENI_cases now ds :
  wf ds ->
  FreeENI now ds = Returns (Err ErrNoDeletableENI, ds) ∨
  ∃ eni ds', FreeENI now ds = Returns (Ok eni, ds').
Proof.
  intros Hwf. unfold FreeENI.
  destruct (getDeletableENI now (eniIPPools ds)) as [e | ] eqn:Hsel; [ right | now left ].
  apply getDeletableENI_Some in Hsel. destruct Hsel as (pre & k & post & Hpools & _).
  assert (Hin : (k, e) ∈ eniIPPools ds).
  { rewrite Hpools. apply elem_of_app. right. apply elem_of_cons. now left. }
  destruct (wf_entry _ _ _ Hwf Hin) as [(Hid & _) Hget]. simpl in Hid.
  rewrite Hid, Hget. eauto.
Qed.

(** ** Sums over the ENIs *)

Lemma sum_addresses_cons k e pools :
  sum_addresses ((k, e) :: pools) = len (IPv4Addresses e) + sum_addresses pools.
Proof. reflexivity. Qed.

Lemma sum_addresses_app l1 l2 :
  sum_addresses (l1 ++ l2) = sum_addresses l1 + sum_addresses l2.
Proof.
  induction l1 as [ | [k e] l1 IH]; [ reflexivity | ].
  rewrite <- app_comm_cons, !sum_addresses_cons, IH. lia.
Qed.

Lemma sum_assigned_cons k e pools :
  sum_assigned ((k, e) :: pools) = AssignedIPv4Addresses e + sum_assigned pools.
Proof. reflexivity. Qed.

Lemma sum_assigned_app l1 l2 :
  sum_assigned (l1 ++ l2) = sum_assigned l1 + sum_assigned l2.
Proof.
  induction l1 as [ | [k e] l1 IH]; [ reflexivity | ].
  rewrite <- app_comm_cons, !sum_assigned_cons, IH. lia.
Qed.

Lemma count_assigned_cons k a l :
  count_assigned ((k, a) :: l) = (if Assigned a then 1 else 0) + count_assigned l.
Proof. reflexivity. Qed.

Lemma count_assigned_app l1 l2 :
  count_assigned (l1 ++ l2) = count_assigned l1 + count_assigned l2.
Proof.
  induction l1 as [ | [k a] l1 IH]; [ reflexivity | ].
  rewrite <- app_comm_cons, !count_assigned_cons, IH. lia.
Qed.

Lemma count_assigned_bounds l : 0 <= count_assigned l <= len l.
Proof.
  induction l as [ | [k a] l IH]; [ unfold len; simpl; lia | ].
  rewrite count_assigned_cons, len_cons. destruct (Assigned a); lia.
Qed.

Lemma count_assigned_zero l k a :
  count_assigned l = 0 -> (k, a) ∈ l -> Assigned a = false.
Proof.
  induction l as [ | [k0 a0] l IH].
  - intros _ H. now apply elem_of_nil in H.
  - rewrite count_assigned_cons, elem_of_cons.
    pose proof (count_assigned_bounds l). intros Hz [E | Hin].
    + inversion E; subst. destruct (Assigned a0); [ lia | reflexivity ].
    + apply IH; [ destruct (Assigned a0); lia | assumption ].
Qed.

Lemma sum_addresses_nonneg pools : 0 <= sum_addresses pools.
Proof.
  induction pools as [ | [k e] pools IH]; [ simpl; lia | ].
  rewrite sum_addresses_cons. pose proof (len_nonneg (IPv4Addresses e)). lia.
Qed.

Lemma counted_bounds pools :
  Forall counted pools -> 0 <= sum_assigned pools <= sum_addresses pools.
Proof.
  induction 1 as [ | [k e] pools Hc _ IH]; [ simpl; lia | ].
  rewrite sum_assigned_cons, sum_addresses_cons. unfold counted in Hc. simpl in Hc.
  pose proof (count_assigned_bounds (IPv4Addresses e)). lia.
Qed.

Lemma len_Permutation {A} (l1 l2 : list A) : l1 ≡ₚ l2 -> len l1 = len l2.
Proof. intros H. unfold len. now rewrite (Permutation_length H). Qed.

Lemma count_assigned_Permutation l1 l2 :
  l1 ≡ₚ l2 -> count_assigned l1 = count_assigned l2.
Proof.
  induction 1 as [ | [k a] l1 l2 _ IH | [k1 a1] [k2 a2] l | l1 l2 l3 _ IH1 _ IH2 ].
  - reflexivity.
  - rewrite !count_assigned_cons. lia.
  - rewrite !count_assigned_cons. lia.
  - lia.
Qed.

Lemma sum_addresses_Permutation l1 l2 :
  l1 ≡ₚ l2 -> sum_addresses l1 = sum_addresses l2.
Proof.
  induction 1 as [ | [k a] l1 l2 _ IH | [k1 a1] [k2 a2] l | l1 l2 l3 _ IH1 _ IH2 ].
  - reflexivity.
  - rewrite !sum_addresses_cons. lia.
  - rewrite !sum_addresses_cons. lia.
  - lia.
Qed.

Lemma sum_assigned_Permutation l1 l2 :
  l1 ≡ₚ l2 -> sum_assigned l1 = sum_assigned l2.
Proof.
  induction 1 as [ | [k a] l1 l2 _ IH | [k1 a1] [k2 a2] l | l1 l2 l3 _ IH1 _ IH2 ].
  - reflexivity.
  - rewrite !sum_assigned_cons. lia.
  - rewrite !sum_assigned_cons. lia.
  - lia.
Qed.

Lemma keys_Permutation {V} (l1 l2 : list (string * V)) : l1 ≡ₚ l2 -> keys l1 ≡ₚ keys l2.
Proof. intros H. unfold keys. now rewrite H. Qed.

Lemma addrs_wf_Permutation l1 l2 : l1 ≡ₚ l2 -> addrs_wf l1 -> addrs_wf l2.
Proof.
  intros H [Hnd Hall]. split.
  - now rewrite <- (keys_Permutation _ _ H).
  - now rewrite <- H.
Qed.

(** ** The counters stay consistent *)

(** One ENI replaced by another under the same key. *)
Lemma consistent_replace ds pre k e post e' tot asg pods :
  consistent ds ->
  eniIPPools ds = pre ++ (k, e) :: post ->
  eni_wf (k, e') -> counted (k, e') ->
  tot = total ds - len (IPv4Addresses e) + len (IPv4Addresses e') ->
  asg = assigned ds - AssignedIPv4Addresses e + AssignedIPv4Addresses e' ->
  tot <= max_int ->
  consistent {| total := tot; assigned := asg;
                eniIPPools := pre ++ (k, e') :: post; podsIP := pods |}.
Proof.
  intros ((Hnd & Hall & _ & _) & Hmem & Htot & Hasg & Hcnt) Hpools Hwf' Hc' -> -> Hmax.
  rewrite Hpools in *. clear Hpools.
  rewrite Forall_app, Forall_cons in Hall, Hcnt.
  destruct Hall as (Hall1 & _ & Hall2). destruct Hcnt as (Hc1 & _ & Hc2).
  rewrite sum_addresses_app, sum_addresses_cons in Htot.
  rewrite sum_assigned_app, sum_assigned_cons in Hasg.
  assert (Hsum : sum_addresses (pre ++ (k, e') :: post)
                 = total ds - len (IPv4Addresses e) + len (IPv4Addresses e')).
  { rewrite sum_addresses_app, sum_addresses_cons. lia. }
  assert (Hsum' : sum_assigned (pre ++ (k, e') :: post)
                  = assigned ds - AssignedIPv4Addresses e + AssignedIPv4Addresses e').
  { rewrite sum_assigned_app, sum_assigned_cons. lia. }
  assert (Hcnt' : Forall counted (pre ++ (k, e') :: post)).
  { rewrite Forall_app, Forall_cons. auto. }
  pose proof (counted_bounds _ Hcnt') as Hb.
  pose proof (sum_addresses_nonneg (pre ++ (k, e') :: post)) as Hnn.
  unfold consistent, wf, in_memory. cbn [total assigned eniIPPools podsIP].
  rewrite (keys_replace k e e').
  repeat split; auto.
  - rewrite Forall_app, Forall_cons. auto.
  - unfold min_int. lia.
  - unfold min_int. lia.
  - unfold max_int in *. lia.
  - lia.
Qed.

(** What consistency says of one ENI and of the others. *)
Lemma consistent_entry ds pre k e post :
  consistent ds ->
  eniIPPools ds = pre ++ (k, e) :: post ->
  eni_wf (k, e) ∧
  AssignedIPv4Addresses e = count_assigned (IPv4Addresses e) ∧
  0 <= assigned ds - AssignedIPv4Addresses e <= total ds - len (IPv4Addresses e) ∧
  total ds <= max_int ∧
  assigned ds - AssignedIPv4Addresses e = sum_assigned (pre ++ post) ∧
  total ds - len (IPv4Addresses e) = sum_addresses (pre ++ post) ∧
  Forall counted (pre ++ post) ∧ Forall eni_wf (pre ++ post).
Proof.
  intros ((Hnd & Hall & _ & _) & Hmem & Htot & Hasg & Hcnt) Hpools.
  unfold in_memory in Hmem. rewrite Hpools in *.
  rewrite Forall_app, Forall_cons in Hall, Hcnt.
  destruct Hall as (Hall1 & Hwf & Hall2). destruct Hcnt as (Hc1 & Hc & Hc2).
  rewrite sum_addresses_app, sum_addresses_cons in Htot, Hmem.
  rewrite sum_assigned_app, sum_assigned_cons in Hasg.
  assert (Hcnt' : Forall counted (pre ++ post)) by (apply Forall_app; auto).
  pose proof (counted_bounds _ Hcnt') as Hb.
  rewrite sum_addresses_app, sum_assigned_app in *.
  repeat split; try apply Hwf; auto; try lia.
  apply Forall_app; auto.
Qed.

Lemma consistent_AddENI now eniID deviceNumber isPrimary ds :
  consistent ds -> consistent (AddENI now eniID deviceNumber isPrimary ds).2.
Proof.
  intros Hds.
  destruct (AddENI_cases now eniID deviceNumber isPrimary ds) as [-> | [Hnew ->]];
    [ exact Hds | ].
  destruct Hds as ((Hnd & Hall & Hokt & Hoka) & Hmem & Htot & Hasg & Hcnt).
  unfold consistent, wf, in_memory in *. cbn [snd total assigned eniIPPools podsIP set_eniIPPools].
  rewrite keys_app, sum_addresses_app, sum_assigned_app, !Forall_app.
  unfold ok in *. simpl sum_addresses. simpl sum_assigned. unfold len. simpl length.
  repeat split; auto; try tauto; try lia.
  - apply NoDup_app. split; [ assumption | ]. split; [ | apply NoDup_singleton ].
    intros x Hx Hx'. apply list_elem_of_singleton in Hx'. subst x.
    apply get_None in Hnew. contradiction.
  - apply Forall_cons. split; [ | constructor ].
    split; [ reflexivity | ]. split; [ split; constructor | ].
    vm_compute. split; discriminate.
  - repeat constructor.
Qed.

Lemma consistent_AddENIIPv4Address eniID ipv4 ds :
  consistent ds -> in_memory (AddENIIPv4Address eniID ipv4 ds).2 ->
  consistent (AddENIIPv4Address eniID ipv4 ds).2.
Proof.
  intros Hds.
  destruct (AddENIIPv4Address_cases eniID ipv4 ds)
    as [[err ->] | (pre & cur & post & Hpools & Hpre & Hip & ->)]; [ trivial | ].
  cbn [snd]. unfold in_memory. cbn [eniIPPools]. intros Hmem.
  destruct (consistent_entry _ _ _ _ _ Hds Hpools)
    as ((Hid & (Hnd & Hkeyed) & Hok) & Hc & Hb & Hmax & _ & Hrest & _).
  rewrite sum_addresses_app, sum_addresses_cons in Hmem. cbn [IPv4Addresses set_IPv4Addresses] in Hmem.
  rewrite len_app in Hmem.
  assert (Hone : len [(ipv4, new_address ipv4)] = 1) by reflexivity.
  pose proof (len_nonneg (IPv4Addresses cur)) as Hlen.
  rewrite sum_addresses_app in Hrest.
  assert (Hadd : add (total ds) 1 = total ds + 1).
  { apply add_exact. unfold ok, min_int, max_int in *. lia. }
  apply (consistent_replace ds pre eniID cur post); auto.
  - split; [ exact Hid | ]. split; [ | exact Hok ]. cbn [snd IPv4Addresses set_IPv4Addresses].
    split.
    + rewrite keys_app. apply NoDup_app. split; [ assumption | ].
      split; [ | apply NoDup_singleton ].
      intros x Hx Hx'. apply list_elem_of_singleton in Hx'. subst x.
      apply get_None in Hip. contradiction.
    + apply Forall_app. split; [ assumption | ]. repeat constructor.
  - unfold counted. cbn [snd IPv4Addresses AssignedIPv4Addresses set_IPv4Addresses].
    rewrite count_assigned_app. simpl. lia.
  - cbn [IPv4Addresses set_IPv4Addresses]. rewrite len_app. lia.
  - cbn [AssignedIPv4Addresses set_IPv4Addresses]. lia.
  - lia.
Qed.

Lemma consistent_assign k8sPod ds r ds' :
  consistent ds -> assignPodIPv4AddressUnsafe k8sPod ds = (Ok r, ds') ->
  consistent ds' ∧ total ds' = total ds ∧
  (assigned ds' = assigned ds ∨ assigned ds' = assigned ds + 1).
Proof.
  intros Hds Hcall. apply assign_success in Hcall.
  destruct Hcall as (pre & k & e & post & pre' & k' & a & post' & Hpools & Haddrs & _ & _ & ->).
  destruct (consistent_entry _ _ _ _ _ Hds Hpools)
    as ((Hid & (Hnd & Hkeyed) & Hok) & Hc & Hb & Hmax & _ & _ & _).
  cbn [snd] in *. rewrite Haddrs in Hnd, Hkeyed, Hc.
  rewrite count_assigned_app, count_assigned_cons in Hc.
  pose proof (count_assigned_bounds pre') as Hb1.
  pose proof (count_assigned_bounds post') as Hb2.
  assert (Hlen : len (IPv4Addresses e) = len pre' + (1 + len post')).
  { now rewrite Haddrs, len_app, len_cons. }
  assert (Hwf' : addrs_wf (pre' ++ (k', set_Assigned true a) :: post')).
  { split.
    - now rewrite (keys_replace k' a).
    - rewrite Forall_app, Forall_cons in *. tauto. }
  cbn [total assigned]. destruct (Assigned a) eqn:Ha.
  - split; [ | split; [ reflexivity | now left ] ].
    apply (consistent_replace ds pre k e post); auto.
    + split; [ exact Hid | ]. split; [ exact Hwf' | exact Hok ].
    + unfold counted. cbn [snd IPv4Addresses AssignedIPv4Addresses set_IPv4Addresses].
      rewrite count_assigned_app, count_assigned_cons. simpl. lia.
    + cbn [IPv4Addresses set_IPv4Addresses]. rewrite len_app, len_cons. lia.
    + cbn [AssignedIPv4Addresses set_IPv4Addresses]. lia.
  - assert (Hadd : add (AssignedIPv4Addresses e) 1 = AssignedIPv4Addresses e + 1).
    { apply add_exact. unfold ok, min_int, max_int in *. lia. }
    assert (Hadd' : add (assigned ds) 1 = assigned ds + 1).
    { apply add_exact. unfold ok, min_int, max_int in *. lia. }
    split; [ | split; [ reflexivity | now right ] ].
    apply (consistent_replace ds pre k e post); auto.
    + split; [ exact Hid | ]. split; [ exact Hwf' | ].
      cbn [snd AssignedIPv4Addresses set_IPv4Addresses set_AssignedIPv4Addresses].
      apply wrap_ok.
    + unfold counted.
      cbn [snd IPv4Addresses AssignedIPv4Addresses set_IPv4Addresses set_AssignedIPv4Addresses].
      rewrite count_assigned_app, count_assigned_cons, Hadd. simpl. lia.
    + cbn [IPv4Addresses set_IPv4Addresses set_AssignedIPv4Addresses].
      rewrite len_app, len_cons. lia.
    + cbn [AssignedIPv4Addresses set_IPv4Addresses set_AssignedIPv4Addresses]. lia.
Qed.

Lemma consistent_AssignPodIPv4Address k8sPod ds :
  consistent ds -> consistent (AssignPodIPv4Address k8sPod ds).2.
Proof.
  intros Hds.
  destruct (AssignPodIPv4Address_cases k8sPod ds)
    as [(res & -> & _) | (r & ds' & _ & -> & Hcall)]; [ exact Hds | ].
  now destruct (consistent_assign _ _ _ _ Hds Hcall).
Qed.

Lemma consistent_release now k8sPod ds r ds' :
  consistent ds -> UnAssignPodIPv4Address now k8sPod ds = (Ok r, ds') ->
  consistent ds' ∧ total ds' = total ds ∧ assigned ds' = assigned ds - 1.
Proof.
  intros Hds Hcall.
  destruct (UnAssignPodIPv4Address_cases now k8sPod ds)
    as [[err Herr] | (ipAddr & pre & k & e & post & pre' & a & post' &
                      _ & Hpools & Haddrs & _ & Ha & Hok)]; [ congruence | ].
  rewrite Hok in Hcall. injection Hcall as _ <-.
  destruct (consistent_entry _ _ _ _ _ Hds Hpools)
    as ((Hid & (Hnd & Hkeyed) & Hoke) & Hc & Hb & Hmax & _ & _ & _).
  cbn [snd] in *. rewrite Haddrs in Hnd, Hkeyed, Hc.
  rewrite count_assigned_app, count_assigned_cons, Ha in Hc.
  pose proof (count_assigned_bounds pre') as Hb1.
  pose proof (count_assigned_bounds post') as Hb2.
  assert (Hlen : len (IPv4Addresses e) = len pre' + (1 + len post')).
  { now rewrite Haddrs, len_app, len_cons. }
  assert (Hsub : sub (AssignedIPv4Addresses e) 1 = AssignedIPv4Addresses e - 1).
  { apply sub_exact. unfold ok, min_int, max_int in *. lia. }
  assert (Hsub' : sub (assigned ds) 1 = assigned ds - 1).
  { apply sub_exact. unfold ok, min_int, max_int in *. lia. }
  cbn [total assigned]. split; [ | split; [ reflexivity | exact Hsub' ] ].
  apply (consistent_replace ds pre k e post); auto.
  - split; [ exact Hid | ]. split.
    + split.
      * cbn [snd IPv4Addresses set_IPv4Addresses set_AssignedIPv4Addresses
               set_lastUnAssignedTime].
        now rewrite (keys_replace (IP ipAddr) a).
      * cbn [snd IPv4Addresses set_IPv4Addresses set_AssignedIPv4Addresses
               set_lastUnAssignedTime].
        rewrite Forall_app, Forall_cons in *. tauto.
    + cbn [snd AssignedIPv4Addresses set_IPv4Addresses set_AssignedIPv4Addresses
             set_lastUnAssignedTime].
      apply wrap_ok.
  - unfold counted.
    cbn [snd IPv4Addresses AssignedIPv4Addresses set_IPv4Addresses set_AssignedIPv4Addresses
           set_lastUnAssignedTime].
    rewrite count_assigned_app, count_assigned_cons, Hsub. simpl. lia.
  - cbn [IPv4Addresses set_IPv4Addresses set_AssignedIPv4Addresses set_lastUnAssignedTime].
    rewrite len_app, len_cons. lia.
  - cbn [AssignedIPv4Addresses set_IPv4Addresses set_AssignedIPv4Addresses
           set_lastUnAssignedTime]. lia.
Qed.

Lemma consistent_UnAssignPodIPv4Address now k8sPod ds :
  consistent ds -> consistent (UnAssignPodIPv4Address now k8sPod ds).2.
Proof.
  intros Hds.
  destruct (UnAssignPodIPv4Address now k8sPod ds) as [[r | err] ds'] eqn:Hcall.
  - now destruct (consistent_release _ _ _ _ _ Hds Hcall).
  - destruct (UnAssignPodIPv4Address_cases now k8sPod ds)
      as [[err' Herr] | (? & ? & ? & ? & ? & ? & ? & ? & _ & _ & _ & _ & _ & Hok)];
      [ | congruence ].
    rewrite Herr in Hcall. injection Hcall as _ <-. exact Hds.
Qed.

Lemma consistent_FreeENI now ds r ds' :
  consistent ds -> FreeENI now ds = Returns (r, ds') -> consistent ds'.
Proof.
  intros Hds Hcall. pose proof Hds as (Hwf & _).
  destruct (FreeENI_cases now ds Hwf) as [Herr | (eni & ds0 & Hok)]; [ congruence | ].
  rewrite Hok in Hcall. injection Hcall as _ <-.
  destruct (FreeENI_Ok _ _ _ _ Hwf Hok) as (pre & e & post & Hpools & _ & Hdel & _ & ->).
  destruct Hdel as (_ & _ & _ & Hzero).
  destruct (consistent_entry _ _ _ _ _ Hds Hpools)
    as (_ & Hc & Hb & Hmax & Hasg & Htot & Hcnt & Hall).
  destruct Hwf as (Hnd & _ & _ & Hoka). rewrite Hpools in Hnd.
  apply NoDup_keys_mid in Hnd. destruct Hnd as (_ & _ & Hnd).
  pose proof (len_nonneg (IPv4Addresses e)) as Hlen.
  assert (Hsub : sub (total ds) (len (IPv4Addresses e)) = total ds - len (IPv4Addresses e)).
  { apply sub_exact. unfold ok, min_int, max_int in *. lia. }
  unfold consistent, wf, in_memory. cbn [total assigned eniIPPools podsIP].
  rewrite Hzero, (sub_0_r _ Hoka), Hsub. rewrite Hzero in Hasg.
  repeat split; auto; unfold min_int, max_int in *; lia.
Qed.

Lemma consistent_reorder ds ds' : consistent ds -> reorder ds ds' -> consistent ds'.
Proof.
  intros Hds Hre. destruct Hre as [ds l Hperm | ds pre k e post l Hpools Hperm].
  - destruct Hds as ((Hnd & Hall & Hokt & Hoka) & Hmem & Htot & Hasg & Hcnt).
    unfold consistent, wf, in_memory in *. cbn [total assigned eniIPPools set_eniIPPools].
    rewrite <- (keys_Permutation _ _ Hperm), <- (sum_addresses_Permutation _ _ Hperm),
      <- (sum_assigned_Permutation _ _ Hperm), <- Hperm.
    repeat split; auto; try apply Hokt; try apply Hoka.
  - destruct (consistent_entry _ _ _ _ _ Hds Hpools)
      as ((Hid & Hwf & Hok) & Hc & Hb & Hmax & _ & _ & _).
    cbn [snd] in *.
    replace (set_eniIPPools (pre ++ (k, set_IPv4Addresses l e) :: post) ds)
      with {| total := total ds; assigned := assigned ds;
              eniIPPools := pre ++ (k, set_IPv4Addresses l e) :: post;
              podsIP := podsIP ds |} by reflexivity.
    apply (consistent_replace ds pre k e post); auto.
    + split; [ exact Hid | ]. split; [ | exact Hok ].
      cbn [snd IPv4Addresses set_IPv4Addresses]. eapply addrs_wf_Permutation; eauto.
    + unfold counted. cbn [snd IPv4Addresses AssignedIPv4Addresses set_IPv4Addresses].
      now rewrite <- (count_assigned_Permutation _ _ Hperm).
    + cbn [IPv4Addresses set_IPv4Addresses]. rewrite <- (len_Permutation _ _ Hperm). lia.
    + cbn [AssignedIPv4Addresses set_IPv4Addresses]. lia.
Qed.

Lemma consistent_NewDataStore : consistent NewDataStore.
Proof.
  unfold consistent, wf, in_memory. simpl.
  repeat split; try constructor; vm_compute; discriminate.
Qed.

Lemma consistent_exec o ds ds' :
  consistent ds -> exec o ds = Some ds' -> in_memory ds' -> consistent ds'.
Proof.
  intros Hds Hexec Hmem. destruct o; simpl in Hexec.
  - injection Hexec as <-. now apply consistent_AddENI.
  - injection Hexec as <-. now apply consistent_AddENIIPv4Address.
  - injection Hexec as <-. now apply consistent_AssignPodIPv4Address.
  - injection Hexec as <-. now apply consistent_UnAssignPodIPv4Address.
  - destruct (FreeENI now ds) as [[r ds0] | ] eqn:Hcall; [ | discriminate ].
    injection Hexec as <-. eapply consistent_FreeENI; eauto.
Qed.

Lemma reachable_consistent allowed ds : reachable allowed ds -> consistent ds.
Proof.
  induction 1 as [ | ds o ds' _ IH _ Hexec Hmem | ds ds' _ IH Hre ].
  - apply consistent_NewDataStore.
  - eapply consistent_exec; eauto.
  - eapply consistent_reorder; eauto.
Qed.

(** ** The bindings stay sound, for a caller that keeps to the rules *)

Lemma elem_of_mid {A} (x z : A) pre post :
  x ∈ pre ++ z :: post <-> x = z ∨ x ∈ pre ++ post.
Proof. rewrite !elem_of_app, elem_of_cons. tauto. Qed.

Lemma elem_of_replace {A} (x y z : A) pre post :
  x ∈ pre ++ z :: post -> x = z ∨ x ∈ pre ++ y :: post.
Proof. rewrite !elem_of_app, !elem_of_cons. tauto. Qed.

Lemma here {A} (z : A) pre post : z ∈ pre ++ z :: post.
Proof. apply elem_of_mid. now left. Qed.

Lemma unique_value {V} (m : list (string * V)) k v1 v2 :
  NoDup (keys m) -> (k, v1) ∈ m -> (k, v2) ∈ m -> v1 = v2.
Proof.
  intros Hnd H1 H2. apply (get_NoDup _ _ _ Hnd) in H1, H2. congruence.
Qed.

Lemma addresses_unique_replace pre k e e' post :
  (∀ ip, ip ∈ keys (IPv4Addresses e') -> ip ∈ keys (IPv4Addresses e)) ->
  addresses_unique (pre ++ (k, e) :: post) ->
  addresses_unique (pre ++ (k, e') :: post).
Proof.
  intros Hsub Hu.
  assert (Hback : ∀ k1 e1 ip, (k1, e1) ∈ pre ++ (k, e') :: post ->
            ip ∈ keys (IPv4Addresses e1) ->
            ∃ e0, (k1, e0) ∈ pre ++ (k, e) :: post ∧ ip ∈ keys (IPv4Addresses e0)).
  { intros k1 e1 ip Hin Hip. apply (elem_of_replace _ (k, e)) in Hin.
    destruct Hin as [[= -> ->] | Hin]; [ | eauto ].
    exists e. split; [ apply here | auto ]. }
  intros k1 e1 k2 e2 ip H1 H2 Hi1 Hi2.
  destruct (Hback _ _ _ H1 Hi1) as (e1' & H1' & Hi1').
  destruct (Hback _ _ _ H2 Hi2) as (e2' & H2' & Hi2').
  exact (Hu _ _ _ _ _ H1' H2' Hi1' Hi2').
Qed.

Lemma no_empty_address_replace pre k e e' post :
  "" ∉ keys (IPv4Addresses e') ->
  no_empty_address (pre ++ (k, e) :: post) ->
  no_empty_address (pre ++ (k, e') :: post).
Proof.
  intros He' Hne k1 e1 Hin. apply (elem_of_replace _ (k, e)) in Hin.
  destruct Hin as [[= -> ->] | Hin]; [ exact He' | eauto ].
Qed.

(** An assigned Address with the literal [ip], on some ENI. *)
Lemma point_replace pre (k : string) (e e' : ENIIPPool) post (ip : string) :
  (∃ k2 e2 (a : AddressInfo), (k2, e2) ∈ pre ++ (k, e) :: post ∧
              (ip, a) ∈ IPv4Addresses e2 ∧ Assigned a = true) ->
  (∀ a : AddressInfo, (ip, a) ∈ IPv4Addresses e -> Assigned a = true ->
        ∃ a' : AddressInfo, (ip, a') ∈ IPv4Addresses e' ∧ Assigned a' = true) ->
  ∃ k2 e2 (a : AddressInfo), (k2, e2) ∈ pre ++ (k, e') :: post ∧
             (ip, a) ∈ IPv4Addresses e2 ∧ Assigned a = true.
Proof.
  intros (k2 & e2 & a & Hin & Ha & Hassigned) Hkeep.
  apply (elem_of_replace _ (k, e')) in Hin.
  destruct Hin as [[= -> ->] | Hin]; [ | exists k2, e2, a; auto ].
  destruct (Hkeep _ Ha Hassigned) as (a' & Ha' & Hassigned').
  exists k, e', a'. split; [ apply here | auto ].
Qed.

Lemma sound_parts ds pre k e post :
  sound ds -> eniIPPools ds = pre ++ (k, e) :: post ->
  NoDup (keys (eniIPPools ds)) ∧ NoDup (keys (IPv4Addresses e)) ∧
  Forall (fun ka => address ka.2 = ka.1) (IPv4Addresses e) ∧
  AssignedIPv4Addresses e = count_assigned (IPv4Addresses e) ∧
  "" ∉ keys (IPv4Addresses e).
Proof.
  intros (Hc & _ & _ & _ & Hne) Hpools.
  destruct (consistent_entry _ _ _ _ _ Hc Hpools) as ((_ & (Hnd & Hkeyed) & _) & Hcnt & _).
  destruct Hc as ((Hndp & _) & _).
  repeat split; auto. apply (Hne k e). rewrite Hpools. apply here.
Qed.

Lemma sound_AddENI now eniID deviceNumber isPrimary ds :
  sound ds -> sound (AddENI now eniID deviceNumber isPrimary ds).2.
Proof.
  intros Hds. pose proof Hds as (Hc & Hpt & Hu & Hinj & Hne).
  pose proof (consistent_AddENI now eniID deviceNumber isPrimary ds Hc) as Hc'.
  destruct (AddENI_cases now eniID deviceNumber isPrimary ds) as [-> | [Hnew Heq]];
    [ exact Hds | ].
  rewrite Heq in *. cbn [snd] in *. split; [ exact Hc' | ].
  unfold bindings_point, bindings_injective. cbn [eniIPPools podsIP set_eniIPPools].
  split; [ | split; [ | split; [ exact Hinj | ] ] ].
  - intros key info Hkey. destruct (Hpt key info Hkey) as (k & e & a & Hin & Ha).
    exists k, e, a. split; [ | exact Ha ]. apply elem_of_app. now left.
  - intros k1 e1 k2 e2 ip H1 H2 Hi1 Hi2.
    rewrite elem_of_app, list_elem_of_singleton in H1, H2.
    destruct H1 as [H1 | [= -> ->]]; [ | now apply elem_of_nil in Hi1 ].
    destruct H2 as [H2 | [= -> ->]]; [ | now apply elem_of_nil in Hi2 ].
    exact (Hu _ _ _ _ _ H1 H2 Hi1 Hi2).
  - intros k e Hin. rewrite elem_of_app, list_elem_of_singleton in Hin.
    destruct Hin as [Hin | [= -> ->]]; [ eauto | apply not_elem_of_nil ].
Qed.

Lemma sound_AddENIIPv4Address eniID ipv4 ds :
  sound ds -> disciplined (OpAddENIIPv4Address eniID ipv4) ds ->
  in_memory (AddENIIPv4Address eniID ipv4 ds).2 ->
  sound (AddENIIPv4Address eniID ipv4 ds).2.
Proof.
  intros Hds [Hnonempty Hfresh] Hmem. pose proof Hds as (Hc & Hpt & Hu & Hinj & Hne).
  pose proof (consistent_AddENIIPv4Address eniID ipv4 ds Hc Hmem) as Hc'.
  destruct (AddENIIPv4Address_cases eniID ipv4 ds)
    as [[err ->] | (pre & cur & post & Hpools & Hpre & Hip & Heq)]; [ exact Hds | ].
  destruct (sound_parts _ _ _ _ _ Hds Hpools) as (Hndp & _ & _ & _ & Hne_cur).
  rewrite Heq in *. cbn [snd] in *. split; [ exact Hc' | ].
  unfold bindings_point, bindings_injective. cbn [eniIPPools podsIP].
  rewrite Hpools in Hu, Hne, Hfresh, Hndp.
  split; [ | split; [ | split; [ exact Hinj | ] ] ].
  - intros key info Hkey. apply (point_replace pre eniID cur).
    + rewrite <- Hpools. eauto.
    + intros a Ha Hassigned. exists a. split; [ | exact Hassigned ].
      cbn [IPv4Addresses set_IPv4Addresses]. apply elem_of_app. now left.
  - assert (Hnew : ∀ k2 e2, (k2, e2) ∈ pre ++ (eniID, cur) :: post ->
                     ipv4 ∈ keys (IPv4Addresses e2) -> k2 = eniID).
    { intros k2 e2 Hin Hi. destruct (decide (k2 = eniID)) as [ | Hne2 ]; [ assumption | ].
      pose proof (Hfresh k2 e2 Hin Hne2) as Hnone. apply get_None in Hnone. contradiction. }
    assert (Hback : ∀ k1 e1 ip, (k1, e1) ∈ pre ++ (eniID,
                        set_IPv4Addresses (IPv4Addresses cur ++ [(ipv4, new_address ipv4)]) cur)
                        :: post ->
              ip ∈ keys (IPv4Addresses e1) ->
              (∃ e0, (k1, e0) ∈ pre ++ (eniID, cur) :: post ∧ ip ∈ keys (IPv4Addresses e0)) ∨
              (k1 = eniID ∧ ip = ipv4)).
    { intros k1 e1 ip Hin Hi. apply (elem_of_replace _ (eniID, cur)) in Hin.
      destruct Hin as [[= -> ->] | Hin]; [ | left; eauto ].
      cbn [IPv4Addresses set_IPv4Addresses] in Hi.
      rewrite keys_app, elem_of_app in Hi. destruct Hi as [Hi | Hi].
      - left. exists cur. split; [ apply here | exact Hi ].
      - right. apply list_elem_of_singleton in Hi. auto. }
    intros k1 e1 k2 e2 ip H1 H2 Hi1 Hi2.
    destruct (Hback _ _ _ H1 Hi1) as [(e1' & H1' & Hi1') | [E1 E1']];
      destruct (Hback _ _ _ H2 Hi2) as [(e2' & H2' & Hi2') | [E2 E2']].
    + exact (Hu _ _ _ _ _ H1' H2' Hi1' Hi2').
    + subst k2 ip. exact (Hnew _ _ H1' Hi1').
    + subst k1 ip. symmetry. exact (Hnew _ _ H2' Hi2').
    + congruence.
  - apply (no_empty_address_replace pre eniID cur); [ | exact Hne ].
    cbn [IPv4Addresses set_IPv4Addresses]. rewrite keys_app, elem_of_app.
    intros [H | H]; [ contradiction | ].
    unfold keys in H. simpl in H. apply list_elem_of_singleton in H.
    apply Hnonempty. now symmetry.
Qed.

Lemma sound_AssignPodIPv4Address k8sPod ds :
  sound ds -> disciplined (OpAssign k8sPod) ds ->
  sound (AssignPodIPv4Address k8sPod ds).2.
Proof.
  intros Hds Hdisc. pose proof Hds as (Hc & Hpt & Hu & Hinj & Hne).
  destruct (AssignPodIPv4Address_cases k8sPod ds)
    as [(res & -> & _) | (r & ds' & Hfree & -> & Hcall)]; [ exact Hds | ].
  cbn [snd]. destruct (consistent_assign _ _ _ _ Hc Hcall) as (Hc' & _).
  apply assign_success in Hcall.
  destruct Hcall
    as (pre & k & e & post & pre' & k' & a & post' & Hpools & Haddrs & Hwhy & _ & Hds').
  destruct (sound_parts _ _ _ _ _ Hds Hpools) as (Hndp & Hnda & Hkeyed & _ & Hne_e).
  assert (Hin_e : (k, e) ∈ eniIPPools ds) by (rewrite Hpools; apply here).
  assert (Hin_a : (k', a) ∈ IPv4Addresses e) by (rewrite Haddrs; apply here).
  assert (Hk' : address a = k').
  { rewrite Forall_forall in Hkeyed. apply (Hkeyed _ Hin_a). }
  assert (Ha : Assigned a = false).
  { destruct Hwhy as [Hfound | [? _]]; [ | assumption ].
    assert (Hnonempty : k8sapi.IP k8sPod ≠ "").
    { intros Hempty. apply Hne_e. rewrite <- Hempty, Hfound, Hk'.
      eapply elem_of_keys; eauto. }
    apply (Hdisc Hfree Hnonempty k e a Hin_e).
    rewrite Hfound, Hk'. now apply get_NoDup. }
  rewrite Ha in Hds'. subst ds'. split; [ exact Hc' | ].
  unfold bindings_point, bindings_injective. cbn [eniIPPools podsIP].
  rewrite Hpools in Hu, Hne.
  assert (Hkeys : keys (pre' ++ (k', set_Assigned true a) :: post') = keys (IPv4Addresses e)).
  { rewrite Haddrs. apply keys_replace. }
  assert (Hold : ∀ key info, podsIP ds !! key = Some info -> IP info ≠ address a).
  { intros key info Hkey Heq. destruct (Hpt key info Hkey) as (k2 & e2 & a2 & Hin2 & Ha2 & Has2).
    rewrite Heq, Hk' in Ha2.
    assert (k2 = k).
    { apply (Hu k2 e2 k e k'); rewrite <- ?Hpools; auto; eapply elem_of_keys; eauto. }
    subst k2. assert (e2 = e) by (eapply unique_value; eauto). subst e2.
    assert (a2 = a) by (eapply unique_value; eauto). congruence. }
  split; [ | split; [ | split ] ].
  - intros key info. rewrite lookup_insert. case_decide as Hkey.
    + intros [= <-]. cbn [IP]. eexists k, _, (set_Assigned true a).
      split; [ apply here | ]. split; [ | reflexivity ].
      cbn [IPv4Addresses set_IPv4Addresses]. rewrite Hk'. apply here.
    + intros Hlook. apply (point_replace pre k e).
      * rewrite <- Hpools. eauto.
      * intros a0 Ha0 Has0. cbn [IPv4Addresses set_IPv4Addresses].
        rewrite Haddrs in Ha0. apply (elem_of_replace _ (k', set_Assigned true a)) in Ha0.
        destruct Ha0 as [[= -> ->] | Ha0]; [ congruence | eauto ].
  - apply (addresses_unique_replace pre k e); [ | exact Hu ].
    intros ip. cbn [IPv4Addresses set_IPv4Addresses]. now rewrite Hkeys.
  - intros key1 key2 info1 info2. rewrite !lookup_insert.
    case_decide as H1; case_decide as H2; intros E1 E2 Hip.
    + congruence.
    + injection E1 as <-. cbn [IP] in Hip. exfalso. now apply (Hold _ _ E2).
    + injection E2 as <-. cbn [IP] in Hip. exfalso. now apply (Hold _ _ E1).
    + exact (Hinj _ _ _ _ E1 E2 Hip).
  - apply (no_empty_address_replace pre k e); [ | exact Hne ].
    cbn [IPv4Addresses set_IPv4Addresses]. now rewrite Hkeys.
Qed.

Lemma sound_UnAssignPodIPv4Address now k8sPod ds :
  sound ds -> sound (UnAssignPodIPv4Address now k8sPod ds).2.
Proof.
  intros Hds. pose proof Hds as (Hc & Hpt & Hu & Hinj & Hne).
  pose proof (consistent_UnAssignPodIPv4Address now k8sPod ds Hc) as Hc'.
  destruct (UnAssignPodIPv4Address_cases now k8sPod ds)
    as [[err ->] | (ipAddr & pre & k & e & post & pre' & a & post' &
                    Hbound & Hpools & Haddrs & Hpre' & Ha & Heq)]; [ exact Hds | ].
  rewrite Heq in *. cbn [snd] in *. split; [ exact Hc' | ].
  destruct (sound_parts _ _ _ _ _ Hds Hpools) as (Hndp & Hnda & Hkeyed & _ & Hne_e).
  unfold bindings_point, bindings_injective. cbn [eniIPPools podsIP].
  rewrite Hpools in Hu, Hne.
  assert (Hkeys : keys (pre' ++ (IP ipAddr, set_unAssignedTime now (set_Assigned false a))
                          :: post') = keys (IPv4Addresses e)).
  { rewrite Haddrs. apply keys_replace. }
  split; [ | split; [ | split ] ].
  - intros key info. rewrite lookup_delete. case_decide as Hkey; [ discriminate | ].
    intros Hlook. apply (point_replace pre k e).
    + rewrite <- Hpools. eauto.
    + intros a0 Ha0 Has0.
      cbn [IPv4Addresses set_IPv4Addresses set_AssignedIPv4Addresses set_lastUnAssignedTime].
      rewrite Haddrs in Ha0.
      apply (elem_of_replace _ (IP ipAddr, set_unAssignedTime now (set_Assigned false a)))
        in Ha0.
      destruct Ha0 as [[= Hip ->] | Ha0]; [ | eauto ].
      exfalso. apply Hkey. exact (Hinj _ _ _ _ Hbound Hlook (eq_sym Hip)).
  - apply (addresses_unique_replace pre k e); [ | exact Hu ].
    intros ip.
    cbn [IPv4Addresses set_IPv4Addresses set_AssignedIPv4Addresses set_lastUnAssignedTime].
    now rewrite Hkeys.
  - intros key1 key2 info1 info2. rewrite !lookup_delete.
    case_decide; [ discriminate | ]. case_decide; [ discriminate | ]. apply Hinj.
  - apply (no_empty_address_replace pre k e); [ | exact Hne ].
    cbn [IPv4Addresses set_IPv4Addresses set_AssignedIPv4Addresses set_lastUnAssignedTime].
    now rewrite Hkeys.
Qed.

Lemma sound_FreeENI now ds r ds' :
  sound ds -> FreeENI now ds = Returns (r, ds') -> sound ds'.
Proof.
  intros Hds Hcall. pose proof Hds as (Hc & Hpt & Hu & Hinj & Hne).
  pose proof (consistent_FreeENI _ _ _ _ Hc Hcall) as Hc'.
  pose proof Hc as (Hwf & _).
  destruct (FreeENI_cases now ds Hwf) as [Herr | (eni & ds0 & Hok)].
  { rewrite Herr in Hcall. injection Hcall as _ <-. exact Hds. }
  rewrite Hok in Hcall. injection Hcall as _ <-.
  destruct (FreeENI_Ok _ _ _ _ Hwf Hok) as (pre & e & post & Hpools & _ & Hdel & _ & ->).
  destruct Hdel as (_ & _ & _ & Hzero).
  destruct (sound_parts _ _ _ _ _ Hds Hpools) as (_ & _ & _ & Hcnt & _).
  split; [ exact Hc' | ].
  unfold bindings_point, bindings_injective. cbn [eniIPPools podsIP].
  rewrite Hpools in Hu, Hne.
  split; [ | split; [ | split; [ exact Hinj | ] ] ].
  - intros key info Hkey. destruct (Hpt key info Hkey) as (k2 & e2 & a2 & Hin2 & Ha2 & Has2).
    rewrite Hpools in Hin2. apply elem_of_mid in Hin2.
    destruct Hin2 as [[= -> ->] | Hin2]; [ | eauto 6 ].
    rewrite Hzero in Hcnt. symmetry in Hcnt.
    pose proof (count_assigned_zero _ _ _ Hcnt Ha2). congruence.
  - intros k1 e1 k2 e2 ip H1 H2. apply Hu; apply elem_of_mid; auto.
  - intros k1 e1 H1. apply (Hne k1 e1). apply elem_of_mid. auto.
Qed.

Lemma sound_reorder ds ds' : sound ds -> reorder ds ds' -> sound ds'.
Proof.
  intros Hds Hre. pose proof Hds as (Hc & Hpt & Hu & Hinj & Hne).
  pose proof (consistent_reorder _ _ Hc Hre) as Hc'.
  split; [ exact Hc' | ].
  destruct Hre as [ds l Hperm | ds pre k e post l Hpools Hperm];
    unfold bindings_point, bindings_injective; cbn [eniIPPools podsIP set_eniIPPools].
  - split; [ | split; [ | split; [ exact Hinj | ] ] ].
    + intros key info Hkey. destruct (Hpt key info Hkey) as (k2 & e2 & a2 & Hin2 & Ha2).
      exists k2, e2, a2. now rewrite <- Hperm.
    + intros k1 e1 k2 e2 ip. rewrite <- !Hperm. apply Hu.
    + intros k1 e1. rewrite <- Hperm. apply Hne.
  - rewrite Hpools in Hu, Hne.
    assert (Hkeys : ∀ ip, ip ∈ keys l <-> ip ∈ keys (IPv4Addresses e)).
    { intros ip. now rewrite <- (keys_Permutation _ _ Hperm). }
    split; [ | split; [ | split; [ exact Hinj | ] ] ].
    + intros key info Hkey. apply (point_replace pre k e).
      * rewrite <- Hpools. eauto.
      * intros a0 Ha0 Has0. exists a0. cbn [IPv4Addresses set_IPv4Addresses].
        now rewrite <- Hperm.
    + apply (addresses_unique_replace pre k e); [ | exact Hu ].
      intros ip. cbn [IPv4Addresses set_IPv4Addresses]. apply Hkeys.
    + apply (no_empty_address_replace pre k e); [ | exact Hne ].
      cbn [IPv4Addresses set_IPv4Addresses]. rewrite Hkeys.
      apply (Hne k e). apply here.
Qed.

Lemma sound_NewDataStore : sound NewDataStore.
Proof.
  split; [ apply consistent_NewDataStore | ].
  split; [ | split; [ | split ] ].
  - intros key info H. simpl in H. now rewrite lookup_empty in H.
  - intros k1 e1 k2 e2 ip H. now apply elem_of_nil in H.
  - intros key1 key2 info1 info2 H. simpl in H. now rewrite lookup_empty in H.
  - intros k e H. now apply elem_of_nil in H.
Qed.

Lemma reachable_sound ds : reachable disciplined ds -> sound ds.
Proof.
  induction 1 as [ | ds o ds' _ IH Hdisc Hexec Hmem | ds ds' _ IH Hre ].
  - apply sound_NewDataStore.
  - destruct o; simpl in Hexec.
    + injection Hexec as <-. now apply sound_AddENI.
    + injection Hexec as <-. now apply sound_AddENIIPv4Address.
    + injection Hexec as <-. now apply sound_AssignPodIPv4Address.
    + injection Hexec as <-. now apply sound_UnAssignPodIPv4Address.
    + destruct (FreeENI now ds) as [[r ds0] | ] eqn:Hcall; [ | discriminate ].
      injection Hexec as <-. eapply sound_FreeENI; eauto.
  - eapply sound_reorder; eauto.
Qed.

Lemma sound_bindings_sound ds : sound ds -> bindings_sound ds.
Proof.
  intros Hds key info Hkey. pose proof Hds as (Hc & Hpt & Hu & _ & _).
  destruct (Hpt key info Hkey) as (k & e & a & Hin & Ha & Has).
  destruct (list_elem_of_split _ _ Hin) as (pre & post & Hpools).
  destruct (sound_parts _ _ _ _ _ Hds Hpools) as (Hndp & Hnda & _).
  exists k, e, a. split; [ now apply get_NoDup | ]. split; [ now apply get_NoDup | ].
  split; [ exact Has | ].
  intros k' e' Hget' Hsome. apply get_elem_of in Hget'. apply get_is_Some in Hsome.
  apply (Hu k' e' k e (IP info)); auto. eapply elem_of_keys; eauto.
Qed.

(** ** The invariants of the reachable states *)

Lemma reachable_assigned_p : reachable disciplined scenario.assigned_p.
Proof.
  apply (reach_call _ scenario.registered (OpAssign scenario.pod_p)).
  - apply (reach_call _ scenario.with_eni (OpAddENIIPv4Address "eni-a" "10.0.0.5")).
    + apply (reach_call _ NewDataStore (OpAddENI 0 "eni-a" 1 true)).
      * apply reach_new.
      * exact I.
      * reflexivity.
      * vm_compute. discriminate.
    + split; [ discriminate | ]. intros k e Hin Hne. vm_compute in Hin.
      apply list_elem_of_singleton in Hin. injection Hin as -> ->. congruence.
    + reflexivity.
    + vm_compute. discriminate.
  - intros _ Hne. exfalso. apply Hne. reflexivity.
  - reflexivity.
  - vm_compute. discriminate.
Qed.

Lemma reachable_any allowed ds : reachable allowed ds -> reachable any_call ds.
Proof.
  induction 1 as [ | ds o ds' _ IH _ Hexec Hmem | ds ds' _ IH Hre ].
  - apply reach_new.
  - eapply reach_call; eauto. exact I.
  - eapply reach_reorder; eauto.
Qed.

Lemma reachable_released_p : reachable any_call scenario.released_p.
Proof.
  apply (reach_call _ scenario.assigned_p_q (OpUnAssign 5 scenario.pod_p)).
  - apply (reach_call _ scenario.assigned_p (OpAssign scenario.pod_q)).
    + apply (reachable_any disciplined). apply reachable_assigned_p.
    + exact I.
    + reflexivity.
    + vm_compute. discriminate.
  - exact I.
  - reflexivity.
  - vm_compute. discriminate.
Qed.

(** C1, as the spec has it, fails on its third part: register one ENI and
    one address, assign the pod [p], assign the pod [q] with the address of
    [p] as requested IP, release [p].  The counters agree with the records,
    and the binding of [q] points at an Address that is not assigned. *)
Lemma binding_left_on_released_address :
  reachable any_call scenario.released_p ∧
  podsIP scenario.released_p !! NewPodKey scenario.pod_q
    = Some {| IP := "10.0.0.5"; PodDeviceNumber := 1 |} ∧
  (∀ k e a, get k (eniIPPools scenario.released_p) = Some e ->
            get "10.0.0.5" (IPv4Addresses e) = Some a -> Assigned a = false) ∧
  ¬ bindings_sound scenario.released_p.
Proof.
  assert (Hbound : podsIP scenario.released_p !! NewPodKey scenario.pod_q
                   = Some {| IP := "10.0.0.5"; PodDeviceNumber := 1 |})
    by (vm_compute; reflexivity).
  assert (Hfree : ∀ k e a, get k (eniIPPools scenario.released_p) = Some e ->
                    get "10.0.0.5" (IPv4Addresses e) = Some a -> Assigned a = false).
  { intros k e a Hk Ha. apply get_elem_of in Hk. vm_compute in Hk.
    apply list_elem_of_singleton in Hk. injection Hk as -> ->.
    vm_compute in Ha. injection Ha as <-. reflexivity. }
  split; [ apply reachable_released_p | ]. split; [ exact Hbound | ].
  split; [ exact Hfree | ].
  intros Hsound. destruct (Hsound _ _ Hbound) as (k & e & a & Hk & Ha & Has & _).
  cbn [IP] in Ha. rewrite (Hfree k e a Hk Ha) in Has. discriminate.
Qed.

(** C1, amended.  In every datastore state reached by register-ENI,
    register-IP, assign, release and free-ENI calls with arbitrary
    arguments, failed calls included, the sum over the ENIs of
    assigned-on-this-ENI is the [assigned] counter and the sum over the ENIs
    of the number of Address records is the [total] counter.  When moreover
    every register-IP call named a non-empty literal held by no other ENI
    and no assign call for a pod key without binding requested an IP that
    was already assigned, every pod binding's IP is an Address of exactly
    one ENI and that Address is assigned. *)
Theorem reachable_invariants :
  (∀ ds, reachable any_call ds ->
         sum_assigned (eniIPPools ds) = assigned ds ∧
         sum_addresses (eniIPPools ds) = total ds) ∧
  (∀ ds, reachable disciplined ds -> bindings_sound ds).
Proof.
  split.
  - intros ds Hreach. apply reachable_consistent in Hreach.
    destruct Hreach as (_ & _ & Htot & Hasg & _). auto.
  - intros ds Hreach. apply sound_bindings_sound. now apply reachable_sound.
Qed.

Lemma reachable_invariants_witness :
  reachable any_call scenario.released_p ∧
  sum_assigned (eniIPPools scenario.released_p) = assigned scenario.released_p ∧
  sum_addresses (eniIPPools scenario.released_p) = total scenario.released_p ∧
  reachable disciplined scenario.assigned_p ∧
  bindings_sound scenario.assigned_p.
Proof.
  destruct reachable_invariants as (Hcounters & Hbindings).
  split; [ apply reachable_released_p | ].
  split; [ apply (Hcounters _ reachable_released_p) | ].
  split; [ apply (Hcounters _ reachable_released_p) | ].
  split; [ apply reachable_assigned_p | ].
  apply (Hbindings _ reachable_assigned_p).
Defined.

(** ** Release after assign *)

Section Potential.
Context (K : gset PodKey).

Lemma bound_among_insert (m : gmap PodKey PodIPInfo) key info :
  key ∈ K -> m !! key = None ->
  size (dom (<[key := info]> m) ∩ K) = S (size (dom m ∩ K)).
Proof.
  intros HK Hnone. apply not_elem_of_dom in Hnone.
  replace (dom (<[key := info]> m) ∩ K) with ({[key]} ∪ (dom m ∩ K)).
  - rewrite size_union, size_singleton; [ reflexivity | set_solver ].
  - rewrite dom_insert_L. apply set_eq. set_solver.
Qed.

Lemma bound_among_delete (m : gmap PodKey PodIPInfo) key :
  (size (dom m ∩ K) <= S (size (dom (delete key m) ∩ K)))%nat.
Proof.
  rewrite dom_delete_L.
  transitivity (size ({[key]} ∪ (dom m ∖ {[key]}) ∩ K)).
  - apply subseteq_size. intros x Hx.
    destruct (decide (x = key)); set_solver.
  - rewrite size_union_alt, size_singleton.
    apply le_n_S. apply subseteq_size. set_solver.
Qed.

(** A successful assign for a pod key of [K] does not raise [assigned]
    above the number of keys of [K] that are bound. *)
Lemma assign_potential k8sPod ds r ds' :
  consistent ds -> NewPodKey k8sPod ∈ K ->
  AssignPodIPv4Address k8sPod ds = (Ok r, ds') ->
  consistent ds' ∧ total ds' = total ds ∧
  assigned ds' - bound_among K ds' <= assigned ds - bound_among K ds.
Proof.
  intros Hc HK Hcall.
  destruct (AssignPodIPv4Address_cases k8sPod ds)
    as [(res & Heq & _) | (r0 & ds0 & Hfree & Heq & Hunsafe)];
    rewrite Heq in Hcall.
  - injection Hcall as _ <-. split; [ exact Hc | ]. split; [ reflexivity | lia ].
  - injection Hcall as <- <-.
    destruct (consistent_assign _ _ _ _ Hc Hunsafe) as (Hc' & Htot & Hasg).
    split; [ exact Hc' | ]. split; [ exact Htot | ].
    apply assign_success in Hunsafe.
    destruct Hunsafe as (? & ? & e & ? & ? & ? & a & ? & _ & _ & _ & _ & Hds0).
    unfold bound_among. rewrite Hds0 at 2. cbn [podsIP].
    rewrite (bound_among_insert _ _ _ HK Hfree). lia.
Qed.

(** A successful release lowers [assigned] by one, and the number of keys
    of [K] that are bound by one at most. *)
Lemma release_potential now k8sPod ds r ds' :
  consistent ds ->
  UnAssignPodIPv4Address now k8sPod ds = (Ok r, ds') ->
  consistent ds' ∧ total ds' = total ds ∧
  assigned ds' - bound_among K ds' <= assigned ds - bound_among K ds ∧
  podsIP ds' = delete (NewPodKey k8sPod) (podsIP ds).
Proof.
  intros Hc Hcall.
  destruct (consistent_release _ _ _ _ _ Hc Hcall) as (Hc' & Htot & Hasg).
  assert (Hpods : podsIP ds' = delete (NewPodKey k8sPod) (podsIP ds)).
  { destruct (UnAssignPodIPv4Address_cases now k8sPod ds)
      as [[err Herr] | (? & ? & ? & ? & ? & ? & ? & ? & _ & _ & _ & _ & _ & Hok)];
      [ congruence | ].
    rewrite Hok in Hcall. now injection Hcall as _ <-. }
  split; [ exact Hc' | ]. split; [ exact Htot | ]. split; [ | exact Hpods ].
  unfold bound_among. rewrite Hpods.
  pose proof (bound_among_delete (podsIP ds) (NewPodKey k8sPod)). lia.
Qed.

Lemma assignAll_potential pods ds ds1 :
  consistent ds -> Forall (fun p => NewPodKey p ∈ K) pods ->
  assignAll pods ds = Some ds1 ->
  consistent ds1 ∧ total ds1 = total ds ∧
  assigned ds1 - bound_among K ds1 <= assigned ds - bound_among K ds.
Proof.
  revert ds. induction pods as [ | p pods IH]; intros ds Hc HK; simpl.
  - intros [= <-]. split; [ exact Hc | ]. split; [ reflexivity | lia ].
  - apply Forall_cons in HK. destruct HK as [Hp HK].
    destruct (AssignPodIPv4Address p ds) as [[r | err] ds'] eqn:Hcall; [ | discriminate ].
    intros Hrest.
    destruct (assign_potential _ _ _ _ Hc Hp Hcall) as (Hc' & Htot & Hpot).
    destruct (IH _ Hc' HK Hrest) as (Hc1 & Htot1 & Hpot1).
    split; [ exact Hc1 | ]. split; lia.
Qed.

Lemma unassignAll_potential calls ds ds2 :
  consistent ds ->
  unassignAll calls ds = Some ds2 ->
  consistent ds2 ∧ total ds2 = total ds ∧
  assigned ds2 - bound_among K ds2 <= assigned ds - bound_among K ds ∧
  dom (podsIP ds2) ⊆ dom (podsIP ds) ∧
  Forall (fun c => NewPodKey c.2 ∉ dom (podsIP ds2)) calls.
Proof.
  revert ds. induction calls as [ | [now p] calls IH]; intros ds Hc; simpl.
  - intros [= <-]. split; [ exact Hc | ]. split; [ reflexivity | ].
    split; [ lia | ]. split; [ reflexivity | constructor ].
  - destruct (UnAssignPodIPv4Address now p ds) as [[r | err] ds'] eqn:Hcall; [ | discriminate ].
    intros Hrest.
    destruct (release_potential _ _ _ _ _ Hc Hcall) as (Hc' & Htot & Hpot & Hpods).
    destruct (IH _ Hc' Hrest) as (Hc2 & Htot2 & Hpot2 & Hdom & Hgone).
    split; [ exact Hc2 | ]. split; [ lia | ]. split; [ lia | ].
    assert (Hdom' : dom (podsIP ds') = dom (podsIP ds) ∖ {[NewPodKey p]}).
    { rewrite Hpods. apply dom_delete_L. }
    split; [ set_solver | ].
    constructor; [ | exact Hgone ]. cbn [snd]. set_solver.
Qed.
End Potential.

(** C9. From a reachable datastore state in which [assigned] is 0, after a
    run of successful assign calls followed by a run of successful release
    calls that releases every pod that was assigned, [assigned] is 0 again
    and [total] is what it was.  In the scenario of one ENI and one address,
    assign returns ("10.0.0.5", 1) and the statistics are (1, 1), and the
    release that follows returns ("10.0.0.5", 1) and leaves (1, 0). *)
Theorem release_undoes_assign :
  (∀ ds pods calls ds1 ds2,
     reachable any_call ds -> assigned ds = 0 ->
     assignAll pods ds = Some ds1 ->
     unassignAll calls ds1 = Some ds2 ->
     (∀ p, p ∈ pods -> ∃ c, c ∈ calls ∧ NewPodKey c.2 = NewPodKey p) ->
     assigned ds2 = 0 ∧ total ds2 = total ds) ∧
  (AssignPodIPv4Address scenario.pod_p scenario.registered
     = (Ok ("10.0.0.5", 1), scenario.assigned_p) ∧
   GetStats scenario.assigned_p = (1, 1) ∧
   ∀ now,
     (UnAssignPodIPv4Address now scenario.pod_p scenario.assigned_p).1
       = Ok ("10.0.0.5", 1) ∧
     GetStats (UnAssignPodIPv4Address now scenario.pod_p scenario.assigned_p).2 = (1, 0)).
Proof.
  split.
  - intros ds pods calls ds1 ds2 Hreach Hzero Hassign Hrelease Hall.
    apply reachable_consistent in Hreach.
    set (K := list_to_set (NewPodKey <$> pods) : gset PodKey).
    assert (HK : Forall (fun p => NewPodKey p ∈ K) pods).
    { apply Forall_forall. intros p Hp. unfold K.
      apply elem_of_list_to_set, list_elem_of_fmap. eauto. }
    destruct (assignAll_potential K _ _ _ Hreach HK Hassign) as (Hc1 & Htot1 & Hpot1).
    destruct (unassignAll_potential K _ _ _ Hc1 Hrelease)
      as (Hc2 & Htot2 & Hpot2 & _ & Hgone).
    split; [ | lia ].
    assert (Hnone : bound_among K ds2 = 0).
    { unfold bound_among.
      replace (dom (podsIP ds2) ∩ K) with (∅ : gset PodKey); [ reflexivity | ].
      symmetry. apply set_eq. intros key. split; [ | set_solver ].
      intros Hkey. apply elem_of_intersection in Hkey. destruct Hkey as [Hdom HinK].
      unfold K in HinK. apply elem_of_list_to_set, list_elem_of_fmap in HinK.
      destruct HinK as (p & -> & Hp). destruct (Hall p Hp) as (c & Hc & Hsame).
      rewrite Forall_forall in Hgone. specialize (Hgone c Hc). simpl in Hgone.
      rewrite Hsame in Hgone. contradiction. }
    destruct Hc2 as (_ & _ & _ & Hasg2 & Hcnt2).
    pose proof (counted_bounds _ Hcnt2) as Hb.
    assert (0 <= bound_among K ds) by (unfold bound_among; lia).
    lia.
  - split; [ vm_compute; reflexivity | ]. split; [ vm_compute; reflexivity | ].
    intros now. split; vm_compute; reflexivity.
Qed.

Lemma release_undoes_assign_witness :
  reachable any_call scenario.registered ∧
  assigned scenario.registered = 0 ∧
  assignAll [scenario.pod_p] scenario.registered = Some scenario.assigned_p ∧
  (∃ ds2, unassignAll [(5, scenario.pod_p)] scenario.assigned_p = Some ds2 ∧
          assigned ds2 = 0 ∧ total ds2 = total scenario.registered).
Proof.
  destruct release_undoes_assign as (Hgen & _).
  assert (Hreach : reachable any_call scenario.registered).
  { apply (reach_call _ scenario.with_eni (OpAddENIIPv4Address "eni-a" "10.0.0.5")).
    - apply (reach_call _ NewDataStore (OpAddENI 0 "eni-a" 1 true)).
      + apply reach_new.
      + exact I.
      + reflexivity.
      + vm_compute. discriminate.
    - exact I.
    - reflexivity.
    - vm_compute. discriminate. }
  assert (Hzero : assigned scenario.registered = 0) by reflexivity.
  assert (Hassign : assignAll [scenario.pod_p] scenario.registered
                    = Some scenario.assigned_p) by (vm_compute; reflexivity).
  split; [ exact Hreach | ]. split; [ exact Hzero | ]. split; [ exact Hassign | ].
  eexists. split; [ vm_compute; reflexivity | ].
  apply (Hgen scenario.registered [scenario.pod_p] [(5, scenario.pod_p)]
           scenario.assigned_p); auto.
  intros p Hp. apply list_elem_of_singleton in Hp. subst p.
  exists (5, scenario.pod_p). split; [ apply list_elem_of_singleton | ]; reflexivity.
Defined.

(** * Further properties of the datastore *)

(** ** Lookup after insertion *)

Section AssocListUpdates.
Context {V : Type}.
Implicit Types (m : list (string * V)) (k : string) (v : V).

Lemma get_put_eq k v m : get k (put k v m) = Some v.
Proof.
  induction m as [ | [k' v'] m IH]; simpl.
  - now rewrite String.eqb_refl.
  - destruct (String.eqb_spec k k') as [<- | Hne]; simpl.
    + now rewrite String.eqb_refl.
    + destruct (String.eqb_spec k k'); [ congruence | exact IH ].
Qed.

Lemma get_put_ne k k' v m : k' ≠ k -> get k' (put k v m) = get k' m.
Proof.
  intros Hne. induction m as [ | [k0 v0] m IH]; simpl.
  - destruct (String.eqb_spec k' k); [ congruence | reflexivity ].
  - destruct (String.eqb_spec k k0) as [<- | Hne0]; simpl.
    + destruct (String.eqb_spec k' k); [ congruence | reflexivity ].
    + destruct (String.eqb_spec k' k0); [ reflexivity | exact IH ].
Qed.

Lemma get_remove_ne k k' m : k' ≠ k -> get k' (remove k m) = get k' m.
Proof.
  intros Hne. induction m as [ | [k0 v0] m IH]; simpl; [ reflexivity | ].
  destruct (String.eqb_spec k k0) as [<- | Hne0]; simpl.
  - destruct (String.eqb_spec k' k); [ congruence | exact IH ].
  - destruct (String.eqb_spec k' k0); [ reflexivity | exact IH ].
Qed.

Lemma length_put_fresh k v m : get k m = None -> length (put k v m) = S (length m).
Proof. intros H. rewrite (put_fresh _ _ _ H), length_app. simpl. lia. Qed.
End AssocListUpdates.

(** ** Registration *)

(** X1. [AddENI] of an id the datastore holds fails with
    [DuplicatedENIError] and leaves the datastore as it was.  Otherwise it
    succeeds: the id now leads to a record with the device number, the
    primary flag and the creation time given, no address and no address
    assigned; the other ENIs, the counters and the bindings are as before;
    there is one ENI more; and the same call again is a duplicate. *)
Theorem AddENI_registers now eniID deviceNumber isPrimary ds :
  (is_Some (get eniID (eniIPPools ds)) ->
   AddENI now eniID deviceNumber isPrimary ds = (Some DuplicatedENIError, ds)) ∧
  (get eniID (eniIPPools ds) = None ->
   ∃ ds',
     AddENI now eniID deviceNumber isPrimary ds = (None, ds') ∧
     get eniID (eniIPPools ds') =
       Some {| createTime := now; lastUnAssignedTime := time.zero;
               IsPrimary := isPrimary; id := eniID; DeviceNumber := deviceNumber;
               AssignedIPv4Addresses := 0; IPv4Addresses := [] |} ∧
     (∀ k, k ≠ eniID -> get k (eniIPPools ds') = get k (eniIPPools ds)) ∧
     GetStats ds' = GetStats ds ∧
     podsIP ds' = podsIP ds ∧
     GetENIs ds' = GetENIs ds + 1 ∧
     ∀ now' deviceNumber' isPrimary',
       AddENI now' eniID deviceNumber' isPrimary' ds' = (Some DuplicatedENIError, ds')).
Proof.
  unfold AddENI. split.
  - intros [e He]. now rewrite He.
  - intros Hnone. rewrite Hnone. eexists. split; [ reflexivity | ].
    cbn [eniIPPools set_eniIPPools podsIP]. split; [ apply get_put_eq | ].
    split; [ intros k Hk; now apply get_put_ne | ].
    split; [ reflexivity | ]. split; [ reflexivity | ]. split.
    + unfold GetENIs, len. cbn [eniIPPools set_eniIPPools].
      rewrite (length_put_fresh _ _ _ Hnone). lia.
    + intros now' deviceNumber' isPrimary'. cbn [eniIPPools set_eniIPPools].
      now rewrite get_put_eq.
Qed.

Lemma AddENI_registers_witness :
  get "eni-b" (eniIPPools scenario.registered) = None ∧
  ∃ ds',
    AddENI 7 "eni-b" 2 false scenario.registered = (None, ds') ∧
    GetENIs ds' = 2 ∧
    AddENI 9 "eni-b" 3 true ds' = (Some DuplicatedENIError, ds') ∧
    AddENI 9 "eni-a" 3 true scenario.registered
      = (Some DuplicatedENIError, scenario.registered).
Proof.
  destruct (AddENI_registers 7 "eni-b" 2 false scenario.registered) as (_ & Hnew).
  destruct (AddENI_registers 9 "eni-a" 3 true scenario.registered) as (Hdup & _).
  assert (Hnone : get "eni-b" (eniIPPools scenario.registered) = None)
    by (vm_compute; reflexivity).
  split; [ exact Hnone | ].
  destruct (Hnew Hnone) as (ds' & Hcall & _ & _ & _ & _ & Hcount & Hagain).
  exists ds'. split; [ exact Hcall | ]. split; [ rewrite Hcount; reflexivity | ].
  split; [ apply Hagain | ]. apply Hdup. vm_compute. eauto.
Defined.

(** X2. [AddENIIPv4Address] on an ENI the datastore does not hold fails
    with the unknown-ENI error, on an address the ENI holds with
    [DuplicateIPError], and either way leaves the datastore as it was.
    Otherwise it succeeds, whatever the other ENIs hold: the address is now
    on the ENI, unassigned; the other addresses and the fields of the ENI,
    the other ENIs, [assigned] and the bindings are as before; [total] is
    incremented; and the same call again is a duplicate. *)
Theorem AddENIIPv4Address_registers eniID ipv4 ds :
  (get eniID (eniIPPools ds) = None ->
   AddENIIPv4Address eniID ipv4 ds = (Some ErrUnknownENI, ds)) ∧
  (∀ curENI,
     get eniID (eniIPPools ds) = Some curENI ->
     is_Some (get ipv4 (IPv4Addresses curENI)) ->
     AddENIIPv4Address eniID ipv4 ds = (Some DuplicateIPError, ds)) ∧
  (∀ curENI,
     get eniID (eniIPPools ds) = Some curENI ->
     get ipv4 (IPv4Addresses curENI) = None ->
     ∃ ds' eni',
       AddENIIPv4Address eniID ipv4 ds = (None, ds') ∧
       get eniID (eniIPPools ds') = Some eni' ∧
       get ipv4 (IPv4Addresses eni') =
         Some {| Assigned := false; address := ipv4; unAssignedTime := time.zero |} ∧
       (∀ ip, ip ≠ ipv4 -> get ip (IPv4Addresses eni') = get ip (IPv4Addresses curENI)) ∧
       eni' = set_IPv4Addresses (IPv4Addresses eni') curENI ∧
       (∀ k, k ≠ eniID -> get k (eniIPPools ds') = get k (eniIPPools ds)) ∧
       total ds' = add (total ds) 1 ∧
       assigned ds' = assigned ds ∧
       podsIP ds' = podsIP ds ∧
       AddENIIPv4Address eniID ipv4 ds' = (Some DuplicateIPError, ds')).
Proof.
  unfold AddENIIPv4Address. split; [ | split ].
  - intros ->. reflexivity.
  - intros curENI -> [a ->]. reflexivity.
  - intros curENI Hcur Hnone. rewrite Hcur, Hnone. do 2 eexists.
    split; [ reflexivity | ].
    cbn [eniIPPools set_eniIPPools set_total total assigned podsIP].
    split; [ apply get_put_eq | ]. cbn [IPv4Addresses set_IPv4Addresses].
    split; [ apply get_put_eq | ].
    split; [ intros ip Hip; now apply get_put_ne | ].
    split; [ reflexivity | ].
    split; [ intros k Hk; now apply get_put_ne | ].
    split; [ reflexivity | ]. split; [ reflexivity | ]. split; [ reflexivity | ].
    rewrite get_put_eq. cbn [IPv4Addresses set_IPv4Addresses]. now rewrite get_put_eq.
Qed.

Lemma AddENIIPv4Address_registers_witness :
  AddENIIPv4Address "eni-z" "10.0.0.6" scenario.registered
    = (Some ErrUnknownENI, scenario.registered) ∧
  AddENIIPv4Address "eni-a" "10.0.0.5" scenario.registered
    = (Some DuplicateIPError, scenario.registered) ∧
  ∃ ds',
    AddENIIPv4Address "eni-a" "10.0.0.6" scenario.registered = (None, ds') ∧
    total ds' = 2 ∧
    AddENIIPv4Address "eni-a" "10.0.0.6" ds' = (Some DuplicateIPError, ds').
Proof.
  split; [ | split ].
  - destruct (AddENIIPv4Address_registers "eni-z" "10.0.0.6" scenario.registered)
      as (Hunknown & _).
    apply Hunknown. vm_compute. reflexivity.
  - destruct (AddENIIPv4Address_registers "eni-a" "10.0.0.5" scenario.registered)
      as (_ & Hdup & _).
    apply (Hdup (mkENIIPPool 0 0 true "eni-a" 1 0 [("10.0.0.5", mkAddressInfo false "10.0.0.5" 0)])).
    + vm_compute. reflexivity.
    + vm_compute. eauto.
  - destruct (AddENIIPv4Address_registers "eni-a" "10.0.0.6" scenario.registered)
      as (_ & _ & Hnew).
    destruct (Hnew (mkENIIPPool 0 0 true "eni-a" 1 0
                      [("10.0.0.5", mkAddressInfo false "10.0.0.5" 0)]))
      as (ds' & eni' & Hcall & _ & _ & _ & _ & _ & Htotal & _ & _ & Hagain).
    + vm_compute. reflexivity.
    + vm_compute. reflexivity.
    + exists ds'. split; [ exact Hcall | ]. split; [ rewrite Htotal; reflexivity | ].
      exact Hagain.
Defined.

(** ** Assign for a pod without binding *)

Lemma count_assigned_all l :
  Forall (fun ka : string * AddressInfo => Assigned ka.2 = true) l ->
  count_assigned l = len l.
Proof.
  induction 1 as [ | [k a] l Ha _ IH]; [ reflexivity | ].
  simpl in Ha. rewrite count_assigned_cons, len_cons, Ha, IH. reflexivity.
Qed.

Lemma count_assigned_room l k a :
  (k, a) ∈ l -> Assigned a = false -> count_assigned l < len l.
Proof.
  intros Hin Ha. destruct (list_elem_of_split _ _ Hin) as (pre & post & ->).
  rewrite count_assigned_app, count_assigned_cons, len_app, len_cons, Ha.
  pose proof (count_assigned_bounds pre). pose proof (count_assigned_bounds post). lia.
Qed.

Lemma full_pools pools :
  Forall counted pools ->
  Forall (fun ke => count_assigned (IPv4Addresses ke.2) = len (IPv4Addresses ke.2)) pools ->
  sum_assigned pools = sum_addresses pools.
Proof.
  induction 1 as [ | [k e] pools Hc _ IH]; [ reflexivity | ].
  rewrite Forall_cons. intros [Hfull Hrest]. unfold counted in Hc. simpl in Hc, Hfull.
  rewrite sum_assigned_cons, sum_addresses_cons, IH by assumption. lia.
Qed.

(** X3. On a datastore whose counters are consistent and which holds no
    empty address literal, assign with an empty requested IP for a pod key
    without binding fails with the no-available-IP error, the datastore
    being as it was, when every address is assigned ([assigned] = [total]);
    and when [assigned] < [total] it succeeds with an address that was
    unassigned: that Address is now assigned, its ENI counts one more,
    [assigned] is incremented, [total] is as before and the pod key is
    bound to the address and the device number of the ENI. *)
Theorem assign_any_address k8sPod ds :
  consistent ds -> no_empty_address (eniIPPools ds) ->
  podsIP ds !! NewPodKey k8sPod = None -> k8sapi.IP k8sPod = "" ->
  (assigned ds = total ds ->
   AssignPodIPv4Address k8sPod ds = (Err ErrNoAvailableIP, ds)) ∧
  (assigned ds < total ds ->
   ∃ k e a ds',
     (k, e) ∈ eniIPPools ds ∧
     get (address a) (IPv4Addresses e) = Some a ∧ Assigned a = false ∧
     AssignPodIPv4Address k8sPod ds = (Ok (address a, DeviceNumber e), ds') ∧
     total ds' = total ds ∧ assigned ds' = assigned ds + 1 ∧
     podsIP ds' =
       <[NewPodKey k8sPod := {| IP := address a; PodDeviceNumber := DeviceNumber e |}]>
         (podsIP ds) ∧
     ∃ e', get k (eniIPPools ds') = Some e' ∧
           get (address a) (IPv4Addresses e') = Some (set_Assigned true a) ∧
           AssignedIPv4Addresses e' = AssignedIPv4Addresses e + 1 ∧
           DeviceNumber e' = DeviceNumber e).
Proof.
  intros Hc Hne Hfree Hempty.
  assert (Hcases :
    assignOnENIs "" (eniIPPools ds) = None ∨
    ∃ r ds', assignPodIPv4AddressUnsafe k8sPod ds = (Ok r, ds')).
  { unfold assignPodIPv4AddressUnsafe. rewrite Hempty.
    destruct (assignOnENIs "" (eniIPPools ds)); eauto. }
  assert (Hcall : AssignPodIPv4Address k8sPod ds = assignPodIPv4AddressUnsafe k8sPod ds).
  { unfold AssignPodIPv4Address. now rewrite Hfree. }
  assert (Hsuccess : ∀ r ds', assignPodIPv4AddressUnsafe k8sPod ds = (Ok r, ds') ->
    ∃ k e a,
      (k, e) ∈ eniIPPools ds ∧
      get (address a) (IPv4Addresses e) = Some a ∧ Assigned a = false ∧
      r = (address a, DeviceNumber e) ∧
      total ds' = total ds ∧ assigned ds' = assigned ds + 1 ∧
      podsIP ds' =
        <[NewPodKey k8sPod := {| IP := address a; PodDeviceNumber := DeviceNumber e |}]>
          (podsIP ds) ∧
      (∃ e', get k (eniIPPools ds') = Some e' ∧
             get (address a) (IPv4Addresses e') = Some (set_Assigned true a) ∧
             AssignedIPv4Addresses e' = AssignedIPv4Addresses e + 1 ∧
             DeviceNumber e' = DeviceNumber e) ∧
      assigned ds < total ds).
  { intros r ds' Hok.
    destruct (consistent_assign _ _ _ _ Hc Hok) as (Hc' & Htot & _).
    apply assign_success in Hok.
    destruct Hok as (pre & k & e & post & pre' & k' & a & post' &
                     Hpools & Haddrs & Hwhy & Hr & Hds').
    destruct (consistent_entry _ _ _ _ _ Hc Hpools)
      as ((_ & (Hnd & Hkeyed) & _) & Hcnt & Hb & Hmax & _).
    cbn [snd] in *.
    assert (Hin_e : (k, e) ∈ eniIPPools ds) by (rewrite Hpools; apply here).
    assert (Hin_a : (k', a) ∈ IPv4Addresses e) by (rewrite Haddrs; apply here).
    assert (Hk' : address a = k').
    { rewrite Forall_forall in Hkeyed. apply (Hkeyed _ Hin_a). }
    assert (Ha : Assigned a = false).
    { destruct Hwhy as [Hfound | [? _]]; [ | assumption ].
      exfalso. apply (Hne k e Hin_e). rewrite <- Hempty, Hfound, Hk'.
      eapply elem_of_keys; eauto. }
    pose proof (count_assigned_room _ _ _ Hin_a Ha) as Hroom.
    pose proof (len_nonneg (IPv4Addresses e)) as Hlen.
    pose proof (count_assigned_bounds (IPv4Addresses e)) as Hcb.
    assert (Hadd : add (AssignedIPv4Addresses e) 1 = AssignedIPv4Addresses e + 1).
    { apply add_exact. unfold ok, min_int, max_int in *. lia. }
    assert (Hadd' : add (assigned ds) 1 = assigned ds + 1).
    { apply add_exact. unfold ok, min_int, max_int in *. lia. }
    destruct Hc as ((Hndp & _) & _).
    rewrite Ha in Hds'. subst ds'. cbn [total assigned eniIPPools podsIP].
    exists k, e, a. split; [ exact Hin_e | ].
    split; [ rewrite Hk'; now apply get_NoDup | ]. split; [ exact Ha | ].
    split; [ exact Hr | ]. split; [ reflexivity | ]. split; [ exact Hadd' | ].
    split; [ reflexivity | ]. split; [ | lia ].
    eexists. split.
    { apply get_NoDup; [ | apply here ].
      rewrite (keys_replace k e). rewrite <- Hpools. exact Hndp. }
    cbn [IPv4Addresses AssignedIPv4Addresses DeviceNumber
           set_IPv4Addresses set_AssignedIPv4Addresses].
    split; [ | split; [ exact Hadd | reflexivity ] ].
    rewrite Hk'. apply get_NoDup; [ | apply here ].
    rewrite (keys_replace k' a). rewrite <- Haddrs. exact Hnd. }
  split.
  - intros Hfull. rewrite Hcall. destruct Hcases as [Hnone | (r & ds' & Hok)].
    + unfold assignPodIPv4AddressUnsafe. now rewrite Hempty, Hnone.
    + destruct (Hsuccess _ _ Hok) as (? & ? & ? & _ & _ & _ & _ & _ & _ & _ & _ & Hlt). lia.
  - intros Hlt. rewrite Hcall. destruct Hcases as [Hnone | (r & ds' & Hok)].
    + exfalso. apply assignOnENIs_None in Hnone.
      destruct Hc as (_ & _ & Htot & Hasg & Hcnt).
      assert (Hfull : sum_assigned (eniIPPools ds) = sum_addresses (eniIPPools ds)).
      { apply full_pools; [ exact Hcnt | ].
        rewrite Forall_forall in Hnone, Hcnt. apply Forall_forall. intros [k e] Hin.
        specialize (Hcnt _ Hin). unfold counted in Hcnt. cbn [snd] in *.
        destruct (Hnone _ Hin) as [[_ Hskip] | Hpassed]; cbn [snd] in *; [ lia | ].
        apply count_assigned_all. eapply Forall_impl; [ exact Hpassed | ].
        intros ka [_ [Hassigned | Hdiff]]; [ exact Hassigned | congruence ]. }
      lia.
    + destruct (Hsuccess _ _ Hok)
        as (k & e & a & Hin & Hget & Ha & -> & Htot & Hasg & Hpods & He' & _).
      exists k, e, a, ds'. rewrite Hok. auto 10.
Qed.

Lemma assign_any_address_witness :
  AssignPodIPv4Address scenario.pod_q' scenario.assigned_p
    = (Err ErrNoAvailableIP, scenario.assigned_p) ∧
  ∃ e a ds',
    AssignPodIPv4Address scenario.pod_p scenario.registered
      = (Ok (address a, DeviceNumber e), ds') ∧
    assigned ds' = assigned scenario.registered + 1.
Proof.
  assert (Hreg : consistent scenario.registered).
  { apply (reachable_consistent any_call).
    apply (reach_call _ scenario.with_eni (OpAddENIIPv4Address "eni-a" "10.0.0.5")).
    - apply (reach_call _ NewDataStore (OpAddENI 0 "eni-a" 1 true)).
      + apply reach_new.
      + exact I.
      + reflexivity.
      + vm_compute. discriminate.
    - exact I.
    - reflexivity.
    - vm_compute. discriminate. }
  assert (Hasg : consistent scenario.assigned_p).
  { apply (reachable_consistent disciplined). apply reachable_assigned_p. }
  assert (Hne : ∀ ds, eniIPPools ds = eniIPPools scenario.registered ∨
                      eniIPPools ds = eniIPPools scenario.assigned_p ->
                      no_empty_address (eniIPPools ds)).
  { intros ds Hds k e Hin Hempty.
    destruct Hds as [Hds | Hds]; rewrite Hds in Hin; vm_compute in Hin;
      apply list_elem_of_singleton in Hin; injection Hin as -> ->;
      vm_compute in Hempty; apply list_elem_of_singleton in Hempty; discriminate. }
  assert (Hq : podsIP scenario.assigned_p !! NewPodKey scenario.pod_q' = None)
    by (vm_compute; reflexivity).
  assert (Hp : podsIP scenario.registered !! NewPodKey scenario.pod_p = None)
    by (vm_compute; reflexivity).
  pose proof (assign_any_address scenario.pod_q' scenario.assigned_p Hasg
                (Hne _ (or_intror eq_refl)) Hq eq_refl) as (Hfull & _).
  pose proof (assign_any_address scenario.pod_p scenario.registered Hreg
                (Hne _ (or_introl eq_refl)) Hp eq_refl) as (_ & Hroom).
  split.
  - apply Hfull. reflexivity.
  - destruct Hroom as (k & e & a & ds' & _ & _ & _ & Hcall & _ & Hasg' & _).
    + vm_compute. reflexivity.
    + exists e, a, ds'. auto.
Defined.



(** ** Release, again and after assign *)

(** X5. A release that succeeded is not repeated: the same release on the
    datastore it left fails with [ErrUnknownPod] and changes nothing, while
    the bindings of the other pod keys are as they were before the first
    release. *)
Theorem release_once now now' k8sPod ds r ds' :
  UnAssignPodIPv4Address now k8sPod ds = (Ok r, ds') ->
  UnAssignPodIPv4Address now' k8sPod ds' = (Err ErrUnknownPod, ds') ∧
  ∀ key, key ≠ NewPodKey k8sPod -> podsIP ds' !! key = podsIP ds !! key.
Proof.
  intros Hcall.
  destruct (UnAssignPodIPv4Address_cases now k8sPod ds)
    as [[err Herr] | (? & ? & ? & ? & ? & ? & ? & ? & _ & _ & _ & _ & _ & Hok)];
    [ congruence | ].
  rewrite Hok in Hcall. injection Hcall as _ <-. split.
  - unfold UnAssignPodIPv4Address. cbn [podsIP]. now rewrite lookup_delete_eq.
  - intros key Hkey. cbn [podsIP]. now apply lookup_delete_ne.
Qed.

Lemma release_once_witness :
  ∃ r ds',
    UnAssignPodIPv4Address 5 scenario.pod_p scenario.assigned_p = (Ok r, ds') ∧
    UnAssignPodIPv4Address 6 scenario.pod_p ds' = (Err ErrUnknownPod, ds').
Proof.
  do 2 eexists. split; [ vm_compute; reflexivity | ].
  refine (proj1 (release_once 5 6 scenario.pod_p scenario.assigned_p _ _ _)).
  vm_compute. reflexivity.
Defined.

Lemma reachable_registered : reachable disciplined scenario.registered.
Proof.
  apply (reach_call _ scenario.with_eni (OpAddENIIPv4Address "eni-a" "10.0.0.5")).
  - apply (reach_call _ NewDataStore (OpAddENI 0 "eni-a" 1 true)).
    + apply reach_new.
    + exact I.
    + reflexivity.
    + vm_compute. discriminate.
  - split; [ discriminate | ]. intros k e Hin Hne. vm_compute in Hin.
    apply list_elem_of_singleton in Hin. injection Hin as -> ->. congruence.
  - reflexivity.
  - vm_compute. discriminate.
Qed.

(** For a caller that keeps to the rules, the address an assign hands out
    was unassigned. *)
Lemma disciplined_assign_fresh k8sPod ds r ds1 :
  sound ds -> disciplined (OpAssign k8sPod) ds ->
  podsIP ds !! NewPodKey k8sPod = None ->
  assignPodIPv4AddressUnsafe k8sPod ds = (Ok r, ds1) ->
  ∃ k e a e1,
    (k, e) ∈ eniIPPools ds ∧ (address a, a) ∈ IPv4Addresses e ∧ Assigned a = false ∧
    r = (address a, DeviceNumber e) ∧
    total ds1 = total ds ∧ assigned ds1 = assigned ds + 1 ∧
    podsIP ds1 =
      <[NewPodKey k8sPod := {| IP := address a; PodDeviceNumber := DeviceNumber e |}]>
        (podsIP ds) ∧
    (k, e1) ∈ eniIPPools ds1 ∧ DeviceNumber e1 = DeviceNumber e ∧
    (address a, set_Assigned true a) ∈ IPv4Addresses e1.
Proof.
  intros Hds Hdisc Hfree Hcall. pose proof Hds as (Hc & _ & _ & _ & Hne).
  destruct (consistent_assign _ _ _ _ Hc Hcall) as (Hc1 & Htot & Hasg).
  apply assign_success in Hcall.
  destruct Hcall
    as (pre & k & e & post & pre' & k' & a & post' & Hpools & Haddrs & Hwhy & Hr & Hds1).
  destruct (sound_parts _ _ _ _ _ Hds Hpools) as (Hndp & Hnda & Hkeyed & _ & Hne_e).
  assert (Hin_e : (k, e) ∈ eniIPPools ds) by (rewrite Hpools; apply here).
  assert (Hin_a : (k', a) ∈ IPv4Addresses e) by (rewrite Haddrs; apply here).
  assert (Hk' : address a = k').
  { rewrite Forall_forall in Hkeyed. apply (Hkeyed _ Hin_a). }
  assert (Ha : Assigned a = false).
  { destruct Hwhy as [Hfound | [? _]]; [ | assumption ].
    assert (Hnonempty : k8sapi.IP k8sPod ≠ "").
    { intros Hempty. apply Hne_e. rewrite <- Hempty, Hfound, Hk'.
      eapply elem_of_keys; eauto. }
    apply (Hdisc Hfree Hnonempty k e a Hin_e).
    rewrite Hfound, Hk'. now apply get_NoDup. }
  rewrite Ha in Hds1. subst ds1. cbn [total assigned eniIPPools podsIP] in *.
  destruct (consistent_entry _ _ _ _ _ Hc Hpools) as (_ & Hcnt & Hb & Hmax & _).
  pose proof (count_assigned_room _ _ _ Hin_a Ha) as Hroom.
  pose proof (count_assigned_bounds (IPv4Addresses e)) as Hcb.
  assert (Hadd' : add (assigned ds) 1 = assigned ds + 1).
  { apply add_exact. unfold ok, min_int, max_int in *. lia. }
  exists k, e, a. eexists. rewrite Hk'.
  split; [ exact Hin_e | ]. split; [ exact Hin_a | ]. split; [ exact Ha | ].
  split; [ now rewrite <- Hk' | ]. split; [ reflexivity | ]. split; [ exact Hadd' | ].
  split; [ now rewrite <- Hk' | ]. split; [ apply here | ].
  split; [ reflexivity | ]. cbn [IPv4Addresses set_IPv4Addresses]. apply here.
Qed.

(** X6. From a datastore state reached by a caller that keeps to the
    rules, an assign that binds a pod key followed by the release of that
    pod key returns the same address and device number, and leaves the
    counters and the bindings as they were before the assign. *)
Theorem assign_then_release now k8sPod ds r ds1 :
  reachable disciplined ds -> disciplined (OpAssign k8sPod) ds ->
  podsIP ds !! NewPodKey k8sPod = None ->
  AssignPodIPv4Address k8sPod ds = (Ok r, ds1) ->
  ∃ ds2,
    UnAssignPodIPv4Address now k8sPod ds1 = (Ok r, ds2) ∧
    GetStats ds2 = GetStats ds ∧
    podsIP ds2 = podsIP ds.
Proof.
  intros Hreach Hdisc Hfree Hcall. pose proof (reachable_sound _ Hreach) as Hds.
  pose proof (sound_AssignPodIPv4Address k8sPod ds Hds Hdisc) as Hds1.
  rewrite Hcall in Hds1. cbn [snd] in Hds1.
  unfold AssignPodIPv4Address in Hcall. rewrite Hfree in Hcall.
  destruct (disciplined_assign_fresh _ _ _ _ Hds Hdisc Hfree Hcall)
    as (k & e & a & e1 & Hin_e & Hin_a & Ha & -> & Htot & Hasg & Hpods & Hin_e1 & Hdev & Hin_a1).
  destruct (list_elem_of_split _ _ Hin_e1) as (pre1 & post1 & Hpools1).
  destruct (sound_parts _ _ _ _ _ Hds1 Hpools1) as (Hndp1 & Hnda1 & Hkeyed1 & _).
  assert (Hget_a1 : get (address a) (IPv4Addresses e1) = Some (set_Assigned true a))
    by now apply get_NoDup.
  assert (Hbound : podsIP ds1 !! NewPodKey k8sPod
                   = Some {| IP := address a; PodDeviceNumber := DeviceNumber e |}).
  { rewrite Hpods. apply lookup_insert_eq. }
  destruct (UnAssignPodIPv4Address now k8sPod ds1) as [[r2 | err] ds2] eqn:Hrel.
  - exists ds2.
    destruct (consistent_release _ _ _ _ _ (proj1 Hds1) Hrel) as (_ & Htot2 & Hasg2).
    unfold UnAssignPodIPv4Address in Hrel. rewrite Hbound in Hrel. cbn [IP] in Hrel.
    destruct (unassignOnENIs now (address a) (eniIPPools ds1)) as [rel | ] eqn:Hloop;
      [ | discriminate ].
    injection Hrel as <- <-. cbn [podsIP total assigned] in *.
    apply unassignOnENIs_Some in Hloop.
    destruct Hloop as (pre2 & k2 & e2 & post2 & a2 & Hpools2 & Hget2 & _ & Hrel2 & Hdev2 & _).
    assert (Hin_e2 : (k2, e2) ∈ eniIPPools ds1) by (rewrite Hpools2; apply here).
    destruct Hds1 as (_ & _ & Hu1 & _).
    assert (k2 = k).
    { apply (Hu1 k2 e2 k e1 (address a)); auto.
      - apply get_is_Some. eauto.
      - eapply elem_of_keys; eauto. }
    subst k2. assert (e2 = e1) by (eapply unique_value; eauto). subst e2.
    assert (a2 = set_Assigned true a) by congruence. subst a2.
    rewrite Hrel2, Hdev2, Hdev. cbn [address set_Assigned].
    split; [ reflexivity | ]. split.
    + unfold GetStats. cbn [total assigned]. f_equal; lia.
    + rewrite Hpods. now apply delete_insert_id.
  - exfalso. unfold UnAssignPodIPv4Address in Hrel. rewrite Hbound in Hrel. cbn [IP] in Hrel.
    destruct (unassignOnENIs now (address a) (eniIPPools ds1)) as [rel | ] eqn:Hloop;
      [ discriminate | ].
    apply unassignOnENIs_None in Hloop. rewrite Forall_forall in Hloop.
    specialize (Hloop _ Hin_e1 _ Hget_a1). discriminate.
Qed.

Lemma assign_then_release_witness :
  ∃ r ds1 ds2,
    AssignPodIPv4Address scenario.pod_p scenario.registered = (Ok r, ds1) ∧
    UnAssignPodIPv4Address 5 scenario.pod_p ds1 = (Ok r, ds2) ∧
    GetStats ds2 = GetStats scenario.registered ∧
    podsIP ds2 = podsIP scenario.registered.
Proof.
  assert (Hcall : AssignPodIPv4Address scenario.pod_p scenario.registered
                  = (Ok ("10.0.0.5", 1), scenario.assigned_p)) by (vm_compute; reflexivity).
  destruct (assign_then_release 5 scenario.pod_p scenario.registered
              ("10.0.0.5", 1) scenario.assigned_p reachable_registered)
    as (ds2 & Hrel & Hstats & Hpods); [ | | exact Hcall | ].
  - intros _ Hne. exfalso. apply Hne. reflexivity.
  - vm_compute. reflexivity.
  - exists ("10.0.0.5", 1), scenario.assigned_p, ds2. auto.
Defined.

(** ** FreeENI: what it selects, what it keeps, when it waits *)

(** X7. On a state the package can build, [FreeENI] succeeds exactly when
    some ENI passes the four tests (not primary, created and last released
    long enough ago, no address assigned): then it returns the id of such an
    ENI and leaves every other ENI as it was; and when no ENI passes them it
    fails with the no-deletable-ENI error and leaves the datastore as it
    was. *)
Theorem FreeENI_selects now ds :
  wf ds ->
  ((∃ k e, (k, e) ∈ eniIPPools ds ∧ deletable now e) ->
   ∃ eni e ds',
     FreeENI now ds = Returns (Ok eni, ds') ∧
     get eni (eniIPPools ds) = Some e ∧ deletable now e ∧
     ∀ k, k ≠ eni -> get k (eniIPPools ds') = get k (eniIPPools ds)) ∧
  ((∀ k e, (k, e) ∈ eniIPPools ds -> ¬ deletable now e) ->
   FreeENI now ds = Returns (Err ErrNoDeletableENI, ds)).
Proof.
  intros Hwf. split.
  - intros (k0 & e0 & Hin0 & Hdel0).
    destruct (FreeENI_cases now ds Hwf) as [Herr | (eni & ds' & Hok)].
    + exfalso. unfold FreeENI in Herr.
      destruct (getDeletableENI now (eniIPPools ds)) as [e | ] eqn:Hsel.
      * destruct (get (id e) (eniIPPools ds)); discriminate.
      * apply getDeletableENI_None in Hsel. rewrite Forall_forall in Hsel.
        exact (Hsel _ Hin0 Hdel0).
    + destruct (FreeENI_Ok _ _ _ _ Hwf Hok) as (pre & e & post & Hpools & _ & Hdel & Hget & ->).
      exists eni, e. eexists. split; [ exact Hok | ]. split; [ exact Hget | ].
      split; [ exact Hdel | ]. intros k Hk. cbn [eniIPPools]. rewrite Hpools, !get_app.
      destruct (get k pre); [ reflexivity | ]. simpl.
      destruct (String.eqb_spec k eni); [ congruence | reflexivity ].
  - intros Hnone. unfold FreeENI.
    assert (Hsel : getDeletableENI now (eniIPPools ds) = None).
    { apply getDeletableENI_None, Forall_forall. intros [k e] Hin. now apply (Hnone k e). }
    now rewrite Hsel.
Qed.

Lemma FreeENI_selects_witness :
  wf scenario.secondary ∧
  (∃ eni e ds',
     FreeENI (65 * time.Second) scenario.secondary = Returns (Ok eni, ds') ∧
     get eni (eniIPPools scenario.secondary) = Some e ∧
     deletable (65 * time.Second) e) ∧
  FreeENI (30 * time.Second) scenario.secondary
    = Returns (Err ErrNoDeletableENI, scenario.secondary).
Proof.
  assert (Hwf : wf scenario.secondary) by (apply (bool_decide_unpack _); vm_compute; exact I).
  split; [ exact Hwf | ]. split.
  - destruct (FreeENI_selects (65 * time.Second) scenario.secondary Hwf) as (Hsome & _).
    destruct Hsome as (eni & e & ds' & Hcall & Hget & Hdel & _).
    + exists "eni-b", (mkENIIPPool 0 0 false "eni-b" 2 0 []).
      split; [ vm_compute; apply elem_of_cons; left; reflexivity | ].
      repeat split; vm_compute; congruence.
    + exists eni, e, ds'. auto.
  - destruct (FreeENI_selects (30 * time.Second) scenario.secondary Hwf) as (_ & Hnone).
    apply Hnone. intros k e Hin (_ & Hlife & _). vm_compute in Hin.
    apply list_elem_of_singleton in Hin. injection Hin as -> ->.
    vm_compute in Hlife. apply Hlife. reflexivity.
Defined.

(** X8. An ENI is not freed within [minLifeTime] of the [AddENI] that
    registered it, nor within [addressCoolingPeriod] of a release of one of
    its addresses: after a successful [AddENI] at time [t0], a [FreeENI]
    before [t0] + 60 s does not return that id; and after a successful
    release at time [t], the ENI that held the address carries the stamp [t]
    and a [FreeENI] before [t] + 60 s does not return its id. *)
Theorem FreeENI_waits ds :
  consistent ds ->
  (∀ t0 eniID deviceNumber isPrimary ds1 now r ds2,
     AddENI t0 eniID deviceNumber isPrimary ds = (None, ds1) ->
     now - t0 < minLifeTime ->
     FreeENI now ds1 = Returns (Ok r, ds2) -> r ≠ eniID) ∧
  (∀ t k8sPod ip dev ds1,
     UnAssignPodIPv4Address t k8sPod ds = (Ok (ip, dev), ds1) ->
     ∃ k e1 a1,
       get k (eniIPPools ds1) = Some e1 ∧ DeviceNumber e1 = dev ∧
       lastUnAssignedTime e1 = t ∧
       get ip (IPv4Addresses e1) = Some a1 ∧
       Assigned a1 = false ∧ unAssignedTime a1 = t ∧
       ∀ now r ds2,
         now - t < addressCoolingPeriod ->
         FreeENI now ds1 = Returns (Ok r, ds2) -> r ≠ k).
Proof.
  intros Hc. split.
  - intros t0 eniID deviceNumber isPrimary ds1 now r ds2 Hadd Hyoung Hfree ->.
    pose proof (consistent_AddENI t0 eniID deviceNumber isPrimary ds Hc) as Hc1.
    rewrite Hadd in Hc1. cbn [snd] in Hc1. destruct Hc1 as (Hwf1 & _).
    destruct (AddENI_cases t0 eniID deviceNumber isPrimary ds) as [Hdup | [Hnone Hnew]];
      [ congruence | ].
    rewrite Hnew in Hadd. injection Hadd as <-.
    destruct (FreeENI_Ok _ _ _ _ Hwf1 Hfree) as (_ & e & _ & _ & _ & Hdel & Hget & _).
    cbn [eniIPPools set_eniIPPools] in Hget. rewrite get_app, Hnone in Hget.
    simpl in Hget. rewrite String.eqb_refl in Hget. injection Hget as <-.
    destruct Hdel as (_ & Hlife & _). cbn [createTime new_eni] in Hlife. lia.
  - intros t k8sPod ip dev ds1 Hrel.
    pose proof (consistent_UnAssignPodIPv4Address t k8sPod ds Hc) as Hc1.
    rewrite Hrel in Hc1. cbn [snd] in Hc1. destruct Hc1 as (Hwf1 & _).
    destruct (UnAssignPodIPv4Address_cases t k8sPod ds)
      as [[err Herr] | (ipAddr & pre & k & e & post & pre' & a & post' &
                        _ & Hpools & Haddrs & Hpre' & Ha & Hok)]; [ congruence | ].
    rewrite Hok in Hrel. injection Hrel as Hip <- <-.
    destruct (consistent_entry _ _ _ _ _ Hc Hpools) as ((_ & (Hnd & Hkeyed) & _) & _).
    cbn [snd] in *.
    assert (Hin_a : (IP ipAddr, a) ∈ IPv4Addresses e) by (rewrite Haddrs; apply here).
    assert (Hkey : address a = IP ipAddr).
    { rewrite Forall_forall in Hkeyed. apply (Hkeyed _ Hin_a). }
    destruct Hc as ((Hndp & _) & _). rewrite Hpools in Hndp.
    apply NoDup_keys_mid in Hndp. destruct Hndp as (Hkpre & _ & _).
    apply get_None in Hkpre.
    assert (Hget1 : ∀ e1 : ENIIPPool, get k (pre ++ (k, e1) :: post) = Some e1).
    { intros e1. now apply get_mid. }
    eexists k, _, _. cbn [eniIPPools]. split; [ apply Hget1 | ].
    cbn [DeviceNumber lastUnAssignedTime IPv4Addresses set_IPv4Addresses
           set_AssignedIPv4Addresses set_lastUnAssignedTime].
    split; [ reflexivity | ]. split; [ reflexivity | ].
    split; [ rewrite <- Hip, Hkey; now apply get_mid | ].
    split; [ reflexivity | ]. split; [ reflexivity | ].
    intros now r ds2 Hsoon Hfree ->.
    destruct (FreeENI_Ok _ _ _ _ Hwf1 Hfree) as (_ & e2 & _ & _ & _ & Hdel & Hget2 & _).
    cbn [eniIPPools] in Hget2. rewrite Hget1 in Hget2. injection Hget2 as <-.
    destruct Hdel as (_ & _ & Hcool & _).
    cbn [lastUnAssignedTime set_lastUnAssignedTime] in Hcool. lia.
Qed.

Lemma FreeENI_waits_witness :
  consistent NewDataStore ∧
  AddENI 0 "eni-b" 2 false NewDataStore = (None, scenario.secondary) ∧
  (∀ r ds2, FreeENI (30 * time.Second) scenario.secondary = Returns (Ok r, ds2) ->
            r ≠ "eni-b") ∧
  ∃ k e1,
    get k (eniIPPools (UnAssignPodIPv4Address 5 scenario.pod_p scenario.assigned_p).2)
      = Some e1 ∧
    lastUnAssignedTime e1 = 5.
Proof.
  split; [ apply consistent_NewDataStore | ]. split; [ reflexivity | ]. split.
  - intros r ds2.
    destruct (FreeENI_waits NewDataStore consistent_NewDataStore) as (Hyoung & _).
    apply (Hyoung 0 "eni-b" 2 false scenario.secondary (30 * time.Second)).
    + reflexivity.
    + vm_compute. reflexivity.
  - destruct (FreeENI_waits scenario.assigned_p
                (reachable_consistent _ _ reachable_assigned_p)) as (_ & Hstamp).
    destruct (Hstamp 5 scenario.pod_p "10.0.0.5" 1
                (UnAssignPodIPv4Address 5 scenario.pod_p scenario.assigned_p).2)
      as (k & e1 & a1 & Hget & _ & Hlast & _).
    + vm_compute. reflexivity.
    + exists k, e1. auto.
Defined.

(** ** What every reachable state satisfies *)

(** X9. In every reachable datastore state each ENI is stored once, under
    its own id, each of its addresses once, under its own literal, and the
    counters are values of an [int]; on such a state [FreeENI] never
    dereferences a nil pointer, and every call returns. *)
Theorem reachable_never_panics allowed ds :
  reachable allowed ds ->
  wf ds ∧
  (∀ now, FreeENI now ds ≠ Panics) ∧
  (∀ o, is_Some (exec o ds)).
Proof.
  intros Hreach. apply reachable_consistent in Hreach. destruct Hreach as (Hwf & _).
  assert (Hfree : ∀ now, FreeENI now ds ≠ Panics).
  { intros now. destruct (FreeENI_cases now ds Hwf) as [-> | (eni & ds' & ->)]; discriminate. }
  split; [ exact Hwf | ]. split; [ exact Hfree | ].
  intros [ | | | | now]; simpl; eauto.
  specialize (Hfree now). destruct (FreeENI now ds) as [[r ds'] | ]; [ eauto | congruence ].
Qed.

Lemma reachable_never_panics_witness :
  reachable any_call scenario.released_p ∧
  wf scenario.released_p ∧
  FreeENI 100 scenario.released_p ≠ Panics.
Proof.
  destruct (reachable_never_panics any_call scenario.released_p reachable_released_p)
    as (Hwf & Hfree & _).
  split; [ apply reachable_released_p | ]. split; [ exact Hwf | apply Hfree ].
Defined.

(** X10. In every reachable datastore state the counters are ordered,
    0 <= [assigned] <= [total], and the counter of every ENI is the number
    of its addresses that are assigned, hence at most the number of its
    addresses. *)
Theorem reachable_counters allowed ds :
  reachable allowed ds ->
  0 <= assigned ds <= total ds ∧ total ds <= max_int ∧
  ∀ k e, (k, e) ∈ eniIPPools ds ->
    AssignedIPv4Addresses e = count_assigned (IPv4Addresses e) ∧
    0 <= AssignedIPv4Addresses e <= len (IPv4Addresses e).
Proof.
  intros Hreach. apply reachable_consistent in Hreach.
  destruct Hreach as (_ & Hmem & Htot & Hasg & Hcnt).
  pose proof (counted_bounds _ Hcnt) as Hb. unfold in_memory in Hmem.
  split; [ lia | ]. split; [ lia | ].
  intros k e Hin. rewrite Forall_forall in Hcnt. specialize (Hcnt _ Hin).
  unfold counted in Hcnt. cbn [snd] in Hcnt. split; [ exact Hcnt | ].
  rewrite Hcnt. apply count_assigned_bounds.
Qed.

Lemma reachable_counters_witness :
  reachable any_call scenario.released_p ∧
  0 <= assigned scenario.released_p <= total scenario.released_p.
Proof.
  split; [ apply reachable_released_p | ].
  apply (reachable_counters any_call scenario.released_p reachable_released_p).
Defined.

(** * Further properties of the pool manager *)

(** ** Waiting for an ENI to show up *)

Lemma waitENIAttached_loop_polls aws eni fuel :
  ∀ retry c,
  ∃ n r,
    ipamd.waitENIAttached_loop aws eni retry fuel c
      = (repeat ipamd.Call_GetAttachedENIs n, Returns (r, c)) ∧
    (n <= fuel)%nat ∧
    (∀ i, (S i < n)%nat -> not_shown aws eni (retry + i)) ∧
    match r with
    | inl m =>
        awsutils.ENIID m = eni ∧ (1 <= n)%nat ∧
        ∃ enis, awsutils.GetAttachedENIs aws (retry + n - 1) = inl enis ∧ m ∈ enis
    | inr _ => n = fuel ∧ ∀ i, (i < fuel)%nat -> not_shown aws eni (retry + i)
    end.
Proof.
  induction fuel as [ | fuel IH]; intros retry c.
  - exists 0%nat, (inr "add eni: not able to retrieve eni from metata service").
    split; [ reflexivity | ]. split; [ lia | ]. split; [ intros; lia | ].
    split; [ reflexivity | intros; lia ].
  - assert (Hnext : not_shown aws eni retry ->
      ∃ n r,
        ipamd.waitENIAttached_loop aws eni (S retry) fuel c
          = (repeat ipamd.Call_GetAttachedENIs n, Returns (r, c)) ∧
        ipamd.waitENIAttached_loop aws eni retry (S fuel) c
          = (repeat ipamd.Call_GetAttachedENIs (S n), Returns (r, c)) ∧
        (S n <= S fuel)%nat ∧
        (∀ i, (S i < S n)%nat -> not_shown aws eni (retry + i)) ∧
        match r with
        | inl m =>
            awsutils.ENIID m = eni ∧ (1 <= S n)%nat ∧
            ∃ enis, awsutils.GetAttachedENIs aws (retry + S n - 1) = inl enis ∧ m ∈ enis
        | inr _ => S n = S fuel ∧ ∀ i, (i < S fuel)%nat -> not_shown aws eni (retry + i)
        end).
    { intros Hhere. destruct (IH (S retry) c) as (n & r & Hrun & Hle & Hbefore & Hr).
      exists n, r. split; [ exact Hrun | ].
      assert (Hshift : ∀ i, (retry + S i = S retry + i)%nat) by (intros; lia).
      split.
      { unfold not_shown in Hhere. simpl. unfold ipamd.bind at 1, ipamd.emit.
        destruct (awsutils.GetAttachedENIs aws retry) as [enis | err].
        - destruct (find _ enis) as [m | ] eqn:Hfind.
          + apply find_some in Hfind. destruct Hfind as (Hin & Heq).
            apply String.eqb_eq in Heq. apply list_elem_of_In in Hin.
            symmetry in Heq. now apply Hhere in Hin.
          + now rewrite Hrun.
        - now rewrite Hrun. }
      split; [ lia | ]. split.
      { intros [ | i] Hi; [ now rewrite Nat.add_0_r | ].
        rewrite Hshift. apply Hbefore. lia. }
      destruct r as [m | err].
      - destruct Hr as (Hid & Hn & enis & Hans & Hin). split; [ exact Hid | ].
        split; [ lia | ]. exists enis. split; [ | exact Hin ].
        rewrite <- Hans. f_equal. lia.
      - destruct Hr as (-> & Hall). split; [ reflexivity | ].
        intros [ | i] Hi; [ now rewrite Nat.add_0_r | ].
        rewrite Hshift. apply Hall. lia. }
    destruct (awsutils.GetAttachedENIs aws retry) as [enis | err] eqn:Hans.
    + destruct (find (fun r => String.eqb eni (awsutils.ENIID r)) enis) as [m | ] eqn:Hfind.
      * exists 1%nat, (inl m). simpl. unfold ipamd.bind at 1, ipamd.emit.
        rewrite Hans, Hfind. split; [ reflexivity | ]. split; [ lia | ].
        split; [ intros; lia | ].
        apply find_some in Hfind. destruct Hfind as (Hin & Heq).
        apply String.eqb_eq in Heq. apply list_elem_of_In in Hin.
        split; [ now symmetry | ]. split; [ lia | ].
        exists enis. split; [ | exact Hin ]. rewrite <- Hans. f_equal. lia.
      * destruct Hnext as (n & r & _ & Hrun & Hrest).
        { unfold not_shown. rewrite Hans. intros m Hin Hid.
          apply list_elem_of_In in Hin.
          apply (find_none _ _ Hfind) in Hin. simpl in Hin. rewrite Hid in Hin.
          now rewrite String.eqb_refl in Hin. }
        exists (S n), r. split; [ exact Hrun | exact Hrest ].
    + destruct Hnext as (n & r & _ & Hrun & Hrest).
      { unfold not_shown. now rewrite Hans. }
      exists (S n), r. split; [ exact Hrun | exact Hrest ].
Qed.

(** X11. [waitENIAttached] asks the metadata service at least once and at
    most [maxRetryCheckENI] = 5 times and makes no other call; it leaves the
    manager as it was.  It returns the first answer that shows the ENI (the
    record returned has the id asked for and comes from the last answer
    read, no earlier answer having shown it), and it fails only after five
    answers none of which showed the ENI. *)
Theorem waitENIAttached_polls aws eni c :
  ∃ n r,
    ipamd.waitENIAttached aws eni c
      = (repeat ipamd.Call_GetAttachedENIs n, Returns (r, c)) ∧
    (1 <= n <= 5)%nat ∧
    (∀ i, (S i < n)%nat -> not_shown aws eni i) ∧
    match r with
    | inl m =>
        awsutils.ENIID m = eni ∧
        ∃ enis, awsutils.GetAttachedENIs aws (n - 1) = inl enis ∧ m ∈ enis
    | inr _ => n = 5%nat ∧ ∀ i, (i < 5)%nat -> not_shown aws eni i
    end.
Proof.
  destruct (waitENIAttached_loop_polls aws eni ipamd.maxRetryCheckENI 0 c)
    as (n & r & Hrun & Hle & Hbefore & Hr).
  exists n, r. split; [ exact Hrun | ].
  unfold ipamd.maxRetryCheckENI in *.
  assert (Hn : (1 <= n)%nat).
  { destruct r as [m | err]; [ tauto | ]. destruct Hr as (-> & _). lia. }
  split; [ lia | ]. split; [ exact Hbefore | ].
  destruct r as [m | err]; [ | exact Hr ].
  destruct Hr as (Hid & _ & enis & Hans & Hin). split; [ exact Hid | ].
  exists enis. split; [ exact Hans | exact Hin ].
Qed.

(** ** Recognising the attachment limit *)

Lemma prefix_app (s1 s2 : string) :
  String.prefix s1 s2 = true <-> ∃ post, s2 = (s1 ++ post)%string.
Proof.
  revert s2. induction s1 as [ | a s1 IH]; intros s2.
  - split; [ intros _; now exists s2 | intros _; now destruct s2 ].
  - destruct s2 as [ | b s2]; simpl.
    + split; [ discriminate | intros (post & Hpost); discriminate ].
    + destruct (Ascii.ascii_dec a b) as [-> | Hne].
      * rewrite IH. split; intros (post & Hpost); exists post.
        -- now rewrite Hpost.
        -- simpl in Hpost. now injection Hpost.
      * split; [ discriminate | ]. intros (post & Hpost). simpl in Hpost.
        injection Hpost as Hab _. now symmetry in Hab.
Qed.

Lemma Contains_spec (s substr : string) :
  ipamd.Contains s substr = true <-> ∃ pre post, s = (pre ++ substr ++ post)%string.
Proof.
  assert (Heq : ∀ s, ipamd.Contains s substr =
            if String.prefix substr s then true
            else match s with
                 | EmptyString => false
                 | String _ s' => ipamd.Contains s' substr
                 end) by (now intros [ | ? ?]).
  induction s as [ | a s IH]; rewrite Heq.
  - destruct (String.prefix substr "") eqn:Hp.
    + split; [ intros _ | reflexivity ]. apply prefix_app in Hp.
      destruct Hp as (post & Hpost). now exists "", post.
    + split; [ discriminate | ]. intros ([ | b pre] & post & Hs); [ | discriminate ].
      simpl in Hs. assert (String.prefix substr "" = true) by (apply prefix_app; eauto).
      congruence.
  - destruct (String.prefix substr (String a s)) eqn:Hp.
    + split; [ intros _ | reflexivity ]. apply prefix_app in Hp.
      destruct Hp as (post & Hpost). now exists "", post.
    + rewrite IH. split.
      * intros (pre & post & ->). now exists (String a pre), post.
      * intros ([ | b pre] & post & Hs).
        -- simpl in Hs.
           assert (String.prefix substr (String a s) = true) by (apply prefix_app; eauto).
           congruence.
        -- simpl in Hs. injection Hs as _ ->. now exists pre, post.
Qed.

(** X12. An error of [AllocENI] is taken for the attachment limit exactly
    when its message contains the text AttachmentLimitExceeded, at any
    place and with the same case. *)
Theorem isAttachmentLimitExceededError_spec (err : string) :
  ipamd.isAttachmentLimitExceededError err = true <->
  ∃ pre post, err = (pre ++ "AttachmentLimitExceeded" ++ post)%string.
Proof.
  apply Contains_spec.
Qed.

(** ** Shrinking the pool *)

Lemma decreaseIPPool_run now c :
  ipamd.decreaseIPPool now c =
    match FreeENI now (ipamd.dataStore c) with
    | Panics => ([ipamd.Enter_decreaseIPPool], Panics)
    | Returns (Err _, ds) =>
        ([ipamd.Enter_decreaseIPPool], Returns (tt, ipamd.set_dataStore ds c))
    | Returns (Ok eni, ds) =>
        ([ipamd.Enter_decreaseIPPool; ipamd.Call_FreeENI eni],
         Returns (tt, ipamd.set_dataStore ds c))
    end.
Proof.
  unfold ipamd.decreaseIPPool, ipamd.bind, ipamd.emit, ipamd.self, ipamd.modify, ipamd.panic.
  destruct (FreeENI now (ipamd.dataStore c)) as [[[eni | err] ds] | ]; reflexivity.
Qed.

(** X13. [decreaseIPPool], on a state the package can build: when some ENI
    is deletable it removes one such ENI from the datastore and asks the
    cloud to free that very ENI, with one call; the datastore then holds one
    ENI less, the pod bindings, both capacities and [maxENI] are as before.
    When no ENI is deletable it makes no call on the cloud and leaves the
    manager as it was. *)
Theorem decreaseIPPool_frees now c :
  wf (ipamd.dataStore c) ->
  (∃ eni e ds',
     ipamd.decreaseIPPool now c =
       ([ipamd.Enter_decreaseIPPool; ipamd.Call_FreeENI eni],
        Returns (tt, ipamd.set_dataStore ds' c)) ∧
     get eni (eniIPPools (ipamd.dataStore c)) = Some e ∧ deletable now e ∧
     get eni (eniIPPools ds') = None ∧
     GetENIs ds' = GetENIs (ipamd.dataStore c) - 1 ∧
     podsIP ds' = podsIP (ipamd.dataStore c)) ∨
  ((∀ k e, (k, e) ∈ eniIPPools (ipamd.dataStore c) -> ¬ deletable now e) ∧
   ipamd.decreaseIPPool now c = ([ipamd.Enter_decreaseIPPool], Returns (tt, c))).
Proof.
  intros Hwf. rewrite decreaseIPPool_run.
  destruct (FreeENI_cases now _ Hwf) as [Herr | (eni & ds' & Hok)].
  - right. split.
    + unfold FreeENI in Herr.
      destruct (getDeletableENI now (eniIPPools (ipamd.dataStore c))) as [e | ] eqn:Hsel.
      * destruct (get (id e) (eniIPPools (ipamd.dataStore c))); discriminate.
      * apply getDeletableENI_None in Hsel. rewrite Forall_forall in Hsel.
        intros k e Hin. exact (Hsel _ Hin).
    + rewrite Herr. now destruct c.
  - left. rewrite Hok.
    destruct (FreeENI_Ok _ _ _ _ Hwf Hok) as (pre & e & post & Hpools & _ & Hdel & Hget & Hds').
    exists eni, e, ds'. split; [ reflexivity | ]. split; [ exact Hget | ].
    split; [ exact Hdel | ]. rewrite Hds'. cbn [eniIPPools podsIP].
    destruct Hwf as (Hnd & _). rewrite Hpools in Hnd.
    apply NoDup_keys_mid in Hnd. destruct Hnd as (Hpre & Hpost & _).
    split.
    { rewrite get_app. apply get_None in Hpre, Hpost. now rewrite Hpre. }
    split; [ | reflexivity ].
    unfold GetENIs, len. cbn [eniIPPools]. rewrite Hpools, !length_app. simpl. lia.
Qed.

Lemma decreaseIPPool_frees_witness :
  wf scenario.secondary ∧
  ∃ c', ipamd.decreaseIPPool (65 * time.Second)
          (ipamd.mkIPAMD scenario.secondary 0 0 0)
        = ([ipamd.Enter_decreaseIPPool; ipamd.Call_FreeENI "eni-b"], Returns (tt, c')).
Proof.
  assert (Hwf : wf scenario.secondary) by (apply (bool_decide_unpack _); vm_compute; exact I).
  split; [ exact Hwf | ].
  destruct (decreaseIPPool_frees (65 * time.Second) (ipamd.mkIPAMD scenario.secondary 0 0 0) Hwf)
    as [(eni & e & ds' & Hrun & _) | (Hnone & _)].
  - eexists. vm_compute. reflexivity.
  - exfalso. apply (Hnone "eni-b" (mkENIIPPool 0 0 false "eni-b" 2 0 [])).
    + vm_compute. apply elem_of_cons. left. reflexivity.
    + repeat split; vm_compute; congruence.
Defined.

(** ** The ticks and the pods *)

Lemma wrap_wrap_add a b : wrap (wrap a + b) = wrap (a + b).
Proof.
  unfold wrap. f_equal.
  replace ((a + 2 ^ 63) mod 2 ^ 64 - 2 ^ 63 + b + 2 ^ 63)
    with ((a + 2 ^ 63) mod 2 ^ 64 + b) by lia.
  rewrite Zplus_mod_idemp_l. f_equal. lia.
Qed.

Lemma consistent_mod_iff ds : consistent ds <-> consistent_mod ds ∧ in_memory ds.
Proof.
  unfold consistent, consistent_mod, in_memory.
  pose proof (sum_addresses_nonneg (eniIPPools ds)) as Hnn.
  split.
  - intros (Hwf & Hmem & Htot & Hasg & Hcnt).
    split; [ | exact Hmem ]. split; [ exact Hwf | ]. split; [ | now split ].
    rewrite wrap_id; [ exact Htot | unfold ok, min_int; lia ].
  - intros ((Hwf & Htot & Hasg & Hcnt) & Hmem).
    split; [ exact Hwf | ]. split; [ exact Hmem | ]. split; [ | now split ].
    rewrite Htot. apply wrap_id. unfold ok, min_int. lia.
Qed.

Lemma pods_untouched_refl ds : pods_untouched ds ds.
Proof.
  split; [ reflexivity | ]. split; [ reflexivity | ]. intros k e ip a Hk Hip _. eauto.
Qed.

Lemma pods_untouched_trans ds1 ds2 ds3 :
  pods_untouched ds1 ds2 -> pods_untouched ds2 ds3 -> pods_untouched ds1 ds3.
Proof.
  intros (Hp & Ha & Hkeep) (Hp' & Ha' & Hkeep').
  split; [ congruence | ]. split; [ congruence | ].
  intros k e ip a Hk Hip Hasg.
  destruct (Hkeep k e ip a Hk Hip Hasg) as (e' & Hk' & Hip').
  exact (Hkeep' k e' ip a Hk' Hip' Hasg).
Qed.

Lemma managed_AddENI now eniID deviceNumber isPrimary ds :
  consistent_mod ds ->
  consistent_mod (AddENI now eniID deviceNumber isPrimary ds).2 ∧
  pods_untouched ds (AddENI now eniID deviceNumber isPrimary ds).2.
Proof.
  intros Hds.
  destruct (AddENI_cases now eniID deviceNumber isPrimary ds) as [-> | [Hnew ->]];
    [ split; [ exact Hds | apply pods_untouched_refl ] | ].
  destruct Hds as ((Hnd & Hall & Hokt & Hoka) & Htot & Hasg & Hcnt).
  cbn [snd]. split.
  - unfold consistent_mod, wf. cbn [total assigned eniIPPools podsIP set_eniIPPools].
    rewrite keys_app, sum_addresses_app, sum_assigned_app, !Forall_app.
    simpl sum_addresses. simpl sum_assigned. unfold len. simpl length.
    rewrite !Z.add_0_r.
    split; [ | split; [ exact Htot | split; [ exact Hasg | ] ] ].
    + split; [ | split; [ | split; assumption ] ].
      * apply NoDup_app. split; [ assumption | ]. split; [ | apply NoDup_singleton ].
        intros x Hx Hx'. apply list_elem_of_singleton in Hx'. subst x.
        apply get_None in Hnew. contradiction.
      * split; [ assumption | ]. apply Forall_cons. split; [ | constructor ].
        split; [ reflexivity | ]. split; [ split; constructor | ].
        vm_compute. split; discriminate.
    + split; [ assumption | ]. repeat constructor.
  - split; [ reflexivity | ]. split; [ reflexivity | ].
    intros k e ip a Hk Hip _. exists e. split; [ | exact Hip ].
    cbn [eniIPPools set_eniIPPools]. now rewrite get_app, Hk.
Qed.

Lemma managed_AddENIIPv4Address eniID ipv4 ds :
  consistent_mod ds ->
  consistent_mod (AddENIIPv4Address eniID ipv4 ds).2 ∧
  pods_untouched ds (AddENIIPv4Address eniID ipv4 ds).2.
Proof.
  intros Hds.
  destruct (AddENIIPv4Address_cases eniID ipv4 ds)
    as [[err ->] | (pre & cur & post & Hpools & Hpre & Hip & ->)];
    [ split; [ exact Hds | apply pods_untouched_refl ] | ].
  destruct Hds as ((Hnd & Hall & Hokt & Hoka) & Htot & Hasg & Hcnt).
  cbn [snd]. rewrite Hpools in *.
  rewrite Forall_app, Forall_cons in Hall, Hcnt.
  destruct Hall as (Hall1 & (Hid & (Hnda & Hkeyed) & Hok) & Hall2).
  destruct Hcnt as (Hc1 & Hc & Hc2). cbn [snd] in *.
  rewrite sum_addresses_app, sum_addresses_cons in Htot.
  rewrite sum_assigned_app, sum_assigned_cons in Hasg.
  split.
  - unfold consistent_mod, wf. cbn [total assigned eniIPPools podsIP].
    rewrite (keys_replace eniID cur), !Forall_app, !Forall_cons.
    rewrite sum_addresses_app, sum_addresses_cons, sum_assigned_app, sum_assigned_cons.
    cbn [IPv4Addresses AssignedIPv4Addresses set_IPv4Addresses].
    split; [ | split; [ | split; [ exact Hasg | ] ] ].
    + split; [ assumption | ]. split; [ | split; [ apply wrap_ok | assumption ] ].
      split; [ assumption | ]. split; [ | assumption ].
      split; [ exact Hid | ]. split; [ | exact Hok ].
      cbn [snd IPv4Addresses set_IPv4Addresses]. split.
      * rewrite keys_app. apply NoDup_app. split; [ assumption | ].
        split; [ | apply NoDup_singleton ].
        intros x Hx Hx'. apply list_elem_of_singleton in Hx'. subst x.
        apply get_None in Hip. contradiction.
      * apply Forall_app. split; [ assumption | ]. repeat constructor.
    + unfold add. rewrite Htot, wrap_wrap_add, len_app. f_equal.
      unfold len at 3. simpl length. lia.
    + split; [ assumption | ]. split; [ | assumption ].
      unfold counted in *. cbn [snd IPv4Addresses AssignedIPv4Addresses set_IPv4Addresses] in *.
      rewrite count_assigned_app. simpl. lia.
  - split; [ reflexivity | ]. split; [ reflexivity | ].
    intros k e ip a Hk Hipa _. cbn [eniIPPools].
    rewrite Hpools in Hk. rewrite get_app in Hk |- *. destruct (get k pre) as [e0 | ] eqn:Hkpre.
    + exists e. split; [ exact Hk | exact Hipa ].
    + simpl in Hk |- *. destruct (String.eqb k eniID).
      * injection Hk as <-. eexists. split; [ reflexivity | ].
        cbn [IPv4Addresses set_IPv4Addresses]. now rewrite get_app, Hipa.
      * exists e. split; [ exact Hk | exact Hipa ].
Qed.

Lemma managed_FreeENI now ds :
  consistent_mod ds ->
  ∃ r ds', FreeENI now ds = Returns (r, ds') ∧ consistent_mod ds' ∧ pods_untouched ds ds'.
Proof.
  intros Hds. pose proof Hds as (Hwf & Htot & Hasg & Hcnt).
  destruct (FreeENI_cases now ds Hwf) as [Herr | (eni & ds' & Hok)].
  - eexists _, ds. split; [ exact Herr | ]. split; [ exact Hds | apply pods_untouched_refl ].
  - exists (Ok eni), ds'. split; [ exact Hok | ].
    destruct (FreeENI_Ok _ _ _ _ Hwf Hok)
      as (pre & e & post & Hpools & _ & (_ & _ & _ & Hzero) & Hget & ->).
    destruct Hwf as (Hnd & Hall & Hokt & Hoka).
    rewrite Hpools in Hnd, Hall, Hcnt, Htot, Hasg.
    rewrite Forall_app, Forall_cons in Hall, Hcnt.
    destruct Hall as (Hall1 & _ & Hall2). destruct Hcnt as (Hc1 & Hc & Hc2).
    rewrite sum_addresses_app, sum_addresses_cons in Htot.
    rewrite sum_assigned_app, sum_assigned_cons in Hasg.
    pose proof (NoDup_keys_mid _ _ _ _ Hnd) as (Hkpre & Hkpost & Hnd').
    assert (Hsame : sub (assigned ds) (AssignedIPv4Addresses e) = assigned ds).
    { rewrite Hzero. now apply sub_0_r. }
    split.
    + unfold consistent_mod, wf. cbn [total assigned eniIPPools podsIP].
      rewrite !Forall_app, sum_addresses_app, sum_assigned_app, Hsame.
      split; [ | split; [ | split; [ lia | now split ] ] ].
      * split; [ assumption | ]. split; [ now split | ]. split; [ apply wrap_ok | assumption ].
      * unfold sub. rewrite Htot.
        replace (wrap (sum_addresses pre + (len (IPv4Addresses e) + sum_addresses post))
                 - len (IPv4Addresses e))
          with (wrap (sum_addresses pre + (len (IPv4Addresses e) + sum_addresses post))
                + - len (IPv4Addresses e)) by lia.
        rewrite wrap_wrap_add. f_equal. lia.
    + split; [ reflexivity | ]. split; [ exact Hsame | ].
      intros k e0 ip a Hk Hip Ha. exists e0. split; [ | exact Hip ].
      cbn [eniIPPools]. rewrite Hpools in Hk. rewrite get_app in Hk |- *.
      destruct (get k pre) as [e1 | ]; [ exact Hk | ].
      simpl in Hk. destruct (String.eqb k eni); [ | exact Hk ].
      injection Hk as <-. unfold counted in Hc. cbn [snd] in Hc.
      rewrite Hzero in Hc. apply get_elem_of in Hip.
      rewrite (count_assigned_zero _ _ _ (eq_sym Hc) Hip) in Ha. discriminate.
Qed.

Section Manages.
Import ipamd.

Lemma run_self {A} (f : IPAMD -> M A) c : bind self f c = f c c.
Proof.
  unfold bind, self. now destruct (f c c).
Qed.

Lemma run_modify {A} g (k : M A) c : bind (modify g) (fun _ => k) c = k (g c).
Proof.
  unfold bind, modify. now destruct (k (g c)).
Qed.

Lemma run_emit {A} e (k : M A) c :
  bind (emit e) (fun _ => k) c = (e :: (k c).1, (k c).2).
Proof.
  unfold bind, emit. now destruct (k c).
Qed.

Lemma manages_ret {A} (a : A) : manages (ret a).
Proof.
  intros c Hc. exists [], a, c. split; [ reflexivity | ].
  split; [ exact Hc | apply pods_untouched_refl ].
Qed.

Lemma manages_emit {A} e (k : M A) : manages k -> manages (bind (emit e) (fun _ => k)).
Proof.
  intros Hk c Hc. destruct (Hk c Hc) as (t & a & c' & Hrun & Hc' & Hpods).
  exists (e :: t), a, c'. rewrite run_emit, Hrun. auto.
Qed.

Lemma manages_modify {A} g (k : M A) :
  (∀ c, dataStore (g c) = dataStore c) -> manages k ->
  manages (bind (modify g) (fun _ => k)).
Proof.
  intros Hg Hk c Hc. rewrite run_modify.
  destruct (Hk (g c)) as (t & a & c' & Hrun & Hc' & Hpods); [ now rewrite Hg | ].
  exists t, a, c'. rewrite Hg in Hpods. auto.
Qed.

Lemma manages_bind {A B} (m : M A) (f : A -> M B) :
  manages m -> (∀ a, manages (f a)) -> manages (bind m f).
Proof.
  intros Hm Hf c Hc. destruct (Hm c Hc) as (t & a & c1 & Hrun & Hc1 & Hpods).
  destruct (Hf a c1 Hc1) as (t' & b & c2 & Hrun' & Hc2 & Hpods').
  exists (t ++ t'), b, c2. unfold bind. rewrite Hrun, Hrun'.
  split; [ reflexivity | ]. split; [ exact Hc2 | ].
  exact (pods_untouched_trans _ _ _ Hpods Hpods').
Qed.

(** A call on the datastore followed by the rest of the method. *)
Lemma manages_store {A} ds1 (k : M A) c :
  consistent_mod (dataStore c) ->
  consistent_mod ds1 ∧ pods_untouched (dataStore c) ds1 ->
  manages k ->
  ∃ t a c',
    bind (modify (set_dataStore ds1)) (fun _ => k) c = (t, Returns (a, c')) ∧
    consistent_mod (dataStore c') ∧ pods_untouched (dataStore c) (dataStore c').
Proof.
  intros Hc (Hds1 & Hpods) Hk. rewrite run_modify.
  destruct (Hk (set_dataStore ds1 c) Hds1) as (t & a & c' & Hrun & Hc' & Hpods').
  exists t, a, c'. split; [ exact Hrun | ]. split; [ exact Hc' | ].
  exact (pods_untouched_trans _ _ _ Hpods Hpods').
Qed.

Lemma manages_waitENIAttached aws eni : manages (waitENIAttached aws eni).
Proof.
  intros c Hc.
  destruct (waitENIAttached_loop_polls aws eni maxRetryCheckENI 0 c) as (n & r & Hrun & _).
  exists (repeat Call_GetAttachedENIs n), r, c. split; [ exact Hrun | ].
  split; [ exact Hc | apply pods_untouched_refl ].
Qed.

Lemma manages_getENIaddresses aws eni : manages (getENIaddresses aws eni).
Proof.
  unfold getENIaddresses. apply manages_emit.
  destruct (awsutils.DescribeENI aws eni) as [ec2Addrs | err]; [ | apply manages_ret ].
  destruct (find _ ec2Addrs); apply manages_ret.
Qed.

Lemma manages_addENIaddressesToDataStore ec2Addrs eni :
  manages (addENIaddressesToDataStore ec2Addrs eni).
Proof.
  induction ec2Addrs as [ | ec2Addr rest IH]; [ apply manages_ret | ].
  simpl. destruct (awsutils.BoolValue (awsutils.Primary ec2Addr)); [ exact IH | ].
  intros c Hc. rewrite run_self.
  pose proof (managed_AddENIIPv4Address eni
                (awsutils.StringValue (awsutils.PrivateIpAddress ec2Addr)) _ Hc) as Hadd.
  destruct (AddENIIPv4Address eni _ (dataStore c)) as [err ds1].
  now apply manages_store.
Qed.

Lemma manages_setupENI now aws eni eniMetadata : manages (setupENI now aws eni eniMetadata).
Proof.
  intros c Hc. unfold setupENI. rewrite run_self.
  pose proof (managed_AddENI now eni (awsutils.DeviceNumber eniMetadata)
                (String.eqb eni (awsutils.GetPrimaryENI aws)) _ Hc) as Hadd.
  destruct (AddENI now eni _ _ (dataStore c)) as [err ds1].
  apply manages_store; [ exact Hc | exact Hadd | ].
  match goal with
  | |- manages (match ?x with Some _ => _ | None => _ end) => destruct x
  end; [ apply manages_ret | ].
  apply manages_bind; [ apply manages_getENIaddresses | ].
  intros [[ec2Addrs eniPrimaryIP] | e]; [ | apply manages_ret ].
  apply manages_modify; [ reflexivity | ].
  assert (Hrest : ∀ wired : option string,
            manages (match wired with
                     | Some err =>
                         ret (Some ("failed to setup eni " ++ eni ++ " network: " ++ err)%string)
                     | None => addENIaddressesToDataStore ec2Addrs eni ;;; ret None
                     end)).
  { intros [e | ]; [ apply manages_ret | ].
    apply manages_bind; [ apply manages_addENIaddressesToDataStore | ].
    intros _. apply manages_ret. }
  assert (Hwire : manages
            (if negb (String.eqb eni (awsutils.GetPrimaryENI aws))
             then
               emit (Call_SetupENINetwork eni) ;;;
               ret (awsutils.SetupENINetwork aws eniPrimaryIP (awsutils.MAC eniMetadata)
                      (awsutils.DeviceNumber eniMetadata)
                      (awsutils.SubnetIPv4CIDR eniMetadata))
             else ret None)).
  { destruct (negb _); [ apply manages_emit | ]; apply manages_ret. }
  intros c1 Hc1. rewrite run_self.
  destruct (maxAddrsPerENI c1 <? currentMaxAddrsPerENI c1).
  - refine (manages_bind _ _ _ (fun _ => manages_bind _ _ Hwire Hrest) c1 Hc1).
    intros c2 Hc2. exists [], tt, (set_maxAddrsPerENI (currentMaxAddrsPerENI c1) c2).
    split; [ reflexivity | ]. split; [ exact Hc2 | apply pods_untouched_refl ].
  - exact (manages_bind _ _ (manages_ret tt) (fun _ => manages_bind _ _ Hwire Hrest) c1 Hc1).
Qed.
End Manages.

Lemma manages_increaseIPPool now aws : manages (ipamd.increaseIPPool now aws).
Proof.
  unfold ipamd.increaseIPPool. apply manages_emit. intros c Hc. rewrite run_self.
  destruct (_ && _); [ now apply manages_ret | ].
  revert c Hc.
  assert (Hgo : ∀ c0, manages
            (ipamd.bind (ipamd.emit ipamd.Call_AllocENI) (fun _ =>
               match awsutils.AllocENI aws with
               | inr err =>
                   if ipamd.isAttachmentLimitExceededError err
                   then ipamd.modify (ipamd.set_maxENI (GetENIs (ipamd.dataStore c0)))
                   else ipamd.ret tt
               | inl eni =>
                   ipamd.bind (ipamd.emit (ipamd.Call_AllocAllIPAddress eni)) (fun _ =>
                   ipamd.bind (ipamd.waitENIAttached aws eni) (fun attached =>
                     match attached with
                     | inr _ => ipamd.ret tt
                     | inl eniMetadata =>
                         ipamd.bind (ipamd.setupENI now aws eni eniMetadata)
                           (fun _ => ipamd.ret tt)
                     end))
               end))).
  { intros c0. apply manages_emit. destruct (awsutils.AllocENI aws) as [eni | err].
    - apply manages_emit. apply manages_bind; [ apply manages_waitENIAttached | ].
      intros [eniMetadata | e]; [ | apply manages_ret ].
      apply manages_bind; [ apply manages_setupENI | ]. intros _. apply manages_ret.
    - destruct (ipamd.isAttachmentLimitExceededError err); [ | apply manages_ret ].
      intros c Hc. exists [], tt, (ipamd.set_maxENI (GetENIs (ipamd.dataStore c0)) c).
      split; [ reflexivity | ]. split; [ exact Hc | apply pods_untouched_refl ]. }
  intros c Hc. exact (Hgo c c Hc).
Qed.

Lemma manages_decreaseIPPool now : manages (ipamd.decreaseIPPool now).
Proof.
  intros c Hc. rewrite decreaseIPPool_run.
  destruct (managed_FreeENI now _ Hc) as ([eni | err] & ds' & -> & Hds' & Hpods);
    eexists _, tt, _; (split; [ reflexivity | ]); split; assumption.
Qed.

Lemma manages_updateIPPoolIfRequired now aws :
  manages (ipamd.updateIPPoolIfRequired now aws).
Proof.
  intros c Hc. rewrite updateIPPoolIfRequired_cases.
  destruct (_ <=? _); [ now apply manages_increaseIPPool | ].
  destruct (_ <? _); [ now apply manages_decreaseIPPool | ].
  exists [], tt, c. split; [ reflexivity | ]. split; [ exact Hc | apply pods_untouched_refl ].
Qed.

Lemma manages_ticks l : manages (ticks l).
Proof.
  induction l as [ | [now aws] l IH]; [ apply manages_ret | ].
  simpl. apply manages_bind; [ apply manages_updateIPPoolIfRequired | ].
  intros _. exact IH.
Qed.

(** X14. Whatever the cloud answers, any number of ticks of the pool
    manager, started on a consistent datastore, return (no tick panics) and
    leave what belongs to the pods: the pod bindings and the counter of
    assigned addresses are the same after the ticks, and every address that
    was assigned is still on its ENI, with the same record. *)
Theorem ticks_leave_the_pods l c :
  consistent (ipamd.dataStore c) ->
  ∃ t c',
    ticks l c = (t, Returns (tt, c')) ∧
    podsIP (ipamd.dataStore c') = podsIP (ipamd.dataStore c) ∧
    assigned (ipamd.dataStore c') = assigned (ipamd.dataStore c) ∧
    ∀ k e ip a,
      get k (eniIPPools (ipamd.dataStore c)) = Some e ->
      get ip (IPv4Addresses e) = Some a -> Assigned a = true ->
      ∃ e', get k (eniIPPools (ipamd.dataStore c')) = Some e' ∧
            get ip (IPv4Addresses e') = Some a.
Proof.
  intros Hc. apply consistent_mod_iff in Hc. destruct Hc as (Hc & _).
  destruct (manages_ticks l c Hc) as (t & [] & c' & Hrun & _ & Hpods).
  exists t, c'. split; [ exact Hrun | exact Hpods ].
Qed.

Lemma ticks_leave_the_pods_witness :
  consistent scenario.assigned_p ∧
  ∃ t c',
    ticks [(100, scenario.cloud_at_limit); (200, scenario.cloud_at_limit)]
      (ipamd.mkIPAMD scenario.assigned_p 0 0 0) = (t, Returns (tt, c')) ∧
    podsIP (ipamd.dataStore c') = podsIP scenario.assigned_p.
Proof.
  pose proof (reachable_consistent _ _ reachable_assigned_p) as Hc.
  split; [ exact Hc | ].
  destruct (ticks_leave_the_pods
              [(100, scenario.cloud_at_limit); (200, scenario.cloud_at_limit)]
              (ipamd.mkIPAMD scenario.assigned_p 0 0 0) Hc)
    as (t & c' & Hrun & Hpods & _).
  exists t, c'. split; [ exact Hrun | exact Hpods ].
Defined.

(** X15. Any number of ticks of the pool manager, started on a consistent
    datastore, leave a consistent datastore, as long as the datastore they
    leave is in memory (fewer than 2^63 Address records): [total] is again
    the number of Address records, [assigned] the number of assigned ones,
    and every ENI is counted right. *)
Theorem ticks_keep_consistent l c :
  consistent (ipamd.dataStore c) ->
  ∃ t c',
    ticks l c = (t, Returns (tt, c')) ∧
    (in_memory (ipamd.dataStore c') -> consistent (ipamd.dataStore c')).
Proof.
  intros Hc. apply consistent_mod_iff in Hc. destruct Hc as (Hc & _).
  destruct (manages_ticks l c Hc) as (t & [] & c' & Hrun & Hc' & _).
  exists t, c'. split; [ exact Hrun | ]. intros Hmem. now apply consistent_mod_iff.
Qed.

Lemma ticks_keep_consistent_witness :
  consistent scenario.assigned_p ∧
  ∃ t c',
    ticks [(100, scenario.cloud_at_limit)] (ipamd.mkIPAMD scenario.assigned_p 0 0 0)
      = (t, Returns (tt, c')) ∧
    consistent (ipamd.dataStore c').
Proof.
  pose proof (reachable_consistent _ _ reachable_assigned_p) as Hc.
  split; [ exact Hc | ].
  destruct (ticks_keep_consistent [(100, scenario.cloud_at_limit)]
              (ipamd.mkIPAMD scenario.assigned_p 0 0 0) Hc) as (t & c' & Hrun & Hkeep).
  exists t, c'. split; [ exact Hrun | ]. apply Hkeep.
  vm_compute in Hrun. injection Hrun as _ <-. vm_compute. discriminate.
Defined.

(** ** Registering the addresses of an ENI *)

Lemma set_dataStore_same c : ipamd.set_dataStore (ipamd.dataStore c) c = c.
Proof. now destruct c. Qed.

Lemma AddENIIPv4Address_step eniID ipv4 ds e :
  get eniID (eniIPPools ds) = Some e ->
  ∃ e',
    get eniID (eniIPPools (AddENIIPv4Address eniID ipv4 ds).2) = Some e' ∧
    (∀ ip, is_Some (get ip (IPv4Addresses e')) <->
           is_Some (get ip (IPv4Addresses e)) ∨ ip = ipv4) ∧
    (∀ ip a, get ip (IPv4Addresses e) = Some a -> get ip (IPv4Addresses e') = Some a) ∧
    (∀ k, k ≠ eniID ->
          get k (eniIPPools (AddENIIPv4Address eniID ipv4 ds).2) = get k (eniIPPools ds)) ∧
    podsIP (AddENIIPv4Address eniID ipv4 ds).2 = podsIP ds ∧
    e' = set_IPv4Addresses (IPv4Addresses e') e.
Proof.
  intros He. unfold AddENIIPv4Address. rewrite He.
  destruct (get ipv4 (IPv4Addresses e)) as [a0 | ] eqn:Hip; cbn [snd].
  - exists e. split; [ exact He | ]. rewrite set_IPv4Addresses_same.
    split; [ | auto ].
    intros ip. split; [ now left | ]. intros [H | ->]; [ exact H | now rewrite Hip ].
  - eexists. cbn [eniIPPools set_eniIPPools set_total podsIP].
    split; [ apply get_put_eq | ]. cbn [IPv4Addresses set_IPv4Addresses].
    split; [ | split; [ | split; [ | split; reflexivity ] ] ].
    + intros ip. destruct (decide (ip = ipv4)) as [-> | Hne].
      * rewrite get_put_eq. split; [ now right | eauto ].
      * rewrite get_put_ne by assumption. split; [ now left | ]. intros [H | H]; tauto.
    + intros ip a Ha. rewrite get_put_ne; [ exact Ha | congruence ].
    + intros k Hk. now apply get_put_ne.
Qed.

Lemma addENIaddressesToDataStore_unknown ec2Addrs eni c :
  get eni (eniIPPools (ipamd.dataStore c)) = None ->
  ipamd.addENIaddressesToDataStore ec2Addrs eni c = ([], Returns (tt, c)).
Proof.
  intros Hnone. induction ec2Addrs as [ | ec2Addr rest IH]; [ reflexivity | ].
  simpl. destruct (awsutils.BoolValue (awsutils.Primary ec2Addr)); [ exact IH | ].
  rewrite run_self. unfold AddENIIPv4Address. rewrite Hnone.
  now rewrite run_modify, set_dataStore_same.
Qed.

Lemma addENIaddressesToDataStore_known ec2Addrs eni :
  ∀ c e,
    get eni (eniIPPools (ipamd.dataStore c)) = Some e ->
    ∃ ds' e',
      ipamd.addENIaddressesToDataStore ec2Addrs eni c
        = ([], Returns (tt, ipamd.set_dataStore ds' c)) ∧
      get eni (eniIPPools ds') = Some e' ∧
      (∀ ip, is_Some (get ip (IPv4Addresses e')) <->
             is_Some (get ip (IPv4Addresses e)) ∨
             ∃ x, x ∈ ec2Addrs ∧ awsutils.BoolValue (awsutils.Primary x) = false ∧
                  awsutils.StringValue (awsutils.PrivateIpAddress x) = ip) ∧
      (∀ ip a, get ip (IPv4Addresses e) = Some a -> get ip (IPv4Addresses e') = Some a) ∧
      (∀ k, k ≠ eni -> get k (eniIPPools ds') = get k (eniIPPools (ipamd.dataStore c))) ∧
      podsIP ds' = podsIP (ipamd.dataStore c) ∧
      e' = set_IPv4Addresses (IPv4Addresses e') e.
Proof.
  induction ec2Addrs as [ | ec2Addr rest IH]; intros c e He.
  - exists (ipamd.dataStore c), e. rewrite set_dataStore_same, set_IPv4Addresses_same.
    split; [ reflexivity | ]. split; [ exact He | ]. split; [ | auto ].
    intros ip. split; [ now left | ]. intros [H | (x & Hx & _)]; [ exact H | ].
    now apply elem_of_nil in Hx.
  - simpl. destruct (awsutils.BoolValue (awsutils.Primary ec2Addr)) eqn:Hprim.
    + destruct (IH c e He)
        as (ds' & e' & Hrun & He' & Hiff & Hkeep & Hothers & Hpods & Hfields).
      exists ds', e'. split; [ exact Hrun | ]. split; [ exact He' | ].
      split; [ | auto ]. intros ip. rewrite Hiff. split.
      * intros [H | (x & Hx & Hnp & Hip)]; [ now left | right ].
        exists x. split; [ apply elem_of_cons; now right | auto ].
      * intros [H | (x & Hx & Hnp & Hip)]; [ now left | right ].
        apply elem_of_cons in Hx. destruct Hx as [-> | Hx]; [ congruence | ].
        exists x. auto.
    + rewrite run_self.
      destruct (AddENIIPv4Address_step eni
                  (awsutils.StringValue (awsutils.PrivateIpAddress ec2Addr)) _ e He)
        as (e1 & He1 & Hiff1 & Hkeep1 & Hothers1 & Hpods1 & Hfields1).
      destruct (AddENIIPv4Address eni _ (ipamd.dataStore c)) as [err ds1].
      cbn [snd] in He1, Hothers1, Hpods1. rewrite run_modify.
      destruct (IH (ipamd.set_dataStore ds1 c) e1 He1)
        as (ds' & e' & Hrun & He' & Hiff & Hkeep & Hothers & Hpods & Hfields).
      exists ds', e'. split; [ exact Hrun | ]. split; [ exact He' | ].
      cbn [ipamd.dataStore ipamd.set_dataStore] in Hothers, Hpods.
      split; [ | split; [ | split; [ | split ] ] ].
      * intros ip. rewrite Hiff, Hiff1. split.
        -- intros [[H | ->] | (x & Hx & Hnp & Hip)].
           ++ now left.
           ++ right. exists ec2Addr. split; [ apply elem_of_cons; now left | auto ].
           ++ right. exists x. split; [ apply elem_of_cons; now right | auto ].
        -- intros [H | (x & Hx & Hnp & Hip)]; [ left; now left | ].
           apply elem_of_cons in Hx. destruct Hx as [-> | Hx].
           ++ left. now right.
           ++ right. exists x. auto.
      * intros ip a Ha. apply Hkeep, Hkeep1, Ha.
      * intros k Hk. rewrite Hothers, Hothers1; auto.
      * congruence.
      * rewrite Hfields at 1. rewrite Hfields1. reflexivity.
Qed.

(** X16. [addENIaddressesToDataStore] calls nothing but the datastore and
    changes nothing of the manager but the datastore.  On an ENI the
    datastore does not hold it changes nothing at all.  On an ENI it holds,
    the addresses of the ENI afterwards are those it had and the
    non-primary addresses of the list, duplicates and addresses already
    registered being passed over; the records it had are kept as they were,
    and so are the other fields of the ENI, the other ENIs and the pod
    bindings. *)
Theorem addENIaddressesToDataStore_registers ec2Addrs eni c :
  (get eni (eniIPPools (ipamd.dataStore c)) = None ->
   ipamd.addENIaddressesToDataStore ec2Addrs eni c = ([], Returns (tt, c))) ∧
  (∀ e,
     get eni (eniIPPools (ipamd.dataStore c)) = Some e ->
     ∃ ds' e',
       ipamd.addENIaddressesToDataStore ec2Addrs eni c
         = ([], Returns (tt, ipamd.set_dataStore ds' c)) ∧
       get eni (eniIPPools ds') = Some e' ∧
       (∀ ip, is_Some (get ip (IPv4Addresses e')) <->
              is_Some (get ip (IPv4Addresses e)) ∨
              ∃ x, x ∈ ec2Addrs ∧ awsutils.BoolValue (awsutils.Primary x) = false ∧
                   awsutils.StringValue (awsutils.PrivateIpAddress x) = ip) ∧
       (∀ ip a, get ip (IPv4Addresses e) = Some a -> get ip (IPv4Addresses e') = Some a) ∧
       (∀ k, k ≠ eni -> get k (eniIPPools ds') = get k (eniIPPools (ipamd.dataStore c))) ∧
       podsIP ds' = podsIP (ipamd.dataStore c) ∧
       e' = set_IPv4Addresses (IPv4Addresses e') e).
Proof.
  split.
  - apply addENIaddressesToDataStore_unknown.
  - apply addENIaddressesToDataStore_known.
Qed.

Lemma addENIaddressesToDataStore_registers_witness :
  get "eni-z" (eniIPPools scenario.assigned_p) = None ∧
  ipamd.addENIaddressesToDataStore
    [awsutils.mkPrivateIpAddress (Some false) (Some "10.0.0.6")] "eni-z"
    (ipamd.mkIPAMD scenario.assigned_p 0 0 0)
  = ([], Returns (tt, ipamd.mkIPAMD scenario.assigned_p 0 0 0)) ∧
  ∃ e ds' e',
    get "eni-a" (eniIPPools scenario.assigned_p) = Some e ∧
    ipamd.addENIaddressesToDataStore
      [awsutils.mkPrivateIpAddress (Some true) (Some "10.0.0.4");
       awsutils.mkPrivateIpAddress (Some false) (Some "10.0.0.5");
       awsutils.mkPrivateIpAddress None (Some "10.0.0.6")] "eni-a"
      (ipamd.mkIPAMD scenario.assigned_p 0 0 0)
    = ([], Returns (tt, ipamd.mkIPAMD ds' 0 0 0)) ∧
    get "eni-a" (eniIPPools ds') = Some e' ∧
    is_Some (get "10.0.0.6" (IPv4Addresses e')).
Proof.
  assert (Hnone : get "eni-z" (eniIPPools scenario.assigned_p) = None)
    by (vm_compute; reflexivity).
  split; [ exact Hnone | ]. split.
  - apply (addENIaddressesToDataStore_registers
             [awsutils.mkPrivateIpAddress (Some false) (Some "10.0.0.6")] "eni-z"
             (ipamd.mkIPAMD scenario.assigned_p 0 0 0)). exact Hnone.
  - destruct (get "eni-a" (eniIPPools scenario.assigned_p)) as [e | ] eqn:He;
      [ | vm_compute in He; discriminate ].
    destruct (addENIaddressesToDataStore_registers
                [awsutils.mkPrivateIpAddress (Some true) (Some "10.0.0.4");
                 awsutils.mkPrivateIpAddress (Some false) (Some "10.0.0.5");
                 awsutils.mkPrivateIpAddress None (Some "10.0.0.6")] "eni-a"
                (ipamd.mkIPAMD scenario.assigned_p 0 0 0)) as (_ & Hknown).
    destruct (Hknown e He) as (ds' & e' & Hrun & He' & Hiff & _).
    exists e, ds', e'. split; [ reflexivity | ]. split; [ exact Hrun | ].
    split; [ exact He' | ]. apply Hiff. right.
    exists (awsutils.mkPrivateIpAddress None (Some "10.0.0.6")).
    split; [ | split; reflexivity ].
    apply elem_of_cons. right. apply elem_of_cons. right. apply elem_of_cons. now left.
Defined.

(** ** Setting up an ENI *)

Lemma getENIaddresses_run aws eni c :
  ipamd.getENIaddresses aws eni c =
    ([ipamd.Call_DescribeENI eni],
     Returns
       (match awsutils.DescribeENI aws eni with
        | inr err => inr ("fail to find eni addresses for eni " ++ eni ++ ": " ++ err)%string
        | inl ec2Addrs =>
            match find (fun a => awsutils.BoolValue (awsutils.Primary a)) ec2Addrs with
            | Some ec2Addr =>
                inl (ec2Addrs, awsutils.StringValue (awsutils.PrivateIpAddress ec2Addr))
            | None => inl ([], "")
            end
        end, c)).
Proof.
  unfold ipamd.getENIaddresses. rewrite run_emit.
  destruct (awsutils.DescribeENI aws eni) as [ec2Addrs | err]; [ | reflexivity ].
  now destruct (find _ ec2Addrs).
Qed.

Lemma addENIaddressesToDataStore_returns ec2Addrs eni c :
  ∃ ds', ipamd.addENIaddressesToDataStore ec2Addrs eni c
         = ([], Returns (tt, ipamd.set_dataStore ds' c)).
Proof.
  destruct (get eni (eniIPPools (ipamd.dataStore c))) as [e | ] eqn:He.
  - destruct (addENIaddressesToDataStore_known ec2Addrs eni c e He) as (ds' & _ & Hrun & _).
    eauto.
  - exists (ipamd.dataStore c). rewrite set_dataStore_same.
    now apply addENIaddressesToDataStore_unknown.
Qed.

Section SetupENI.
Import ipamd.

(** The run of [setupENI], cut at the call that describes the ENI and at
    the call that wires it into the host. *)
Lemma setupENI_run now aws eni eniMetadata c :
  let ds1 := (AddENI now eni (awsutils.DeviceNumber eniMetadata)
                (String.eqb eni (awsutils.GetPrimaryENI aws)) (ipamd.dataStore c)).2 in
  ipamd.setupENI now aws eni eniMetadata c =
  match awsutils.DescribeENI aws eni with
  | inr err =>
      ([ipamd.Call_DescribeENI eni],
       Returns
         (Some ("failed to retrieve eni " ++ eni ++ " ip addresses: " ++
                ("fail to find eni addresses for eni " ++ eni ++ ": " ++ err))%string,
          ipamd.set_dataStore ds1 c))
  | inl described =>
      let seen :=
        match find (fun a => awsutils.BoolValue (awsutils.Primary a)) described with
        | Some ec2Addr =>
            (described, awsutils.StringValue (awsutils.PrivateIpAddress ec2Addr))
        | None => ([], "")
        end in
      let c2 :=
        {| ipamd.dataStore := ds1;
           ipamd.currentMaxAddrsPerENI := len seen.1;
           ipamd.maxAddrsPerENI :=
             if ipamd.maxAddrsPerENI c <? len seen.1 then len seen.1
             else ipamd.maxAddrsPerENI c;
           ipamd.maxENI := ipamd.maxENI c |} in
      if String.eqb eni (awsutils.GetPrimaryENI aws)
      then
        ([ipamd.Call_DescribeENI eni],
         match (ipamd.addENIaddressesToDataStore seen.1 eni c2).2 with
         | Returns (_, c3) => Returns (None, c3)
         | Panics => Panics
         end)
      else
        match awsutils.SetupENINetwork aws seen.2 (awsutils.MAC eniMetadata)
                (awsutils.DeviceNumber eniMetadata) (awsutils.SubnetIPv4CIDR eniMetadata) with
        | Some err =>
            ([ipamd.Call_DescribeENI eni; ipamd.Call_SetupENINetwork eni],
             Returns
               (Some ("failed to setup eni " ++ eni ++ " network: " ++ err)%string, c2))
        | None =>
            ([ipamd.Call_DescribeENI eni; ipamd.Call_SetupENINetwork eni],
             match (ipamd.addENIaddressesToDataStore seen.1 eni c2).2 with
             | Returns (_, c3) => Returns (None, c3)
             | Panics => Panics
             end)
        end
  end.
Proof.
  intros ds1. unfold ipamd.setupENI. rewrite run_self.
  subst ds1.
  assert (Herr : ∃ err ds1,
            AddENI now eni (awsutils.DeviceNumber eniMetadata)
              (String.eqb eni (awsutils.GetPrimaryENI aws)) (ipamd.dataStore c) = (err, ds1) ∧
            match err with
            | Some e =>
                if negb (String.eqb (Error e) (Error DuplicatedENIError)) then Some e else None
            | None => None
            end = None).
  { destruct (AddENI_cases now eni (awsutils.DeviceNumber eniMetadata)
                (String.eqb eni (awsutils.GetPrimaryENI aws)) (ipamd.dataStore c))
      as [-> | [_ ->]]; eauto. }
  destruct Herr as (err & ds1 & -> & Herr). cbn [snd].
  rewrite run_modify, Herr. unfold ipamd.bind at 1. rewrite getENIaddresses_run.
  destruct (awsutils.DescribeENI aws eni) as [described | err']; [ | reflexivity ].
  assert (Hgo : ∀ (ec2Addrs : list awsutils.NetworkInterfacePrivateIpAddress)
                   (eniPrimaryIP : string),
    (let '(t', r) :=
       (ipamd.modify (ipamd.set_currentMaxAddrsPerENI (len ec2Addrs)) ;;;
        c1 <- ipamd.self ;;
        (if ipamd.maxAddrsPerENI c1 <? ipamd.currentMaxAddrsPerENI c1
         then ipamd.modify (ipamd.set_maxAddrsPerENI (ipamd.currentMaxAddrsPerENI c1))
         else ipamd.ret tt) ;;;
        wired <-
          (if negb (String.eqb eni (awsutils.GetPrimaryENI aws))
           then
             ipamd.emit (ipamd.Call_SetupENINetwork eni) ;;;
             ipamd.ret (awsutils.SetupENINetwork aws eniPrimaryIP (awsutils.MAC eniMetadata)
                          (awsutils.DeviceNumber eniMetadata)
                          (awsutils.SubnetIPv4CIDR eniMetadata))
           else ipamd.ret None) ;;
        match wired with
        | Some err =>
            ipamd.ret (Some ("failed to setup eni " ++ eni ++ " network: " ++ err)%string)
        | None => ipamd.addENIaddressesToDataStore ec2Addrs eni ;;; ipamd.ret None
        end) (ipamd.set_dataStore ds1 c) in
     (([ipamd.Call_DescribeENI eni] ++ t')%list, r)) =
    let c2 :=
      {| ipamd.dataStore := ds1;
         ipamd.currentMaxAddrsPerENI := len ec2Addrs;
         ipamd.maxAddrsPerENI :=
           if ipamd.maxAddrsPerENI c <? len ec2Addrs then len ec2Addrs
           else ipamd.maxAddrsPerENI c;
         ipamd.maxENI := ipamd.maxENI c |} in
    if String.eqb eni (awsutils.GetPrimaryENI aws)
    then
      ([ipamd.Call_DescribeENI eni],
       match (ipamd.addENIaddressesToDataStore ec2Addrs eni c2).2 with
       | Returns (_, c3) => Returns (None, c3)
       | Panics => Panics
       end)
    else
      match awsutils.SetupENINetwork aws eniPrimaryIP (awsutils.MAC eniMetadata)
              (awsutils.DeviceNumber eniMetadata) (awsutils.SubnetIPv4CIDR eniMetadata) with
      | Some err =>
          ([ipamd.Call_DescribeENI eni; ipamd.Call_SetupENINetwork eni],
           Returns (Some ("failed to setup eni " ++ eni ++ " network: " ++ err)%string, c2))
      | None =>
          ([ipamd.Call_DescribeENI eni; ipamd.Call_SetupENINetwork eni],
           match (ipamd.addENIaddressesToDataStore ec2Addrs eni c2).2 with
           | Returns (_, c3) => Returns (None, c3)
           | Panics => Panics
           end)
      end).
  { intros ec2Addrs eniPrimaryIP. rewrite run_modify, run_self.
    cbn [ipamd.maxAddrsPerENI ipamd.currentMaxAddrsPerENI ipamd.set_currentMaxAddrsPerENI
         ipamd.set_dataStore].
    cbv zeta.
    destruct (addENIaddressesToDataStore_returns ec2Addrs eni
                {| ipamd.dataStore := ds1;
                   ipamd.currentMaxAddrsPerENI := len ec2Addrs;
                   ipamd.maxAddrsPerENI :=
                     if ipamd.maxAddrsPerENI c <? len ec2Addrs then len ec2Addrs
                     else ipamd.maxAddrsPerENI c;
                   ipamd.maxENI := ipamd.maxENI c |}) as (ds' & Hrun).
    rewrite Hrun. cbn [snd].
    destruct (String.eqb eni (awsutils.GetPrimaryENI aws)); cbn [negb].
    - destruct (ipamd.maxAddrsPerENI c <? len ec2Addrs); cbv beta iota in Hrun |- *;
        unfold ipamd.bind, ipamd.modify, ipamd.ret, ipamd.set_maxAddrsPerENI,
          ipamd.set_currentMaxAddrsPerENI, ipamd.set_dataStore in Hrun |- *;
        cbn in Hrun |- *; rewrite Hrun; reflexivity.
    - destruct (awsutils.SetupENINetwork aws eniPrimaryIP _ _ _) as [e | ] eqn:Hwire.
      + destruct (ipamd.maxAddrsPerENI c <? len ec2Addrs);
          unfold ipamd.bind, ipamd.modify, ipamd.ret, ipamd.emit; cbn;
          reflexivity.
      + destruct (ipamd.maxAddrsPerENI c <? len ec2Addrs); cbv beta iota in Hrun |- *;
          unfold ipamd.bind, ipamd.modify, ipamd.ret, ipamd.emit, ipamd.set_maxAddrsPerENI,
            ipamd.set_currentMaxAddrsPerENI, ipamd.set_dataStore in Hrun |- *;
          cbn in Hrun |- *; rewrite Hrun; reflexivity. }
  destruct (find _ described) as [ec2Addr | ]; cbv zeta; cbn [fst snd]; apply Hgo.
Qed.
End SetupENI.

Lemma AddENI_holds now eniID deviceNumber isPrimary ds :
  is_Some (get eniID (eniIPPools (AddENI now eniID deviceNumber isPrimary ds).2)) ∧
  GetStats (AddENI now eniID deviceNumber isPrimary ds).2 = GetStats ds ∧
  podsIP (AddENI now eniID deviceNumber isPrimary ds).2 = podsIP ds.
Proof.
  unfold AddENI. destruct (get eniID (eniIPPools ds)) as [e | ] eqn:He; cbn [snd].
  - rewrite He. eauto.
  - cbn [eniIPPools set_eniIPPools]. rewrite get_put_eq. eauto.
Qed.

(** X17. When [setupENI] returns an error, the ENI is nevertheless in the
    datastore: the datastore is the one [AddENI] left, with no address
    added, the counters and the bindings as before, and [maxENI] is as
    before.  The error is that of the call describing the ENI, made alone
    and before any capacity is recorded, or that of wiring a non-primary
    ENI into the host, after the description. *)
Theorem setupENI_failed now aws eni eniMetadata c t err c' :
  ipamd.setupENI now aws eni eniMetadata c = (t, Returns (Some err, c')) ->
  ipamd.dataStore c' =
    (AddENI now eni (awsutils.DeviceNumber eniMetadata)
       (String.eqb eni (awsutils.GetPrimaryENI aws)) (ipamd.dataStore c)).2 ∧
  is_Some (get eni (eniIPPools (ipamd.dataStore c'))) ∧
  GetStats (ipamd.dataStore c') = GetStats (ipamd.dataStore c) ∧
  podsIP (ipamd.dataStore c') = podsIP (ipamd.dataStore c) ∧
  ipamd.maxENI c' = ipamd.maxENI c ∧
  ((∃ e, awsutils.DescribeENI aws eni = inr e ∧ t = [ipamd.Call_DescribeENI eni] ∧
         ipamd.currentMaxAddrsPerENI c' = ipamd.currentMaxAddrsPerENI c ∧
         ipamd.maxAddrsPerENI c' = ipamd.maxAddrsPerENI c) ∨
   (eni ≠ awsutils.GetPrimaryENI aws ∧
    t = [ipamd.Call_DescribeENI eni; ipamd.Call_SetupENINetwork eni] ∧
    ∃ described, awsutils.DescribeENI aws eni = inl described)).
Proof.
  pose proof (setupENI_run now aws eni eniMetadata c) as Hrun. cbv zeta in Hrun.
  rewrite Hrun. clear Hrun.
  pose proof (AddENI_holds now eni (awsutils.DeviceNumber eniMetadata)
                (String.eqb eni (awsutils.GetPrimaryENI aws)) (ipamd.dataStore c))
    as (Hheld & Hstats & Hpods).
  assert (Hok : ∀ ec2Addrs c2 (r : outcome (option string * ipamd.IPAMD)),
            match (ipamd.addENIaddressesToDataStore ec2Addrs eni c2).2 with
            | Returns (_, c3) => Returns (None, c3)
            | Panics => Panics
            end = r -> r ≠ Returns (Some err, c')).
  { intros ec2Addrs c2 r <-.
    destruct (addENIaddressesToDataStore_returns ec2Addrs eni c2) as (ds' & ->).
    discriminate. }
  destruct (awsutils.DescribeENI aws eni) as [described | e].
  - destruct (String.eqb_spec eni (awsutils.GetPrimaryENI aws)) as [Heq | Hne].
    + intros [= _ H]. now apply Hok in H.
    + destruct (awsutils.SetupENINetwork aws _ _ _ _) as [e | ].
      * intros [= <- _ <-]. cbn [ipamd.dataStore ipamd.maxENI]. eauto 10.
      * intros [= _ H]. now apply Hok in H.
  - intros [= <- _ <-]. cbn [ipamd.dataStore ipamd.maxENI ipamd.set_dataStore
                               ipamd.currentMaxAddrsPerENI ipamd.maxAddrsPerENI].
    eauto 12.
Qed.

Lemma setupENI_failed_witness :
  ∃ t err c',
    ipamd.setupENI 100 clouds.not_describing "eni-b" clouds.eni_b scenario.manager_1_free
      = (t, Returns (Some err, c')) ∧
    is_Some (get "eni-b" (eniIPPools (ipamd.dataStore c'))) ∧
    GetStats (ipamd.dataStore c') = (1, 0).
Proof.
  eexists _, _, _.
  assert (Hrun : ipamd.setupENI 100 clouds.not_describing "eni-b" clouds.eni_b
                   scenario.manager_1_free
                 = ([ipamd.Call_DescribeENI "eni-b"],
                    Returns
                      (Some
                         ("failed to retrieve eni eni-b ip addresses: " ++
                          "fail to find eni addresses for eni eni-b: RequestLimitExceeded")%string,
                       ipamd.set_dataStore
                         (AddENI 100 "eni-b" 2 false scenario.registered).2
                         scenario.manager_1_free)))
    by (vm_compute; reflexivity).
  split; [ exact Hrun | ].
  destruct (setupENI_failed _ _ _ _ _ _ _ _ Hrun) as (_ & Hheld & Hstats & _).
  split; [ exact Hheld | ]. rewrite Hstats. reflexivity.
Defined.

(** X18. [setupENI] of an ENI the datastore does not hold, described by
    the cloud and wired into the host without error, returns no error and
    leaves the ENI registered with the creation time, the device number and
    the primary flag of the call and no assigned address; the other ENIs,
    the bindings and [maxENI] are as before.  When the description has a
    primary address, the ENI holds exactly the non-primary addresses of the
    description, [currentMaxAddrsPerENI] is the length of the description
    and [maxAddrsPerENI] the larger of its value and that length.  When no
    address of the description is primary, no address is registered and
    [currentMaxAddrsPerENI] is 0, still without error. *)
Theorem setupENI_fresh now aws eni eniMetadata c described :
  get eni (eniIPPools (ipamd.dataStore c)) = None ->
  awsutils.DescribeENI aws eni = inl described ->
  (eni = awsutils.GetPrimaryENI aws ∨
   ∀ ip, awsutils.SetupENINetwork aws ip (awsutils.MAC eniMetadata)
           (awsutils.DeviceNumber eniMetadata) (awsutils.SubnetIPv4CIDR eniMetadata) = None) ->
  ∃ t c' e',
    ipamd.setupENI now aws eni eniMetadata c = (t, Returns (None, c')) ∧
    get eni (eniIPPools (ipamd.dataStore c')) = Some e' ∧
    e' = set_IPv4Addresses (IPv4Addresses e')
           (new_eni now eni (awsutils.DeviceNumber eniMetadata)
              (String.eqb eni (awsutils.GetPrimaryENI aws))) ∧
    (∀ k, k ≠ eni ->
          get k (eniIPPools (ipamd.dataStore c')) = get k (eniIPPools (ipamd.dataStore c))) ∧
    podsIP (ipamd.dataStore c') = podsIP (ipamd.dataStore c) ∧
    ipamd.maxENI c' = ipamd.maxENI c ∧
    ((∃ a, a ∈ described ∧ awsutils.BoolValue (awsutils.Primary a) = true) ->
     ipamd.currentMaxAddrsPerENI c' = len described ∧
     ipamd.maxAddrsPerENI c' = Z.max (ipamd.maxAddrsPerENI c) (len described) ∧
     ∀ ip, is_Some (get ip (IPv4Addresses e')) <->
           ∃ x, x ∈ described ∧ awsutils.BoolValue (awsutils.Primary x) = false ∧
                awsutils.StringValue (awsutils.PrivateIpAddress x) = ip) ∧
    ((∀ a, a ∈ described -> awsutils.BoolValue (awsutils.Primary a) = false) ->
     ipamd.currentMaxAddrsPerENI c' = 0 ∧
     ipamd.maxAddrsPerENI c' = Z.max (ipamd.maxAddrsPerENI c) 0 ∧
     IPv4Addresses e' = []).
Proof.
  intros Hnone Hdesc Hwire.
  pose proof (setupENI_run now aws eni eniMetadata c) as Hrun. cbv zeta in Hrun.
  rewrite Hdesc in Hrun.
  destruct (AddENI_cases now eni (awsutils.DeviceNumber eniMetadata)
              (String.eqb eni (awsutils.GetPrimaryENI aws)) (ipamd.dataStore c))
    as [Hdup | [_ Hnew]].
  { unfold AddENI in Hdup. rewrite Hnone in Hdup. discriminate. }
  rewrite Hnew in Hrun. cbn [snd] in Hrun.
  set (e0 := new_eni now eni (awsutils.DeviceNumber eniMetadata)
               (String.eqb eni (awsutils.GetPrimaryENI aws))) in *.
  set (ds1 := set_eniIPPools (eniIPPools (ipamd.dataStore c) ++ [(eni, e0)])
                (ipamd.dataStore c)) in *.
  set (seen := match find (fun a => awsutils.BoolValue (awsutils.Primary a)) described with
               | Some ec2Addr =>
                   (described, awsutils.StringValue (awsutils.PrivateIpAddress ec2Addr))
               | None => ([], "")
               end) in *.
  set (c2 := {| ipamd.dataStore := ds1;
                ipamd.currentMaxAddrsPerENI := len seen.1;
                ipamd.maxAddrsPerENI :=
                  if ipamd.maxAddrsPerENI c <? len seen.1 then len seen.1
                  else ipamd.maxAddrsPerENI c;
                ipamd.maxENI := ipamd.maxENI c |}) in *.
  assert (He0 : get eni (eniIPPools (ipamd.dataStore c2)) = Some e0).
  { cbn [ipamd.dataStore c2]. unfold ds1. cbn [eniIPPools set_eniIPPools].
    rewrite get_app, Hnone. simpl. now rewrite String.eqb_refl. }
  destruct (addENIaddressesToDataStore_known seen.1 eni c2 e0 He0)
    as (ds' & e' & Hadd & He' & Hiff & _ & Hothers & Hpods & Hfields).
  assert (Hgo : ∃ t,
            ipamd.setupENI now aws eni eniMetadata c
              = (t, Returns (None, ipamd.set_dataStore ds' c2))).
  { rewrite Hrun, Hadd. cbn [snd].
    destruct (String.eqb_spec eni (awsutils.GetPrimaryENI aws)) as [Heq | Hne]; [ eauto | ].
    destruct Hwire as [Heq | Hwire]; [ contradiction | ]. rewrite Hwire. eauto. }
  destruct Hgo as (t & Hgo). exists t, (ipamd.set_dataStore ds' c2), e'.
  split; [ exact Hgo | ]. cbn [ipamd.dataStore ipamd.set_dataStore ipamd.maxENI c2
                                ipamd.currentMaxAddrsPerENI ipamd.maxAddrsPerENI].
  split; [ exact He' | ]. split; [ exact Hfields | ].
  split.
  { intros k Hk. rewrite (Hothers k Hk). cbn [ipamd.dataStore c2]. unfold ds1.
    cbn [eniIPPools set_eniIPPools]. rewrite get_app. destruct (get k _); [ reflexivity | ].
    simpl. destruct (String.eqb_spec k eni); [ contradiction | reflexivity ]. }
  split; [ exact Hpods | ]. split; [ reflexivity | ].
  assert (Hmax : ∀ n, (if ipamd.maxAddrsPerENI c <? n then n else ipamd.maxAddrsPerENI c)
                      = Z.max (ipamd.maxAddrsPerENI c) n).
  { intros n. destruct (Z.ltb_spec (ipamd.maxAddrsPerENI c) n); lia. }
  rewrite Hmax. split.
  - intros (a & Hin & Hprim).
    destruct (find (fun a => awsutils.BoolValue (awsutils.Primary a)) described)
      as [ec2Addr | ] eqn:Hfind.
    + subst seen. cbn [fst] in *. split; [ reflexivity | ]. split; [ reflexivity | ].
      intros ip. rewrite Hiff. cbn [IPv4Addresses e0 new_eni]. split.
      * intros [[x Hx] | H]; [ discriminate | exact H ].
      * intros H. now right.
    + apply list_elem_of_In in Hin. apply (find_none _ _ Hfind) in Hin.
      simpl in Hin. congruence.
  - intros Hall.
    destruct (find (fun a => awsutils.BoolValue (awsutils.Primary a)) described)
      as [ec2Addr | ] eqn:Hfind.
    + apply find_some in Hfind. destruct Hfind as (Hin & Hprim).
      apply list_elem_of_In in Hin. apply Hall in Hin. congruence.
    + subst seen. cbn [fst] in *. split; [ reflexivity | ]. split; [ reflexivity | ].
      destruct (IPv4Addresses e') as [ | [ip a] rest] eqn:Hl; [ reflexivity | exfalso ].
      assert (Hsome : is_Some (get ip ((ip, a) :: rest))).
      { simpl. rewrite String.eqb_refl. eauto. }
      apply Hiff in Hsome. destruct Hsome as [[x Hx] | (x & Hx & _)]; [ discriminate | ].
      now apply elem_of_nil in Hx.
Qed.

Lemma setupENI_fresh_witness :
  get "eni-b" (eniIPPools (ipamd.dataStore scenario.manager_1_free)) = None ∧
  ∃ t c' e',
    ipamd.setupENI 100 clouds.granting "eni-b" clouds.eni_b scenario.manager_1_free
      = (t, Returns (None, c')) ∧
    get "eni-b" (eniIPPools (ipamd.dataStore c')) = Some e' ∧
    ipamd.currentMaxAddrsPerENI c' = 3 ∧
    is_Some (get "10.0.1.3" (IPv4Addresses e')).
Proof.
  assert (Hnone : get "eni-b" (eniIPPools (ipamd.dataStore scenario.manager_1_free)) = None)
    by (vm_compute; reflexivity).
  split; [ exact Hnone | ].
  destruct (setupENI_fresh 100 clouds.granting "eni-b" clouds.eni_b scenario.manager_1_free
              [awsutils.mkPrivateIpAddress (Some true) (Some "10.0.1.1");
               awsutils.mkPrivateIpAddress (Some false) (Some "10.0.1.2");
               awsutils.mkPrivateIpAddress None (Some "10.0.1.3")]
              Hnone eq_refl (or_intror (fun _ => eq_refl)))
    as (t & c' & e' & Hrun & He' & _ & _ & _ & _ & Hprimary & _).
  destruct Hprimary as (Hcur & _ & Hiff).
  { exists (awsutils.mkPrivateIpAddress (Some true) (Some "10.0.1.1")).
    split; [ apply elem_of_cons; now left | reflexivity ]. }
  exists t, c', e'. split; [ exact Hrun | ]. split; [ exact He' | ].
  split; [ exact Hcur | ]. apply Hiff.
  exists (awsutils.mkPrivateIpAddress None (Some "10.0.1.3")).
  split; [ | split; reflexivity ].
  apply elem_of_cons. right. apply elem_of_cons. right. apply elem_of_cons. now left.
Defined.

(** ** Growing the pool *)

Lemma increaseIPPool_alloc now aws c :
  ¬ at_max_ENI c ->
  ipamd.increaseIPPool now aws c =
    match awsutils.AllocENI aws with
    | inr err =>
        ([ipamd.Enter_increaseIPPool; ipamd.Call_AllocENI],
         Returns (tt, if ipamd.isAttachmentLimitExceededError err
                      then ipamd.set_maxENI (GetENIs (ipamd.dataStore c)) c
                      else c))
    | inl eni =>
        match ipamd.waitENIAttached aws eni c with
        | (tw, Returns (inr _, c1)) =>
            (ipamd.Enter_increaseIPPool :: ipamd.Call_AllocENI ::
             ipamd.Call_AllocAllIPAddress eni :: tw, Returns (tt, c1))
        | (tw, Returns (inl eniMetadata, c1)) =>
            match ipamd.setupENI now aws eni eniMetadata c1 with
            | (ts, Returns (_, c2)) =>
                (ipamd.Enter_increaseIPPool :: ipamd.Call_AllocENI ::
                 ipamd.Call_AllocAllIPAddress eni :: tw ++ ts, Returns (tt, c2))
            | (ts, Panics) =>
                (ipamd.Enter_increaseIPPool :: ipamd.Call_AllocENI ::
                 ipamd.Call_AllocAllIPAddress eni :: tw ++ ts, Panics)
            end
        | (tw, Panics) =>
            (ipamd.Enter_increaseIPPool :: ipamd.Call_AllocENI ::
             ipamd.Call_AllocAllIPAddress eni :: tw, Panics)
        end
    end.
Proof.
  intros Hnot.
  assert (Htest : (0 <? ipamd.maxENI c)
                  && (ipamd.maxENI c =? GetENIs (ipamd.dataStore c)) = false).
  { apply not_true_is_false. intros H. apply Hnot. now apply at_max_ENI_test. }
  unfold ipamd.increaseIPPool, ipamd.bind, ipamd.emit, ipamd.self, ipamd.ret, ipamd.modify.
  rewrite Htest.
  destruct (awsutils.AllocENI aws) as [eni | err].
  - destruct (ipamd.waitENIAttached aws eni c) as [tw [[[eniMetadata | e] c1] | ]];
      [ | cbn [app]; now rewrite app_nil_r | reflexivity ].
    destruct (ipamd.setupENI now aws eni eniMetadata c1) as [ts [[r c2] | ]];
      cbn [app]; [ now rewrite app_nil_r | reflexivity ].
  - now destruct (ipamd.isAttachmentLimitExceededError err).
Qed.

(** X19. A grow attempt that fails before an ENI is set up leaves the
    manager as it was.  When [AllocENI] fails with an error that is not the
    attachment limit, that call is the only one made.  When [AllocENI]
    grants an ENI that none of five readings of the metadata shows, the
    manager has asked for the addresses of the ENI and read the metadata
    five times, and nothing of the granted ENI is recorded: neither the
    datastore nor [maxENI] has changed. *)
Theorem increaseIPPool_gives_up now aws c :
  ¬ at_max_ENI c ->
  (∀ err,
     awsutils.AllocENI aws = inr err ->
     ipamd.isAttachmentLimitExceededError err = false ->
     ipamd.increaseIPPool now aws c =
       ([ipamd.Enter_increaseIPPool; ipamd.Call_AllocENI], Returns (tt, c))) ∧
  (∀ eni,
     awsutils.AllocENI aws = inl eni ->
     (∀ i, (i < 5)%nat -> not_shown aws eni i) ->
     ipamd.increaseIPPool now aws c =
       (ipamd.Enter_increaseIPPool :: ipamd.Call_AllocENI ::
        ipamd.Call_AllocAllIPAddress eni :: repeat ipamd.Call_GetAttachedENIs 5,
        Returns (tt, c))).
Proof.
  intros Hnot. split.
  - intros err Halloc Hother. rewrite (increaseIPPool_alloc _ _ _ Hnot), Halloc, Hother.
    reflexivity.
  - intros eni Halloc Hnever. rewrite (increaseIPPool_alloc _ _ _ Hnot), Halloc.
    destruct (waitENIAttached_loop_polls aws eni ipamd.maxRetryCheckENI 0 c)
      as (n & r & Hrun & Hle & _ & Hr).
    unfold ipamd.waitENIAttached. rewrite Hrun.
    destruct r as [m | e].
    + exfalso. destruct Hr as (Hid & Hn & enis & Hans & Hin).
      unfold ipamd.maxRetryCheckENI in Hle.
      assert (Hi : (0 + n - 1 < 5)%nat) by lia.
      specialize (Hnever _ Hi). unfold not_shown in Hnever. rewrite Hans in Hnever.
      exact (Hnever m Hin Hid).
    + destruct Hr as (-> & _). reflexivity.
Qed.

Lemma increaseIPPool_gives_up_witness :
  ¬ at_max_ENI scenario.manager_1_free ∧
  ipamd.increaseIPPool 100
    {| awsutils.AllocENI := inl "eni-c";
       awsutils.AllocAllIPAddress := fun _ => None;
       awsutils.GetAttachedENIs := fun _ => inl [clouds.eni_b];
       awsutils.DescribeENI := fun _ => inl [];
       awsutils.GetPrimaryENI := "eni-a";
       awsutils.SetupENINetwork := fun _ _ _ _ => None |}
    scenario.manager_1_free
  = (ipamd.Enter_increaseIPPool :: ipamd.Call_AllocENI ::
     ipamd.Call_AllocAllIPAddress "eni-c" :: repeat ipamd.Call_GetAttachedENIs 5,
     Returns (tt, scenario.manager_1_free)).
Proof.
  assert (Hnot : ¬ at_max_ENI scenario.manager_1_free).
  { intros (Hpos & _). vm_compute in Hpos. discriminate. }
  split; [ exact Hnot | ].
  apply (increaseIPPool_gives_up 100 _ scenario.manager_1_free Hnot); [ reflexivity | ].
  intros i _ m Hin. cbn in Hin. apply list_elem_of_singleton in Hin. subst m.
  vm_compute. congruence.
Defined.

(** X20. The limit of ENIs the manager has discovered does not outlive the
    ENIs it counted: when the manager is at its limit and [decreaseIPPool]
    frees an ENI, the manager is no longer at its limit, and the next grow
    attempt calls [AllocENI] again. *)
Theorem freed_ENI_reopens_allocation now now' aws c :
  wf (ipamd.dataStore c) ->
  at_max_ENI c ->
  (∃ k e, (k, e) ∈ eniIPPools (ipamd.dataStore c) ∧ deletable now e) ->
  ∃ t c',
    ipamd.decreaseIPPool now c = (t, Returns (tt, c')) ∧
    ipamd.maxENI c' = ipamd.maxENI c ∧
    GetENIs (ipamd.dataStore c') = ipamd.maxENI c - 1 ∧
    ¬ at_max_ENI c' ∧
    ∃ t', (ipamd.increaseIPPool now' aws c').1
          = ipamd.Enter_increaseIPPool :: ipamd.Call_AllocENI :: t'.
Proof.
  intros Hwf (Hpos & Hmax) (k0 & e0 & Hin0 & Hdel0). rewrite decreaseIPPool_run.
  destruct (FreeENI_cases now _ Hwf) as [Herr | (eni & ds' & Hok)].
  { exfalso. unfold FreeENI in Herr.
    destruct (getDeletableENI now (eniIPPools (ipamd.dataStore c))) as [e | ] eqn:Hsel.
    - destruct (get (id e) (eniIPPools (ipamd.dataStore c))); discriminate.
    - apply getDeletableENI_None in Hsel. rewrite Forall_forall in Hsel.
      exact (Hsel _ Hin0 Hdel0). }
  rewrite Hok.
  destruct (FreeENI_Ok _ _ _ _ Hwf Hok) as (pre & e & post & Hpools & _ & _ & _ & Hds').
  eexists _, _. split; [ reflexivity | ].
  cbn [ipamd.maxENI ipamd.dataStore ipamd.set_dataStore].
  assert (Hcount : GetENIs ds' = ipamd.maxENI c - 1).
  { rewrite Hmax, Hds'. unfold GetENIs, len. cbn [eniIPPools].
    rewrite Hpools, !length_app. simpl. lia. }
  assert (Hnot : ¬ at_max_ENI (ipamd.set_dataStore ds' c)).
  { intros (_ & Hmax'). cbn [ipamd.maxENI ipamd.dataStore ipamd.set_dataStore] in Hmax'.
    lia. }
  split; [ reflexivity | ]. split; [ exact Hcount | ]. split; [ exact Hnot | ].
  rewrite (increaseIPPool_alloc _ _ _ Hnot).
  destruct (awsutils.AllocENI aws) as [eni' | err]; [ | eauto ].
  destruct (ipamd.waitENIAttached aws eni' _) as [tw [[[eniMetadata | e'] c1] | ]];
    [ | eauto | eauto ].
  destruct (ipamd.setupENI now' aws eni' eniMetadata c1) as [ts [[r c2] | ]]; eauto.
Qed.

Lemma freed_ENI_reopens_allocation_witness :
  wf scenario.secondary ∧
  at_max_ENI (ipamd.mkIPAMD scenario.secondary 0 0 1) ∧
  ∃ t c',
    ipamd.decreaseIPPool (65 * time.Second) (ipamd.mkIPAMD scenario.secondary 0 0 1)
      = (t, Returns (tt, c')) ∧
    ¬ at_max_ENI c'.
Proof.
  assert (Hwf : wf scenario.secondary) by (apply (bool_decide_unpack _); vm_compute; exact I).
  assert (Hmax : at_max_ENI (ipamd.mkIPAMD scenario.secondary 0 0 1))
    by (split; reflexivity).
  split; [ exact Hwf | ]. split; [ exact Hmax | ].
  destruct (freed_ENI_reopens_allocation (65 * time.Second) 70 scenario.cloud_at_limit
              (ipamd.mkIPAMD scenario.secondary 0 0 1) Hwf Hmax)
    as (t & c' & Hrun & _ & _ & Hnot & _).
  - exists "eni-b", (mkENIIPPool 0 0 false "eni-b" 2 0 []).
    split; [ vm_compute; apply elem_of_cons; left; reflexivity | ].
    repeat split; vm_compute; congruence.
  - exists t, c'. split; [ exact Hrun | exact Hnot ].
Defined.

(** * Further properties: introspection *)

Lemma reportPods_from l :
  ∀ (m : gmap string PodIPInfo) s info,
    reportPods l m !! s = Some info ->
    (∃ podKey, (podKey, info) ∈ l ∧ podInfoKey podKey = s) ∨ m !! s = Some info.
Proof.
  induction l as [ | [k v] l IH]; intros m s info; simpl; [ now right | ].
  intros H. apply IH in H. destruct H as [(podKey & Hin & Hs) | H].
  - left. exists podKey. split; [ apply elem_of_cons; now right | exact Hs ].
  - apply lookup_insert_Some in H. destruct H as [[<- <-] | [_ H]]; [ left | now right ].
    exists k. split; [ apply elem_of_cons; now left | reflexivity ].
Qed.

Lemma reportPods_holds l :
  ∀ (m : gmap string PodIPInfo) s,
    (∃ podKey info, (podKey, info) ∈ l ∧ podInfoKey podKey = s) ∨ is_Some (m !! s) ->
    is_Some (reportPods l m !! s).
Proof.
  induction l as [ | [k v] l IH]; intros m s; simpl.
  - intros [(podKey & info & Hin & _) | H]; [ now apply elem_of_nil in Hin | exact H ].
  - intros [(podKey & info & Hin & Hs) | H]; apply IH.
    + apply elem_of_cons in Hin. destruct Hin as [[= -> ->] | Hin].
      * right. rewrite Hs. rewrite lookup_insert_eq. eauto.
      * left. eauto.
    + right. apply lookup_insert_is_Some. destruct (decide (podInfoKey k = s)); auto.
Qed.

Lemma reportPods_size l :
  ∀ m : gmap string PodIPInfo, (size (reportPods l m) <= size m + length l)%nat.
Proof.
  induction l as [ | [k v] l IH]; intros m; simpl; [ lia | ].
  specialize (IH (<[podInfoKey k := v]> m)).
  destruct (m !! podInfoKey k) as [x | ] eqn:Hk.
  - rewrite map_size_insert_Some in IH by eauto. lia.
  - rewrite map_size_insert_None in IH by assumption. lia.
Qed.

Lemma reportPods_size_held l :
  ∀ m : gmap string PodIPInfo,
    (∃ podKey, podKey ∈ l.*1 ∧ is_Some (m !! podInfoKey podKey)) ->
    (size (reportPods l m) < size m + length l)%nat.
Proof.
  induction l as [ | [k v] l IH]; intros m (podKey & Hin & Hheld); simpl in *.
  - now apply elem_of_nil in Hin.
  - apply elem_of_cons in Hin. destruct Hin as [-> | Hin].
    + pose proof (reportPods_size l (<[podInfoKey k := v]> m)) as Hle.
      rewrite map_size_insert_Some in Hle by assumption. lia.
    + assert (Hlt : (size (reportPods l (<[podInfoKey k := v]> m))
                     < size (<[podInfoKey k := v]> m) + length l)%nat).
      { apply IH. exists podKey. split; [ exact Hin | ].
        apply lookup_insert_is_Some. destruct (decide (podInfoKey k = podInfoKey podKey)); auto. }
      destruct (m !! podInfoKey k) as [x | ] eqn:Hk.
      * rewrite map_size_insert_Some in Hlt by eauto. lia.
      * rewrite map_size_insert_None in Hlt by assumption. lia.
Qed.

Lemma reportPods_size_merged l :
  ∀ (m : gmap string PodIPInfo) key1 key2,
    key1 ∈ l.*1 -> key2 ∈ l.*1 -> key1 ≠ key2 -> podInfoKey key1 = podInfoKey key2 ->
    (size (reportPods l m) < size m + length l)%nat.
Proof.
  induction l as [ | [k v] l IH]; intros m key1 key2 H1 H2 Hne Hsame; simpl in *.
  - now apply elem_of_nil in H1.
  - assert (Hstep : (size (<[podInfoKey k := v]> m) <= S (size m))%nat).
    { destruct (m !! podInfoKey k) as [x | ] eqn:Hk.
      - rewrite map_size_insert_Some by eauto. lia.
      - rewrite map_size_insert_None by assumption. lia. }
    assert (Hone : ∀ key, key ∈ l.*1 -> podInfoKey key = podInfoKey k ->
              (size (reportPods l (<[podInfoKey k := v]> m)) < S (size m + length l))%nat).
    { intros key Hin Hk.
      pose proof (reportPods_size_held l (<[podInfoKey k := v]> m)) as Hlt.
      assert ((size (reportPods l (<[podInfoKey k := v]> m))
               < size (<[podInfoKey k := v]> m) + length l)%nat); [ | lia ].
      apply Hlt. exists key. split; [ exact Hin | ]. rewrite Hk, lookup_insert_eq. eauto. }
    apply elem_of_cons in H1, H2. destruct H1 as [-> | H1], H2 as [-> | H2].
    + contradiction.
    + pose proof (Hone key2 H2 (eq_sym Hsame)). lia.
    + pose proof (Hone key1 H1 Hsame). lia.
    + specialize (IH (<[podInfoKey k := v]> m) key1 key2 H1 H2 Hne Hsame). lia.
Qed.

(** X21. [GetPodInfos], in whatever order it visits the bindings: every
    entry it reports is a binding of the datastore, under the key made of
    the name, the namespace and the container of the pod joined by
    underscores; every binding has an entry under its key; a binding whose
    key no other bound pod yields is reported with its own IP and device
    number; and the report has at most as many entries as the datastore
    has bindings. *)
Theorem GetPodInfos_reports ds l :
  l ≡ₚ map_to_list (podsIP ds) ->
  (∀ s info,
     reportPods l ∅ !! s = Some info ->
     ∃ podKey, podsIP ds !! podKey = Some info ∧ podInfoKey podKey = s) ∧
  (∀ podKey info,
     podsIP ds !! podKey = Some info -> is_Some (reportPods l ∅ !! podInfoKey podKey)) ∧
  (∀ podKey info,
     podsIP ds !! podKey = Some info ->
     (∀ podKey', is_Some (podsIP ds !! podKey') ->
                 podInfoKey podKey' = podInfoKey podKey -> podKey' = podKey) ->
     reportPods l ∅ !! podInfoKey podKey = Some info) ∧
  (size (reportPods l ∅) <= size (podsIP ds))%nat.
Proof.
  intros Hl.
  assert (Hin : ∀ podKey info, (podKey, info) ∈ l <-> podsIP ds !! podKey = Some info).
  { intros podKey info. rewrite Hl. apply elem_of_map_to_list. }
  assert (Hfrom : ∀ s info,
            reportPods l ∅ !! s = Some info ->
            ∃ podKey, podsIP ds !! podKey = Some info ∧ podInfoKey podKey = s).
  { intros s info H. apply reportPods_from in H.
    destruct H as [(podKey & Hk & Hs) | H]; [ | now rewrite lookup_empty in H ].
    exists podKey. split; [ now apply Hin | exact Hs ]. }
  assert (Hholds : ∀ podKey info,
            podsIP ds !! podKey = Some info ->
            is_Some (reportPods l ∅ !! podInfoKey podKey)).
  { intros podKey info H. apply reportPods_holds. left.
    exists podKey, info. split; [ now apply Hin | reflexivity ]. }
  split; [ exact Hfrom | ]. split; [ exact Hholds | ]. split.
  - intros podKey info Hbound Honly.
    destruct (Hholds _ _ Hbound) as [info' Hrep]. rewrite Hrep.
    destruct (Hfrom _ _ Hrep) as (podKey' & Hbound' & Hs).
    rewrite (Honly podKey') in Hbound' by eauto. congruence.
  - pose proof (reportPods_size l ∅) as Hle.
    rewrite map_size_empty, (Permutation_length Hl), length_map_to_list in Hle. exact Hle.
Qed.

Lemma GetPodInfos_reports_witness :
  map_to_list (podsIP scenario.assigned_p) ≡ₚ map_to_list (podsIP scenario.assigned_p) ∧
  GetPodInfos scenario.assigned_p !! "p_d_c"
    = Some {| IP := "10.0.0.5"; PodDeviceNumber := 1 |}.
Proof.
  split; [ reflexivity | ].
  destruct (GetPodInfos_reports scenario.assigned_p
              (map_to_list (podsIP scenario.assigned_p)) (reflexivity _))
    as (_ & _ & Hexact & _).
  apply (Hexact (NewPodKey scenario.pod_p)).
  - vm_compute. reflexivity.
  - intros podKey' [info Hbound] _.
    destruct (decide (podKey' = NewPodKey scenario.pod_p)) as [-> | Hne]; [ reflexivity | ].
    exfalso. unfold scenario.assigned_p in Hbound.
    change (podsIP (AssignPodIPv4Address scenario.pod_p scenario.registered).2)
      with (<[NewPodKey scenario.pod_p := {| IP := "10.0.0.5"; PodDeviceNumber := 1 |}]>
              (∅ : gmap PodKey PodIPInfo)) in Hbound.
    rewrite lookup_insert_ne, lookup_empty in Hbound by congruence. discriminate.
Defined.

(** X22. The keys of [GetPodInfos] do not tell all pods apart: when two
    bound pods differ but yield the same key (the separator may occur in a
    name or a namespace), the report, in whatever order it is built, has
    fewer entries than the datastore has bindings. *)
Theorem GetPodInfos_merges ds l key1 key2 :
  l ≡ₚ map_to_list (podsIP ds) ->
  is_Some (podsIP ds !! key1) -> is_Some (podsIP ds !! key2) ->
  key1 ≠ key2 -> podInfoKey key1 = podInfoKey key2 ->
  (size (reportPods l ∅) < size (podsIP ds))%nat.
Proof.
  intros Hl [info1 H1] [info2 H2] Hne Hsame.
  assert (Hkeys : ∀ key info, podsIP ds !! key = Some info -> key ∈ l.*1).
  { intros key info H. apply list_elem_of_fmap. exists (key, info).
    split; [ reflexivity | ]. rewrite Hl. now apply elem_of_map_to_list. }
  pose proof (reportPods_size_merged l ∅ key1 key2
                (Hkeys _ _ H1) (Hkeys _ _ H2) Hne Hsame) as Hlt.
  rewrite map_size_empty, (Permutation_length Hl), length_map_to_list in Hlt. exact Hlt.
Qed.

Lemma GetPodInfos_merges_witness :
  NewPodKey pods.pod_ab_c ≠ NewPodKey pods.pod_a_bc ∧
  podInfoKey (NewPodKey pods.pod_ab_c) = podInfoKey (NewPodKey pods.pod_a_bc) ∧
  (size (GetPodInfos pods.both_bound) < size (podsIP pods.both_bound))%nat.
Proof.
  assert (Hne : NewPodKey pods.pod_ab_c ≠ NewPodKey pods.pod_a_bc) by discriminate.
  split; [ exact Hne | ]. split; [ reflexivity | ].
  apply (GetPodInfos_merges pods.both_bound (map_to_list (podsIP pods.both_bound))
           (NewPodKey pods.pod_ab_c) (NewPodKey pods.pod_a_bc)).
  - reflexivity.
  - exists {| IP := "10.0.0.5"; PodDeviceNumber := 1 |}. vm_compute. reflexivity.
  - exists {| IP := "10.0.0.6"; PodDeviceNumber := 1 |}. vm_compute. reflexivity.
  - exact Hne.
  - reflexivity.
Defined.

(** * Further properties: start-up *)

Lemma sum_addresses_replace pre k (e e' : ENIIPPool) post :
  len (IPv4Addresses e') = len (IPv4Addresses e) ->
  sum_addresses (pre ++ (k, e') :: post) = sum_addresses (pre ++ (k, e) :: post).
Proof.
  intros Hlen. rewrite !sum_addresses_app, !sum_addresses_cons. lia.
Qed.

(** One assignment of [init]: what it leaves of the datastore. *)
Lemma AssignPodIPv4Address_step k8sPod ds :
  total (AssignPodIPv4Address k8sPod ds).2 = total ds ∧
  GetENIs (AssignPodIPv4Address k8sPod ds).2 = GetENIs ds ∧
  sum_addresses (eniIPPools (AssignPodIPv4Address k8sPod ds).2)
    = sum_addresses (eniIPPools ds) ∧
  (podsIP (AssignPodIPv4Address k8sPod ds).2 = podsIP ds ∨
   ∃ info,
     podsIP ds !! NewPodKey k8sPod = None ∧
     podsIP (AssignPodIPv4Address k8sPod ds).2 = <[NewPodKey k8sPod := info]> (podsIP ds) ∧
     (k8sapi.IP k8sPod ≠ "" -> IP info = k8sapi.IP k8sPod)).
Proof.
  destruct (AssignPodIPv4Address_cases k8sPod ds)
    as [(res & -> & _) | (r & ds' & Hfree & -> & Hcall)]; [ cbn [snd]; auto | ].
  cbn [snd]. apply assign_success in Hcall.
  destruct Hcall
    as (pre & k & e & post & pre' & k' & a & post' & Hpools & Haddrs & Hwhy & _ & ->).
  cbn [total eniIPPools podsIP]. split; [ reflexivity | ]. split; [ | split ].
  - unfold GetENIs, len. cbn [eniIPPools]. rewrite Hpools, !length_app. reflexivity.
  - rewrite Hpools. apply sum_addresses_replace.
    cbn [IPv4Addresses set_IPv4Addresses]. rewrite Haddrs, !len_app, !len_cons. reflexivity.
  - right. eexists. split; [ exact Hfree | ]. split; [ reflexivity | ].
    cbn [IP]. intros Hip. destruct Hwhy as [Heq | [_ Hempty]]; congruence.
Qed.

Lemma init_usedIPs_run usedIPs :
  ∀ c,
    ∃ ds',
      ipamd.init_usedIPs usedIPs c = ([], Returns (tt, ipamd.set_dataStore ds' c)) ∧
      total ds' = total (ipamd.dataStore c) ∧
      GetENIs ds' = GetENIs (ipamd.dataStore c) ∧
      sum_addresses (eniIPPools ds') = sum_addresses (eniIPPools (ipamd.dataStore c)) ∧
      (consistent (ipamd.dataStore c) -> consistent ds') ∧
      ∀ key info,
        podsIP ds' !! key = Some info ->
        podsIP (ipamd.dataStore c) !! key = Some info ∨
        ∃ p, p ∈ usedIPs ∧ NewPodKey p = key ∧
             (k8sapi.IP p ≠ "" -> IP info = k8sapi.IP p).
Proof.
  induction usedIPs as [ | ip rest IH]; intros c.
  - exists (ipamd.dataStore c). rewrite set_dataStore_same.
    split; [ reflexivity | ]. auto 7.
  - simpl. rewrite run_self.
    pose proof (AssignPodIPv4Address_step ip (ipamd.dataStore c))
      as (Htot & Henis & Hsum & Hpods).
    pose proof (consistent_AssignPodIPv4Address ip (ipamd.dataStore c)) as Hcons.
    destruct (AssignPodIPv4Address ip (ipamd.dataStore c)) as [res ds1].
    cbn [snd] in *. rewrite run_modify.
    destruct (IH (ipamd.set_dataStore ds1 c))
      as (ds' & Hrun & Htot' & Henis' & Hsum' & Hcons' & Hfrom).
    cbn [ipamd.dataStore ipamd.set_dataStore] in *.
    exists ds'. split; [ exact Hrun | ].
    split; [ congruence | ]. split; [ congruence | ]. split; [ congruence | ].
    split; [ auto | ].
    intros key info Hbound. destruct (Hfrom key info Hbound) as [H1 | (p & Hp & Hkey & Hip)].
    + destruct Hpods as [Hsame | (info1 & _ & Hnew & Hip)].
      * left. now rewrite <- Hsame.
      * rewrite Hnew in H1. apply lookup_insert_Some in H1.
        destruct H1 as [[<- <-] | [_ H1]]; [ right | now left ].
        exists ip. split; [ apply elem_of_cons; now left | auto ].
    + right. exists p. split; [ apply elem_of_cons; now right | auto ].
Qed.

Lemma manages_init_enis clock aws enis :
  ∀ i, manages (ipamd.init_enis clock aws i enis).
Proof.
  induction enis as [ | eni rest IH]; intros i; [ apply manages_ret | ].
  simpl. apply manages_emit. apply manages_bind; [ apply manages_setupENI | ].
  intros [e | ]; [ apply manages_ret | apply IH ].
Qed.

Lemma init_run clock aws host c :
  ipamd.init clock aws host c =
    match ipamd.initNetwork host with
    | Some err => ([], Returns (Some err, c))
    | None =>
        match awsutils.GetAttachedENIs aws 0 with
        | inr _ =>
            ([ipamd.Call_GetAttachedENIs],
             Returns (Some "ipamd init: failed to retrieve attached ENIs info", c))
        | inl enis =>
            match ipamd.init_enis clock aws 0 enis (ipamd.set_dataStore NewDataStore c) with
            | (t, Panics) => (ipamd.Call_GetAttachedENIs :: t, Panics)
            | (t, Returns (Some e, c0)) =>
                (ipamd.Call_GetAttachedENIs :: t, Returns (Some e, c0))
            | (t, Returns (None, c0)) =>
                match ipamd.K8SGetLocalPodIPs host (ipamd.GetLocalIPv4 host) with
                | inr _ => (ipamd.Call_GetAttachedENIs :: t, Returns (None, c0))
                | inl usedIPs =>
                    match ipamd.init_usedIPs usedIPs c0 with
                    | (t', Returns (_, c')) =>
                        (ipamd.Call_GetAttachedENIs :: t ++ t', Returns (None, c'))
                    | (t', Panics) => (ipamd.Call_GetAttachedENIs :: t ++ t', Panics)
                    end
                end
            end
        end
    end.
Proof.
  unfold ipamd.init. destruct (ipamd.initNetwork host); [ reflexivity | ].
  unfold ipamd.bind, ipamd.emit, ipamd.modify, ipamd.ret.
  destruct (awsutils.GetAttachedENIs aws 0) as [enis | err]; [ | reflexivity ].
  destruct (ipamd.init_enis clock aws 0 enis _) as [t [[[e | ] c0] | ]];
    cbn [app]; rewrite ?app_nil_r; try reflexivity.
  destruct (ipamd.K8SGetLocalPodIPs host (ipamd.GetLocalIPv4 host)) as [usedIPs | err];
    [ | now rewrite app_nil_r ].
  destruct (ipamd.init_usedIPs usedIPs c0) as [t' [[u c'] | ]];
    rewrite ?app_nil_r; reflexivity.
Qed.

Lemma init_cases clock aws host c :
  ∃ t r c',
    ipamd.init clock aws host c = (t, Returns (r, c')) ∧
    (r = None ->
     (in_memory (ipamd.dataStore c') -> consistent (ipamd.dataStore c')) ∧
     ∀ key info,
       podsIP (ipamd.dataStore c') !! key = Some info ->
       ∃ usedIPs p,
         ipamd.K8SGetLocalPodIPs host (ipamd.GetLocalIPv4 host) = inl usedIPs ∧
         p ∈ usedIPs ∧ NewPodKey p = key ∧
         (k8sapi.IP p ≠ "" -> IP info = k8sapi.IP p)).
Proof.
  rewrite init_run.
  destruct (ipamd.initNetwork host) as [err | ].
  { eexists _, _, _. split; [ reflexivity | discriminate ]. }
  destruct (awsutils.GetAttachedENIs aws 0) as [enis | err].
  2: { eexists _, _, _. split; [ reflexivity | discriminate ]. }
  assert (Hnew : consistent_mod (ipamd.dataStore (ipamd.set_dataStore NewDataStore c))).
  { apply consistent_mod_iff, consistent_NewDataStore. }
  destruct (manages_init_enis clock aws enis 0 _ Hnew)
    as (t & r & c0 & -> & Hc0 & (Hpods0 & _)).
  cbn [ipamd.dataStore ipamd.set_dataStore] in Hpods0.
  assert (Hempty : ∀ key info, podsIP (ipamd.dataStore c0) !! key = Some info -> False).
  { intros key info. rewrite Hpods0. cbn. rewrite lookup_empty. discriminate. }
  destruct r as [e | ].
  { eexists _, _, _. split; [ reflexivity | discriminate ]. }
  destruct (ipamd.K8SGetLocalPodIPs host (ipamd.GetLocalIPv4 host)) as [usedIPs | err].
  - destruct (init_usedIPs_run usedIPs c0) as (ds' & -> & _ & _ & Hsum & Hcons & Hfrom).
    eexists _, _, _. split; [ reflexivity | ]. intros _.
    cbn [ipamd.dataStore ipamd.set_dataStore]. split.
    + intros Hmem. apply Hcons, consistent_mod_iff. split; [ exact Hc0 | ].
      unfold in_memory in *. now rewrite <- Hsum.
    + intros key info Hbound. destruct (Hfrom key info Hbound) as [H | (p & Hp)].
      * now apply Hempty in H.
      * exists usedIPs, p. split; [ reflexivity | exact Hp ].
  - eexists _, _, _. split; [ reflexivity | ]. intros _. split.
    + intros Hmem. now apply consistent_mod_iff.
    + intros key info Hbound. now apply Hempty in Hbound.
Qed.

(** X23. [init] always returns.  When it returns no error, the datastore
    it leaves is consistent as long as it is in memory, and every pod
    binding in it is that of a pod the kubelet listed, bound to the IP the
    kubelet reported for it when that IP is not empty. *)
Theorem init_datastore clock aws host c :
  ∃ t r c',
    ipamd.init clock aws host c = (t, Returns (r, c')) ∧
    (r = None ->
     (in_memory (ipamd.dataStore c') -> consistent (ipamd.dataStore c')) ∧
     ∀ key info,
       podsIP (ipamd.dataStore c') !! key = Some info ->
       ∃ usedIPs p,
         ipamd.K8SGetLocalPodIPs host (ipamd.GetLocalIPv4 host) = inl usedIPs ∧
         p ∈ usedIPs ∧ NewPodKey p = key ∧
         (k8sapi.IP p ≠ "" -> IP info = k8sapi.IP p)).
Proof.
  apply init_cases.
Qed.

(** X24. Neither a failing kubelet nor a failing assignment makes [init]
    fail: with any other answer of the kubelet, [init] makes the same calls
    on the cloud and returns the same error or none, and the datastore it
    leaves has the same ENIs in number, the same [total] and the same
    capacities. *)
Theorem init_whatever_the_pods clock aws host pods' c :
  ∃ t r c1 c2,
    ipamd.init clock aws host c = (t, Returns (r, c1)) ∧
    ipamd.init clock aws
      (ipamd.mkHost (ipamd.GetVPCIPv4CIDR host) (ipamd.GetLocalIPv4 host)
         (ipamd.ParseCIDR host) (ipamd.SetupHostNetwork host) pods') c
      = (t, Returns (r, c2)) ∧
    GetENIs (ipamd.dataStore c1) = GetENIs (ipamd.dataStore c2) ∧
    total (ipamd.dataStore c1) = total (ipamd.dataStore c2) ∧
    ipamd.currentMaxAddrsPerENI c1 = ipamd.currentMaxAddrsPerENI c2 ∧
    ipamd.maxAddrsPerENI c1 = ipamd.maxAddrsPerENI c2 ∧
    ipamd.maxENI c1 = ipamd.maxENI c2.
Proof.
  rewrite !init_run.
  change (ipamd.initNetwork (ipamd.mkHost _ _ _ _ pods')) with (ipamd.initNetwork host).
  destruct (ipamd.initNetwork host) as [err | ].
  { eexists _, _, _, _. split; [ reflexivity | ]. split; [ reflexivity | auto 6 ]. }
  destruct (awsutils.GetAttachedENIs aws 0) as [enis | err].
  2: { eexists _, _, _, _. split; [ reflexivity | ]. split; [ reflexivity | auto 6 ]. }
  assert (Hnew : consistent_mod (ipamd.dataStore (ipamd.set_dataStore NewDataStore c))).
  { apply consistent_mod_iff, consistent_NewDataStore. }
  destruct (manages_init_enis clock aws enis 0 _ Hnew) as (t & r & c0 & -> & _).
  destruct r as [e | ].
  { eexists _, _, _, _. split; [ reflexivity | ]. split; [ reflexivity | auto 6 ]. }
  cbn [ipamd.K8SGetLocalPodIPs ipamd.GetLocalIPv4].
  assert (Hpods : ∀ answer : list k8sapi.K8SPodInfo + string,
            ∃ c',
              match answer with
              | inl usedIPs =>
                  match ipamd.init_usedIPs usedIPs c0 with
                  | (t', Returns (_, c')) =>
                      (ipamd.Call_GetAttachedENIs :: t ++ t', Returns (None, c'))
                  | (t', Panics) => (ipamd.Call_GetAttachedENIs :: t ++ t', Panics)
                  end
              | inr _ => (ipamd.Call_GetAttachedENIs :: t, Returns (None, c0))
              end = (ipamd.Call_GetAttachedENIs :: t, Returns (@None string, c')) ∧
              GetENIs (ipamd.dataStore c') = GetENIs (ipamd.dataStore c0) ∧
              total (ipamd.dataStore c') = total (ipamd.dataStore c0) ∧
              ipamd.currentMaxAddrsPerENI c' = ipamd.currentMaxAddrsPerENI c0 ∧
              ipamd.maxAddrsPerENI c' = ipamd.maxAddrsPerENI c0 ∧
              ipamd.maxENI c' = ipamd.maxENI c0).
  { intros [usedIPs | err]; [ | exists c0; auto 6 ].
    destruct (init_usedIPs_run usedIPs c0) as (ds' & -> & Htot & Henis & _).
    exists (ipamd.set_dataStore ds' c0). rewrite app_nil_r.
    cbn [ipamd.dataStore ipamd.set_dataStore ipamd.currentMaxAddrsPerENI
         ipamd.maxAddrsPerENI ipamd.maxENI]. auto 6. }
  destruct (Hpods (ipamd.K8SGetLocalPodIPs host (ipamd.GetLocalIPv4 host)))
    as (c1 & -> & H1 & H2 & H3 & H4 & H5).
  destruct (Hpods (pods' (ipamd.GetLocalIPv4 host))) as (c2 & -> & H1' & H2' & H3' & H4' & H5').
  exists (ipamd.Call_GetAttachedENIs :: t), None, c1, c2.
  split; [ reflexivity | ]. split; [ reflexivity | ].
  repeat split; congruence.
Qed.

Lemma init_datastore_witness :
  ∃ t c',
    ipamd.init (fun _ => 100) startup.cloud startup.host startup.fresh
      = (t, Returns (None, c')) ∧
    consistent (ipamd.dataStore c') ∧
    GetStats (ipamd.dataStore c') = (2, 1) ∧
    podsIP (ipamd.dataStore c') !! NewPodKey startup.pod_known
      = Some {| IP := "10.0.1.2"; PodDeviceNumber := 2 |} ∧
    podsIP (ipamd.dataStore c') !! NewPodKey startup.pod_stray = None.
Proof.
  destruct (init_datastore (fun _ => 100) startup.cloud startup.host startup.fresh)
    as (t & r & c' & Hrun & Hnone).
  vm_compute in Hrun. injection Hrun as <- <- <-.
  eexists _, _. split; [ vm_compute; reflexivity | ].
  destruct (Hnone eq_refl) as (Hcons & _).
  split; [ apply Hcons; vm_compute; discriminate | ].
  split; [ reflexivity | ]. split; vm_compute; reflexivity.
Defined.

(** ** The kubelet client *)






